(** * Person model and person service of the Mongoose CRUD project

    A shallow embedding of [src/models/Person.js],
    [src/services/personService.js], [src/database/connection.js],
    [src/seed.js] and [src/index.js], together with the behaviour of the
    object-document mapper (Mongoose, with its callback API) and of the
    database server these files call.

    Conventions of the embedding:
    - a JavaScript string is a [string] of 8-bit code units;
    - a JavaScript number is a rational [Q] (ages and their mean), so NaN,
      infinities and rounding are outside the model;
    - a property that may be [undefined] or [null] is a [field];
    - a document has its [_id] and the paths the schema declares; the
      version key the library keeps beside them is not modelled;
    - an asynchronous operation is a function from the [world] before the
      call to a [result] (resolved value or rejection) and the world after
      it; the calls of the service do not interleave, the saves that one
      [Model.create] starts do.

    Behaviour of the library and of the server that the model writes out:
    - the setters of a path ([trim], [lowercase]) run when a document is
      built, when a path is assigned, when a value is pushed on an array
      path, and on the value of a filter for that path;
    - [save] validates the document, runs the [pre('save')] hook and then
      writes; validation failures name the failing paths, the path of an
      element of [favoriteFoods] being [favoriteFoods.0] and so on;
    - the server enforces the unique index on [_id] and the unique sparse
      index on [email], in which a document has an entry as soon as it has
      the field, an explicit [null] included;
    - [Model.create] with an array builds a document for every element in
      the order of the array and starts all the saves at once: the order
      in which the saves reach the server is not the program's to choose,
      and is a parameter of the model (a schedule);
    - [findOneAndUpdate] with [runValidators] validates the update before
      it looks for a match;
    - [select] adds the keys of its argument to one projection object.
      The releases of the library differ on a second [select] that goes
      against the first: before 6.1.0 its keys are assigned all the same,
      from 6.1.0 on they are left out.  [src/] fixes no release, so the
      release is a parameter of the model;
    - the server refuses a projection that mixes inclusion and exclusion
      (the key [_id] apart). *)

From Stdlib Require Import Bool Arith ZArith Lia List String Ascii QArith.
From Stdlib Require Import Sorted Lqa Permutation DecimalString.
Import ListNotations.

Local Open Scope string_scope.
Local Open Scope nat_scope.

(* ------------------------------------------------------------------ *)
(** ** JavaScript values used by the service *)

Module JS.

(** A property of an object literal: absent, [null], or a value. *)
Inductive field (A : Type) : Type :=
| Undefined : field A
| Null : field A
| Val : A -> field A.
Arguments Undefined {A}.
Arguments Null {A}.
Arguments Val {A} _.

Definition map_field {A B} (f : A -> B) (x : field A) : field B :=
  match x with
  | Undefined => Undefined
  | Null => Null
  | Val a => Val (f a)
  end.

(** Truthiness of a string: only the empty string is falsy. *)
Definition truthy_string (s : string) : bool :=
  match s with
  | EmptyString => false
  | String _ _ => true
  end.

Definition truthy_field {A} (t : A -> bool) (x : field A) : bool :=
  match x with
  | Val a => t a
  | _ => false
  end.

(** Truthiness of a number: zero is falsy. *)
Definition truthy_number (q : Q) : bool := negb (Qeq_bool q 0).

Definition in_range (lo hi c : ascii) : bool :=
  (Ascii.leb lo c && Ascii.leb c hi)%bool.

Definition isUpper (c : ascii) : bool := in_range "A" "Z" c.
Definition isLower (c : ascii) : bool := in_range "a" "z" c.
Definition isDigit (c : ascii) : bool := in_range "0" "9" c.
Definition isAlpha (c : ascii) : bool := (isUpper c || isLower c)%bool.

(** The class [\s], which is also what [String.prototype.trim] strips:
    tab, line feed, vertical tab, form feed, carriage return, space and
    the no-break space. *)
Definition isSpace (c : ascii) : bool :=
  (in_range "009" "013" c || Ascii.eqb c " " || Ascii.eqb c "160")%bool.

(** The class [\w]. *)
Definition isWord (c : ascii) : bool :=
  (isAlpha c || isDigit c || Ascii.eqb c "_")%bool.

(** Upper-case letters of the 8-bit range: A-Z and the accented capitals
    192-222 without the multiplication sign 215. *)
Definition hasLower (c : ascii) : bool :=
  (isUpper c || (in_range "192" "222" c && negb (Ascii.eqb c "215")))%bool.

Definition toLowerChar (c : ascii) : ascii :=
  if hasLower c then ascii_of_nat (nat_of_ascii c + 32) else c.

Fixpoint toLowerCase (s : string) : string :=
  match s with
  | EmptyString => EmptyString
  | String c s' => String (toLowerChar c) (toLowerCase s')
  end.

Fixpoint trimStart (s : string) : string :=
  match s with
  | EmptyString => EmptyString
  | String c s' => if isSpace c then trimStart s' else s
  end.

Fixpoint trimEnd (s : string) : string :=
  match s with
  | EmptyString => EmptyString
  | String c s' =>
      match trimEnd s' with
      | EmptyString => if isSpace c then EmptyString else String c EmptyString
      | t => String c t
      end
  end.

Definition trim (s : string) : string := trimEnd (trimStart s).

Fixpoint all_chars (p : ascii -> bool) (s : string) : bool :=
  match s with
  | EmptyString => true
  | String c s' => (p c && all_chars p s')%bool
  end.

Fixpoint some_char (p : ascii -> bool) (s : string) : bool :=
  match s with
  | EmptyString => false
  | String c s' => (p c || some_char p s')%bool
  end.

(** [s.split(/\s+/)] with the empty pieces dropped. *)
Fixpoint split_spaces_from (tok : string) (s : string) : list string :=
  match s with
  | EmptyString => [tok]
  | String c s' =>
      if isSpace c then tok :: split_spaces_from "" s'
      else split_spaces_from (tok ++ String c "") s'
  end.

Definition split_spaces (s : string) : list string :=
  filter truthy_string (split_spaces_from "" s).

(** [Array.prototype.includes] on an array of strings. *)
Definition includes (l : list string) (x : string) : bool :=
  existsb (String.eqb x) l.

End JS.
Export JS.

(* ------------------------------------------------------------------ *)
(** ** Regular expressions *)

Module RegExp.

(** The fragment of the regular-expression language the schema uses. *)
Inductive re : Type :=
| Never : re
| Eps : re
| Class : (ascii -> bool) -> re
| Cat : re -> re -> re
| Alt : re -> re -> re
| Star : re -> re.

Definition Chr (c : ascii) : re := Class (Ascii.eqb c).
Definition Plus (r : re) : re := Cat r (Star r).
Definition Opt (r : re) : re := Alt Eps r.

(** [r{lo,lo+extra}] *)
Fixpoint AtMost (extra : nat) (r : re) : re :=
  match extra with
  | 0 => Eps
  | S k => Opt (Cat r (AtMost k r))
  end.

Fixpoint Repeat (lo extra : nat) (r : re) : re :=
  match lo with
  | 0 => AtMost extra r
  | S k => Cat r (Repeat k extra r)
  end.

Fixpoint nullable (r : re) : bool :=
  match r with
  | Never => false
  | Eps => true
  | Class _ => false
  | Cat a b => (nullable a && nullable b)%bool
  | Alt a b => (nullable a || nullable b)%bool
  | Star _ => true
  end.

Definition cat (a b : re) : re :=
  match a, b with
  | Never, _ => Never
  | _, Never => Never
  | Eps, _ => b
  | _, _ => Cat a b
  end.

Definition alt (a b : re) : re :=
  match a, b with
  | Never, _ => b
  | _, Never => a
  | _, _ => Alt a b
  end.

(** Brzozowski derivative. *)
Fixpoint deriv (c : ascii) (r : re) : re :=
  match r with
  | Never => Never
  | Eps => Never
  | Class p => if p c then Eps else Never
  | Cat a b =>
      if nullable a then alt (cat (deriv c a) b) (deriv c b)
      else cat (deriv c a) b
  | Alt a b => alt (deriv c a) (deriv c b)
  | Star a => cat (deriv c a) (Star a)
  end.

(** [/^r$/.test(s)] *)
Fixpoint test (r : re) (s : string) : bool :=
  match s with
  | EmptyString => nullable r
  | String c s' => test (deriv c r) s'
  end.

End RegExp.

(* ------------------------------------------------------------------ *)
(** ** Outcomes of asynchronous operations *)

Inductive error : Type :=
| Error (message : string)            (* [new Error(message)] of the service *)
| ValidationError (paths : list string) (* schema validation, failing paths *)
| DuplicateKeyError (index : string)  (* E11000 on a unique index *)
| DocumentNotFoundError               (* saving a document that is gone *)
| ProjectionError.                    (* projection mixes inclusion and exclusion *)

Inductive result (A : Type) : Type :=
| Resolved : A -> result A
| Rejected : error -> result A.
Arguments Resolved {A} _.
Arguments Rejected {A} _.

Definition is_rejected {A} (r : result A) : bool :=
  match r with
  | Resolved _ => false
  | Rejected _ => true
  end.

(* ------------------------------------------------------------------ *)
(** ** The Person documents and the collection *)

Definition ObjectId := nat.
Definition Date := nat.

(** A Person document.  [name] is [None] while a document has no name
    (the [required] validator then refuses it); [age] is [None] for the
    schema default [null]; [email] keeps apart a missing field and an
    explicit [null], which the sparse index treats differently. *)
Record person : Type := mkPerson {
  _id : ObjectId;
  name : option string;
  age : option Q;
  favoriteFoods : list string;
  email : field string;
  createdAt : Date;
  updatedAt : Date;
  isActive : bool
}.

Definition with_name (v : option string) (p : person) : person :=
  mkPerson (_id p) v (age p) (favoriteFoods p) (email p)
           (createdAt p) (updatedAt p) (isActive p).
Definition with_age (v : option Q) (p : person) : person :=
  mkPerson (_id p) (name p) v (favoriteFoods p) (email p)
           (createdAt p) (updatedAt p) (isActive p).
Definition with_favoriteFoods (v : list string) (p : person) : person :=
  mkPerson (_id p) (name p) (age p) v (email p)
           (createdAt p) (updatedAt p) (isActive p).
Definition with_email (v : field string) (p : person) : person :=
  mkPerson (_id p) (name p) (age p) (favoriteFoods p) v
           (createdAt p) (updatedAt p) (isActive p).
Definition with_updatedAt (v : Date) (p : person) : person :=
  mkPerson (_id p) (name p) (age p) (favoriteFoods p) (email p)
           (createdAt p) v (isActive p).
Definition with_isActive (v : bool) (p : person) : person :=
  mkPerson (_id p) (name p) (age p) (favoriteFoods p) (email p)
           (createdAt p) (updatedAt p) v.

(** What the operations run against: the collection in natural order, the
    source of fresh [ObjectId]s and the value [Date.now()] returns. *)
Record world : Type := mkWorld {
  docs : list person;
  next_id : ObjectId;
  clock : Date
}.

Definition with_docs (l : list person) (w : world) : world :=
  mkWorld l (next_id w) (clock w).

Definition empty_world : world := mkWorld [] 0 0.

(** The object given to [new Person(...)] or to [Person.create]. *)
Record PersonInit : Type := mkInit {
  init_name : field string;
  init_age : field Q;
  init_favoriteFoods : option (list string);
  init_email : field string;
  init_isActive : option bool
}.

Module Schema.
Import RegExp.

(** [/^[a-zA-Z\s]{2,100}$/] *)
Definition nameChar (c : ascii) : bool := (isAlpha c || isSpace c)%bool.
Definition nameRegExp : re := Repeat 2 98 (Class nameChar).

(** [/^\w+([\.-]?\w+)*@\w+([\.-]?\w+)*(\.\w{2,3})+$/] *)
Definition dotOrDash (c : ascii) : bool :=
  (Ascii.eqb c "." || Ascii.eqb c "-")%bool.
Definition dotted : re :=
  Cat (Plus (Class isWord))
      (Star (Cat (Opt (Class dotOrDash)) (Plus (Class isWord)))).
Definition emailRegExp : re :=
  Cat dotted
      (Cat (Chr "@")
           (Cat dotted (Plus (Cat (Chr ".") (Repeat 2 1 (Class isWord)))))).

(** Setters of the string paths. *)
Definition set_name (v : string) : string := trim v.
Definition set_food (v : string) : string := trim v.
Definition set_email (v : string) : string := trim (toLowerCase v).

(** [name]: required, minlength 2, maxlength 100, custom validator. *)
Definition valid_name (v : option string) : bool :=
  match v with
  | None => false
  | Some s =>
      (truthy_string s && (2 <=? String.length s)
       && (String.length s <=? 100) && test nameRegExp s)%bool
  end.

(** [age]: min 0, max 120; [null] passes. *)
Definition valid_age (v : option Q) : bool :=
  match v with
  | None => true
  | Some q => (Qle_bool 0 q && Qle_bool q 120)%bool
  end.

(** An element of [favoriteFoods]: minlength 2, maxlength 50. *)
Definition valid_food (s : string) : bool :=
  ((2 <=? String.length s) && (String.length s <=? 50))%bool.

(** [favoriteFoods]: at most 20 entries, each of them valid. *)
Definition valid_favoriteFoods (l : list string) : bool :=
  ((List.length l <=? 20) && forallb valid_food l)%bool.

(** [email]: the [match] validator, which lets [null] and the empty
    string through. *)
Definition valid_email (v : field string) : bool :=
  match v with
  | Val s => if truthy_string s then test emailRegExp s else true
  | _ => true
  end.

Definition check (path : string) (ok : bool) : list string :=
  if ok then [] else [path].

(** The path of the element [i] of [favoriteFoods]: [favoriteFoods.0] for
    the first one. *)
Definition food_path (i : nat) : string :=
  "favoriteFoods." ++ NilEmpty.string_of_uint (Nat.to_uint i).

(** The elements of [favoriteFoods] that fail, from index [i] on. *)
Fixpoint food_paths (i : nat) (l : list string) : list string :=
  match l with
  | [] => []
  | s :: l' => check (food_path i) (valid_food s) ++ food_paths (S i) l'
  end.

(** [doc.validate()]: the paths that fail.  The validator of the array
    answers for [favoriteFoods], those of its elements for the path of
    the element. *)
Definition validate (p : person) : list string :=
  check "name" (valid_name (name p))
  ++ check "age" (valid_age (age p))
  ++ check "favoriteFoods" (List.length (favoriteFoods p) <=? 20)
  ++ food_paths 0 (favoriteFoods p)
  ++ check "email" (valid_email (email p)).

Definition is_valid (p : person) : bool :=
  (valid_name (name p) && valid_age (age p)
   && valid_favoriteFoods (favoriteFoods p) && valid_email (email p))%bool.

End Schema.

(** Keys of the unique sparse index on [email]: a document without the
    field has no entry, one with an explicit [null] has. *)
Definition same_email_key (a b : field string) : bool :=
  match a, b with
  | Null, Null => true
  | Val x, Val y => String.eqb x y
  | _, _ => false
  end.

Definition has_id (i : ObjectId) (p : person) : bool := _id p =? i.

Definition has_name (n : string) (p : person) : bool :=
  match name p with
  | Some m => String.eqb m n
  | None => false
  end.

Definition likes (food : string) (p : person) : bool :=
  includes (favoriteFoods p) food.

(** The first unique index an insert of [p] next to [others] violates. *)
Definition violated_index (others : list person) (p : person) : option string :=
  if existsb (has_id (_id p)) others then Some "_id"
  else if existsb (fun q => same_email_key (email q) (email p)) others
       then Some "email"
       else None.

Fixpoint remove_first (f : person -> bool) (l : list person) : list person :=
  match l with
  | [] => []
  | q :: l' => if f q then l' else q :: remove_first f l'
  end.

Fixpoint replace_first (f : person -> bool) (p : person) (l : list person)
  : list person :=
  match l with
  | [] => []
  | q :: l' => if f q then p :: l' else q :: replace_first f p l'
  end.

Definition field_eqb (a b : field string) : bool :=
  match a, b with
  | Undefined, Undefined => true
  | Null, Null => true
  | Val x, Val y => String.eqb x y
  | _, _ => false
  end.

(* ------------------------------------------------------------------ *)
(** ** The model: what [Person] and its documents do *)

Module Person.

(** [new Person(d)]: casts and sets each path through its setters, fills
    the defaults and draws a fresh [_id]. *)
Definition new (d : PersonInit) (w : world) : person * world :=
  (mkPerson (next_id w)
            (match init_name d with
             | Val s => Some (Schema.set_name s)
             | _ => None
             end)
            (match init_age d with
             | Val q => Some q
             | _ => None
             end)
            (match init_favoriteFoods d with
             | Some l => map Schema.set_food l
             | None => []
             end)
            (map_field Schema.set_email (init_email d))
            (clock w) (clock w)
            (match init_isActive d with
             | Some b => b
             | None => true
             end),
   mkWorld (docs w) (S (next_id w)) (clock w)).

(** [doc.save()].  Validation comes first, then the [pre('save')] hook
    that stamps [updatedAt], then the write, on which the server checks
    its unique indexes.  A new document is inserted; a loaded one is
    written back over the stored document with its [_id], and its email
    meets the index only when it changed. *)
Definition save (isNew : bool) (p : person) (w : world)
  : result person * world :=
  match Schema.validate p with
  | (_ :: _) as paths => (Rejected (ValidationError paths), w)
  | [] =>
      let p' := with_updatedAt (clock w) p in
      if isNew then
        match violated_index (docs w) p' with
        | Some ix => (Rejected (DuplicateKeyError ix), w)
        | None => (Resolved p', with_docs (docs w ++ [p']) w)
        end
      else
        match List.find (has_id (_id p)) (docs w) with
        | None => (Rejected DocumentNotFoundError, w)
        | Some stored =>
            if (negb (field_eqb (email stored) (email p'))
                && existsb (fun q => same_email_key (email q) (email p'))
                           (remove_first (has_id (_id p)) (docs w)))%bool
            then (Rejected (DuplicateKeyError "email"), w)
            else (Resolved p',
                  with_docs (replace_first (has_id (_id p)) p' (docs w)) w)
        end
  end.

(** Filters, with the filter value cast through the path's setters. *)
Definition by_name (n : string) : person -> bool :=
  has_name (Schema.set_name n).
Definition by_food (food : string) : person -> bool :=
  likes (Schema.set_food food).
Definition everyone : person -> bool := fun _ => true.

Definition find (f : person -> bool) (w : world) : list person :=
  filter f (docs w).

Definition findOne (f : person -> bool) (w : world) : option person :=
  List.find f (docs w).

Definition findById (i : ObjectId) (w : world) : option person :=
  findOne (has_id i) w.

Definition countDocuments (f : person -> bool) (w : world) : nat :=
  List.length (filter f (docs w)).

(** [Person.create(array)] builds a document for every element, in the
    order of the array, and starts the save of each at once. *)
Fixpoint new_each (l : list PersonInit) (w : world) : list person * world :=
  match l with
  | [] => ([], w)
  | d :: l' =>
      let (p, w1) := new d w in
      let (ps, w2) := new_each l' w1 in
      (p :: ps, w2)
  end.

(** The saves run side by side, so they reach the server in an order of
    their own.  A schedule says, for each element of the array in turn,
    how many of the saves started after it overtake it; the empty
    schedule (nothing overtakes) is the order of the array. *)
Fixpoint insert_at {A : Type} (k : nat) (x : A) (l : list A) : list A :=
  match k, l with
  | S k', y :: l' => y :: insert_at k' x l'
  | _, _ => x :: l
  end.

Fixpoint arrival {A : Type} (sched : list nat) (l : list A) : list A :=
  match l with
  | [] => []
  | x :: l' => insert_at (hd 0 sched) x (arrival (tl sched) l')
  end.

(** The saves in the order of their arrival, each with the index of its
    element in the array. *)
Fixpoint save_each (l : list (nat * person)) (w : world)
  : list (nat * result person) * world :=
  match l with
  | [] => ([], w)
  | (i, p) :: l' =>
      let (r, w1) := save true p w in
      let (rs, w2) := save_each l' w1 in
      ((i, r) :: rs, w2)
  end.

(** [firstError]: the error of the first save that answered with one. *)
Fixpoint first_error (rs : list (nat * result person)) : option error :=
  match rs with
  | [] => None
  | (_, Rejected e) :: _ => Some e
  | (_, Resolved _) :: rs' => first_error rs'
  end.

(** The documents that were stored, in the order of their arrival. *)
Fixpoint saved (rs : list (nat * result person)) : list person :=
  match rs with
  | [] => []
  | (_, Resolved p) :: rs' => p :: saved rs'
  | (_, Rejected _) :: rs' => saved rs'
  end.

(** [_res[i] = doc]: the saved documents by the index of their element. *)
Definition saved_at (rs : list (nat * result person)) (i : nat) : list person :=
  match List.find (fun ir => fst ir =? i) rs with
  | Some (_, Resolved p) => [p]
  | _ => []
  end.

(** The call fails with the first error when a save failed, and gives the
    saved documents in the order of the array otherwise. *)
Definition create (sched : list nat) (l : list PersonInit) (w : world)
  : result (list person) * world :=
  let (ps, w1) := new_each l w in
  let n := List.length ps in
  let (rs, w') := save_each (arrival sched (combine (seq 0 n) ps)) w1 in
  match first_error rs with
  | Some e => (Rejected e, w')
  | None => (Resolved (flat_map (saved_at rs) (seq 0 n)), w')
  end.

(** [Person.findOneAndUpdate({name}, {age}, {new: true, runValidators:
    true})]: the update validators run on the new age before anything is
    sent; the first match gets the age and a new [updatedAt], and comes
    back as it is after the update. *)
Definition findOneAndUpdate (n : string) (newAge : option Q) (w : world)
  : result (option person) * world :=
  if Schema.valid_age newAge then
    match findOne (by_name n) w with
    | None => (Resolved None, w)
    | Some p =>
        let p' := with_updatedAt (clock w) (with_age newAge p) in
        (Resolved (Some p'),
         with_docs (replace_first (by_name n) p' (docs w)) w)
    end
  else (Rejected (ValidationError ["age"]), w).

Definition findByIdAndRemove (i : ObjectId) (w : world)
  : option person * world :=
  match findById i w with
  | None => (None, w)
  | Some p => (Some p, with_docs (remove_first (has_id i) (docs w)) w)
  end.

(** [Person.deleteMany(filter)], giving [deletedCount]. *)
Definition deleteMany (f : person -> bool) (w : world) : nat * world :=
  (List.length (filter f (docs w)),
   with_docs (filter (fun p => negb (f p)) (docs w)) w).

(** [$match: {age: {$ne: null}}] then [$group] with [$avg: "$age"]:
    one group with the mean, or no group when nothing matched. *)
Definition ages (w : world) : list Q :=
  flat_map (fun p => match age p with Some q => [q] | None => [] end)
           (docs w).

Definition Qsum (l : list Q) : Q := fold_right Qplus 0%Q l.

Definition aggregate_avgAge (w : world) : option Q :=
  match ages w with
  | [] => None
  | l => Some (Qsum l / inject_Z (Z.of_nat (List.length l)))%Q
  end.

(** The instance methods of the schema, on a document [this]. *)
Definition addFavoriteFood (isNew : bool) (this : person) (food : string)
                           (w : world) : result person * world :=
  if negb (includes (favoriteFoods this) food) then
    save isNew
         (with_favoriteFoods (favoriteFoods this ++ [Schema.set_food food])
                             this) w
  else (Resolved this, w).

(** [indexOf] and [splice(index, 1)]: the first occurrence goes. *)
Fixpoint remove_food (food : string) (l : list string) : list string :=
  match l with
  | [] => []
  | x :: l' => if String.eqb food x then l' else x :: remove_food food l'
  end.

Definition removeFavoriteFood (isNew : bool) (this : person) (food : string)
                              (w : world) : result person * world :=
  if includes (favoriteFoods this) food then
    save isNew
         (with_favoriteFoods (remove_food food (favoriteFoods this)) this) w
  else (Resolved this, w).

(** The statics of the schema. *)
Definition findActive (w : world) : list person := find isActive w.

Definition findByAgeRange (minAge maxAge : Q) (w : world) : list person :=
  find (fun p => match age p with
                 | Some a => (Qle_bool minAge a && Qle_bool a maxAge)%bool
                 | None => false
                 end) w.

End Person.

(* ------------------------------------------------------------------ *)
(** ** The query builder *)

(** The releases of the library, as far as the program can tell them
    apart: they differ in what a second [select] does. *)
Inductive release : Type :=
| Before_6_1   (* 5.x and 6.0.x *)
| From_6_1.    (* 6.1.0 and the later releases with callbacks *)

Module Query.

(** A stored or projected document as the server returns it. *)
Inductive bson : Type :=
| BObjectId (i : ObjectId)
| BString (s : string)
| BNumber (q : Q)
| BNull
| BBool (b : bool)
| BDate (d : Date)
| BArray (l : list string).

Definition document := list (string * bson).

Definition toObject (p : person) : document :=
  ([("_id", BObjectId (_id p))]
   ++ match name p with
      | Some s => [("name", BString s)]
      | None => []
      end
   ++ [("age", match age p with Some q => BNumber q | None => BNull end);
       ("favoriteFoods", BArray (favoriteFoods p))]
   ++ match email p with
      | Undefined => []
      | Null => [("email", BNull)]
      | Val s => [("email", BString s)]
      end
   ++ [("createdAt", BDate (createdAt p));
       ("updatedAt", BDate (updatedAt p));
       ("isActive", BBool (isActive p))])%list.

Inductive order : Type :=
| Natural
| ByName (ascending : bool).

(** The state a chain of query helpers builds up; [fields] is the
    projection object, a key being [true] for 1 and [false] for 0. *)
Record query : Type := mkQuery {
  conditions : person -> bool;
  sorting : order;
  limiting : option nat;
  fields : list (string * bool)
}.

Definition find (f : person -> bool) : query := mkQuery f Natural None [].

Definition sort (o : order) (q : query) : query :=
  mkQuery (conditions q) o (limiting q) (fields q).

Definition limit (n : nat) (q : query) : query :=
  mkQuery (conditions q) (sorting q) (Some n) (fields q).

(** [obj[key] = value] on an object kept in insertion order. *)
Fixpoint assign (key : string) (value : bool) (o : list (string * bool))
  : list (string * bool) :=
  match o with
  | [] => [(key, value)]
  | (k, v) :: o' =>
      if String.eqb k key then (k, value) :: o'
      else (k, v) :: assign key value o'
  end.

(** A projection string: names separated by white space, a leading
    minus sign turning an inclusion into an exclusion. *)
Definition parseProjection (arg : string) : list (string * bool) :=
  map (fun f => match f with
                | String "-" rest => (rest, false)
                | _ => (f, true)
                end)
      (split_spaces arg).

(** [delete obj[key]] *)
Definition unset (key : string) (o : list (string * bool))
  : list (string * bool) :=
  filter (fun kv => negb (String.eqb (fst kv) key)) o.

Definition is_id (kv : string * bool) : bool := String.eqb (fst kv) "_id".

(** Whether the projection built so far includes or excludes: what its
    first key besides [_id] does. *)
Definition selected (o : list (string * bool)) : option bool :=
  match filter (fun kv => negb (is_id kv)) o with
  | [] => None
  | (_, b) :: _ => Some b
  end.

(** [query.select(arg)].  Before 6.1.0 every parsed key is assigned into
    [fields].  From 6.1.0 on the projection built so far decides: a key
    that goes its way is assigned, a key that goes against it is not, and
    takes the key out of [fields] if it is there. *)
Definition select (lib : release) (arg : string) (q : query) : query :=
  mkQuery (conditions q) (sorting q) (limiting q)
          (match lib, selected (fields q) with
           | From_6_1, Some kind =>
               fold_left (fun o kv => if Bool.eqb (snd kv) kind
                                      then assign (fst kv) (snd kv) o
                                      else unset (fst kv) o)
                         (parseProjection arg) (fields q)
           | _, _ =>
               fold_left (fun o kv => assign (fst kv) (snd kv) o)
                         (parseProjection arg) (fields q)
           end).

(** The server's reading of a projection: besides [_id], the keys are
    all inclusions or all exclusions, or the query is refused. *)
Definition projection_kind (fs : list (string * bool))
  : result (option bool) :=
  match filter (fun kv => negb (is_id kv)) fs with
  | [] => Resolved None
  | (_, b) :: rest =>
      if forallb (fun kv => Bool.eqb (snd kv) b) rest
      then Resolved (Some b)
      else Rejected ProjectionError
  end.

Definition lookup (key : string) (fs : list (string * bool)) : option bool :=
  option_map snd (List.find (fun kv => String.eqb (fst kv) key) fs).

Definition keeps (kind : option bool) (fs : list (string * bool))
                 (key : string) : bool :=
  if String.eqb key "_id" then
    match lookup "_id" fs with
    | Some b => b
    | None => true
    end
  else
    match kind with
    | Some true => match lookup key fs with Some _ => true | None => false end
    | Some false => match lookup key fs with Some _ => false | None => true end
    | None => match lookup "_id" fs with Some true => false | _ => true end
    end.

Definition project (kind : option bool) (fs : list (string * bool))
                   (d : document) : document :=
  filter (fun kv => keeps kind fs (fst kv)) d.

(** Ascending order on [name], a missing name before every string. *)
Definition name_leb (a b : person) : bool :=
  match name a, name b with
  | None, _ => true
  | Some _, None => false
  | Some x, Some y => String.leb x y
  end.

Fixpoint insert_by (le : person -> person -> bool) (p : person)
                   (l : list person) : list person :=
  match l with
  | [] => [p]
  | q :: l' => if le p q then p :: l else q :: insert_by le p l'
  end.

Definition sort_by (le : person -> person -> bool) (l : list person)
  : list person :=
  fold_right (insert_by le) [] l.

Definition ordered (o : order) (l : list person) : list person :=
  match o with
  | Natural => l
  | ByName true => sort_by name_leb l
  | ByName false => sort_by (fun a b => name_leb b a) l
  end.

Definition limited (n : option nat) (l : list person) : list person :=
  match n with
  | Some k => firstn k l
  | None => l
  end.

(** [query.exec()] *)
Definition exec (q : query) (w : world) : result (list document) :=
  match projection_kind (fields q) with
  | Rejected e => Rejected e
  | Resolved kind =>
      Resolved
        (map (fun p => project kind (fields q) (toObject p))
             (limited (limiting q)
                      (ordered (sorting q) (filter (conditions q) (docs w)))))
  end.

End Query.

(* ------------------------------------------------------------------ *)
(** ** The person service *)

Module personService.

(** What the [age] of a [personData] can be: a number, or one of the
    falsy values that are not numbers. *)
Inductive ageInput : Type :=
| AgeUndefined
| AgeNull
| AgeNumber (q : Q)
| AgeEmptyString
| AgeFalse.


Record PersonData : Type := mkData {
  pd_name : field string;
  pd_age : ageInput;
  pd_favoriteFoods : option (list string);
  pd_email : field string;
  pd_isActive : option bool
}.

(** 1. Create and save a single person. *)
Definition createAndSavePerson (personData : PersonData) (w : world)
  : result person * world :=
  if negb (truthy_field truthy_string (pd_name personData)) then
    (Rejected (Error "Name is required to create a person"), w)
  else
    let (doc, w1) :=
      Person.new
        (mkInit (pd_name personData)
                (* personData.age || null *)
                (match pd_age personData with
                 | AgeNumber q => if truthy_number q then Val q else Null
                 | _ => Null
                 end)
                (* personData.favoriteFoods || [] *)
                (match pd_favoriteFoods personData with
                 | Some l => Some l
                 | None => Some []
                 end)
                (* personData.email || null *)
                (if truthy_field truthy_string (pd_email personData)
                 then pd_email personData else Null)
                (match pd_isActive personData with
                 | Some b => Some b
                 | None => Some true
                 end))
        w in
    Person.save true doc w1.

(** 2. Create multiple people; [sched] is the order in which the saves
    of [Person.create] arrive. *)
Definition createManyPeople (sched : list nat)
                            (arrayOfPeople : list PersonInit) (w : world)
  : result (list person) * world :=
  match arrayOfPeople with
  | [] => (Rejected (Error "arrayOfPeople must be a non-empty array"), w)
  | _ => Person.create sched arrayOfPeople w
  end.

(** 3. Find all people with a given name. *)
Definition findPeopleByName (name : string) (w : world)
  : result (list person) :=
  if negb (truthy_string name) then
    Rejected (Error "Valid name string is required")
  else Resolved (Person.find (Person.by_name name) w).

(** 4. Find one person by favorite food. *)
Definition findOneByFood (food : string) (w : world)
  : result (option person) :=
  if negb (truthy_string food) then
    Rejected (Error "Valid food string is required")
  else Resolved (Person.findOne (Person.by_food food) w).

(** 5. Find a person by id; [None] stands for a falsy argument. *)
Definition findPersonById (personId : option ObjectId) (w : world)
  : result (option person) :=
  match personId with
  | None => Rejected (Error "personId is required")
  | Some i => Resolved (Person.findById i w)
  end.

Record Updates : Type := mkUpdates {
  upd_name : field string;
  upd_age : field Q;
  upd_email : field string;
  upd_isActive : option bool;
  upd_addToFavorites : option (list string)
}.

(** The [forEach] over [updates.addToFavorites]: a food the array does
    not include is pushed, the push casting it through the setter. *)
Fixpoint addToFavorites (foods favoriteFoods : list string) : list string :=
  match foods with
  | [] => favoriteFoods
  | food :: rest =>
      addToFavorites rest
        (if negb (includes favoriteFoods food)
         then favoriteFoods ++ [Schema.set_food food]
         else favoriteFoods)
  end.

(** Step 2 of the classic update: the assignments to the loaded document. *)
Definition applyUpdates (updates : Updates) (doc : person) : person :=
  let p1 := if truthy_field truthy_string (upd_name updates)
            then match upd_name updates with
                 | Val s => with_name (Some (Schema.set_name s)) doc
                 | _ => doc
                 end
            else doc in
  let p2 := match upd_age updates with
            | Undefined => p1
            | Null => with_age None p1
            | Val q => with_age (Some q) p1
            end in
  let p3 := match upd_email updates with
            | Undefined => p2
            | e => with_email (map_field Schema.set_email e) p2
            end in
  let p4 := match upd_isActive updates with
            | None => p3
            | Some b => with_isActive b p3
            end in
  match upd_addToFavorites updates with
  | Some foods =>
      with_favoriteFoods (addToFavorites foods (favoriteFoods p4)) p4
  | None => p4
  end.

(** 6. Classic update: find, edit, then save.  The message of the error
    for an id without record leaves out the id the source quotes in it. *)
Definition updatePersonClassic (personId : option ObjectId)
                               (updates : Updates) (w : world)
  : result person * world :=
  match personId with
  | None => (Rejected (Error "personId is required"), w)
  | Some i =>
      match Person.findById i w with
      | None => (Rejected (Error "Person not found"), w)
      | Some doc => Person.save false (applyUpdates updates doc) w
      end
  end.

(** 7. Add "hamburger" to the favorite foods. *)
Definition addHamburgerToFavorites (personId : option ObjectId) (w : world)
  : result person * world :=
  updatePersonClassic personId
    (mkUpdates Undefined Undefined Undefined None (Some ["hamburger"])) w.

(** The parameter [newAge = 20]: the default stands in for [undefined]
    only, a [null] stays [null]. *)
Definition newAge_or_default (newAge : field Q) : option Q :=
  match newAge with
  | Undefined => Some 20%Q
  | Null => None
  | Val q => Some q
  end.

(** 8. Find one and update. *)
Definition findOneAndUpdateAge (personName : string) (newAge : field Q)
                               (w : world)
  : result (option person) * world :=
  if negb (truthy_string personName) then
    (Rejected (Error "personName is required"), w)
  else
    Person.findOneAndUpdate personName (newAge_or_default newAge) w.

(** 9. Delete one person by id. *)
Definition deletePersonById (personId : option ObjectId) (w : world)
  : result (option person) * world :=
  match personId with
  | None => (Rejected (Error "personId is required"), w)
  | Some i =>
      let (removed, w') := Person.findByIdAndRemove i w in
      (Resolved removed, w')
  end.

(** 10. Delete many people by name; the result is [deletedCount]. *)
Definition deleteManyByName (name : string) (w : world)
  : result nat * world :=
  if negb (truthy_string name) then
    (Rejected (Error "Name is required for deletion"), w)
  else
    let (deletedCount, w') := Person.deleteMany (Person.by_name name) w in
    (Resolved deletedCount, w').

(** 11. Chained query helpers; [food] defaults to "burrito", and [lib] is
    the release of the library that runs the chain. *)
Definition findBurritoLovers (lib : release) (food : option string)
                             (w : world)
  : result (list Query.document) :=
  let food := match food with Some f => f | None => "burrito" end in
  Query.exec
    (Query.select lib "name favoriteFoods"
       (Query.select lib "-age"
          (Query.limit 2
             (Query.sort (Query.ByName true)
                (Query.find (Person.by_food food))))))
    w.

Definition getAllPeople (w : world) : result (list person) :=
  Resolved (Person.find Person.everyone w).

Record Stats : Type := mkStats {
  totalPeople : nat;
  activePeople : nat;
  averageAge : Q
}.

Definition getStats (w : world) : Stats :=
  mkStats (Person.countDocuments Person.everyone w)
          (Person.countDocuments isActive w)
          (* averageAge[0]?.avgAge || 0 *)
          (match Person.aggregate_avgAge w with
           | Some avg => if truthy_number avg then avg else 0%Q
           | None => 0%Q
           end).

End personService.

(* ------------------------------------------------------------------ *)
(** ** The connection manager *)

Module connection.

(** The manager: its flag, and the connection it holds, which stands here
    for the URI it was opened on ([None] for [null]). *)
Record DatabaseConnection : Type := mkConnection {
  isConnected : bool;
  connection : option string
}.

Definition constructor : DatabaseConnection := mkConnection false None.

(** How a call ends: it returns, or [process.exit(code)] ends the process. *)
Inductive outcome (A : Type) : Type :=
| Returned : A -> outcome A
| Exited : nat -> outcome A.
Arguments Returned {A} _.
Arguments Exited {A} _.

Definition isQuote (c : ascii) : bool :=
  (Ascii.eqb c "'" || Ascii.eqb c "034")%bool.

(** The [replace] of the URI: every single and every double quote is
    taken out. *)
Fixpoint stripQuotes (uri : string) : string :=
  match uri with
  | EmptyString => EmptyString
  | String c rest =>
      if isQuote c then stripQuotes rest else String c (stripQuotes rest)
  end.

(** [connect()], given [process.env.MONGO_URI] and what [mongoose.connect]
    answers on a URI ([true] when the connection is established).  Every
    error ends the process with code 1. *)
Definition connect (MONGO_URI : option string)
                   (mongoose_connect : string -> bool)
                   (this : DatabaseConnection)
  : outcome DatabaseConnection :=
  match MONGO_URI with
  | None => Exited 1
  | Some uri =>
      if negb (truthy_string uri) then Exited 1
      else
        let mongoUri := stripQuotes uri in
        if mongoose_connect mongoUri
        then Returned (mkConnection true (Some mongoUri))
        else Exited 1
  end.

(** The listener of the ['disconnected'] event. *)
Definition onDisconnected (this : DatabaseConnection) : DatabaseConnection :=
  mkConnection false (connection this).

Definition disconnect (this : DatabaseConnection) : DatabaseConnection :=
  if isConnected this then mkConnection false (connection this) else this.

Definition getStatus (this : DatabaseConnection) : bool := isConnected this.

Definition getConnection (this : DatabaseConnection) : option string :=
  connection this.

End connection.

(* ------------------------------------------------------------------ *)
(** ** The seed script *)

Module seed.

Definition sample (n : string) (a : Q) (foods : list string) (e : string)
                  (active : bool) : PersonInit :=
  mkInit (Val n) (Val a) (Some foods) (Val e) (Some active).

Definition samplePeople : list PersonInit :=
  [ sample "John Smith" 28 ["pizza"; "burgers"; "pasta"]
           "john.smith@example.com" true;
    sample "Emma Johnson" 32 ["sushi"; "salad"; "burrito"]
           "emma.johnson@example.com" true;
    sample "Michael Brown" 45 ["steak"; "potatoes"; "burrito"]
           "michael.brown@example.com" true;
    sample "Sarah Davis" 22 ["tacos"; "ice cream"; "pizza"]
           "sarah.davis@example.com" true;
    sample "Robert Wilson" 38 ["chicken"; "rice"; "vegetables"]
           "robert.wilson@example.com" false;
    sample "Mary Thompson" 29 ["pasta"; "wine"; "cheese"]
           "mary.thompson@example.com" true;
    sample "David Miller" 51 ["seafood"; "soup"; "bread"]
           "david.miller@example.com" true;
    sample "Lisa Anderson" 26 ["burrito"; "nachos"; "guacamole"]
           "lisa.anderson@example.com" true;
    sample "James Taylor" 33 ["bbq"; "corn"; "beans"]
           "james.taylor@example.com" true;
    sample "Mary Johnson" 41 ["soup"; "sandwich"; "fruit"]
           "mary.johnson@example.com" true ].

(** Clears the collection, then inserts the sample people. *)
Definition seedDatabase (sched : list nat) (w : world)
  : result (list person) * world :=
  let (_, w1) := Person.deleteMany Person.everyone w in
  Person.create sched samplePeople w1.

(** The script as a whole: connect, seed, run the sample queries (which
    read only), disconnect and leave with code 0; an error leaves with
    code 1. *)
Definition script (sched : list nat) (MONGO_URI : option string)
                  (mongoose_connect : string -> bool)
                  (database : connection.DatabaseConnection) (w : world)
  : nat * connection.DatabaseConnection * world :=
  match connection.connect MONGO_URI mongoose_connect database with
  | connection.Exited code => (code, database, w)
  | connection.Returned connected =>
      match seedDatabase sched w with
      | (Resolved _, w') => (0, connection.disconnect connected, w')
      | (Rejected _, w') => (1, connected, w')
      end
  end.

End seed.

(* ------------------------------------------------------------------ *)
(** ** The demonstration driver *)

Module index.
Import personService.

(** An awaited call: a rejection ends the sequence. *)
Definition await {A B} (m : world -> result A * world)
                 (k : A -> world -> result B * world)
                 (w : world) : result B * world :=
  match m w with
  | (Resolved a, w') => k a w'
  | (Rejected e, w') => (Rejected e, w')
  end.

Definition query {A} (f : world -> result A) (w : world)
  : result A * world := (f w, w).

Notation "x <- m ;; k" := (await m (fun x => k))
  (at level 61, m at next level, right associativity).

Definition johnDoe : PersonData :=
  mkData (Val "John Doe") (AgeNumber 30) (Some ["pizza"; "pasta"])
         (Val "john@example.com") None.

Definition fivePeople : list PersonInit :=
  [ mkInit (Val "Jane Smith") (Val 25%Q) (Some ["sushi"; "salad"])
           (Val "jane@example.com") None;
    mkInit (Val "Bob Johnson") (Val 35%Q) (Some ["burger"; "fries"; "burrito"])
           (Val "bob@example.com") None;
    mkInit (Val "Alice Brown") (Val 28%Q) (Some ["tacos"; "burrito"; "nachos"])
           (Val "alice@example.com") None;
    mkInit (Val "Mary Wilson") (Val 40%Q) (Some ["steak"; "potatoes"])
           (Val "mary@example.com") None;
    mkInit (Val "Mary Johnson") (Val 32%Q) (Some ["salad"; "yogurt"])
           Undefined None ].

Definition tempPerson : PersonData :=
  mkData (Val "Temp Person") (AgeNumber 99) (Some ["test food"])
         Undefined None.

(** The operations in the order the driver runs them; the value is what
    the classic update of step 6 gave and the statistics. *)
Definition demonstrateAllOperations (lib : release) (sched : list nat)
  : world -> result (person * Stats) * world :=
  person1 <- createAndSavePerson johnDoe ;;
  _ <- createManyPeople sched fivePeople ;;
  _ <- query (findPeopleByName "John Doe") ;;
  _ <- query (findOneByFood "pizza") ;;
  _ <- query (findPersonById (Some (_id person1))) ;;
  updatedPerson <- addHamburgerToFavorites (Some (_id person1)) ;;
  _ <- findOneAndUpdateAge "Jane Smith" (Val 26%Q) ;;
  temp <- createAndSavePerson tempPerson ;;
  _ <- deletePersonById (Some (_id temp)) ;;
  _ <- deleteManyByName "Mary" ;;
  _ <- query (findBurritoLovers lib None) ;;
  stats <- query (fun w => Resolved (getStats w)) ;;
  _ <- query getAllPeople ;;
  (fun w => (Resolved (updatedPerson, stats), w)).

(** [main]: connect, then run the operations; the value is the exit code
    with which the process is ended, or [None] when [main] returns. *)
Definition main (lib : release) (sched : list nat)
                (MONGO_URI : option string)
                (mongoose_connect : string -> bool)
                (database : connection.DatabaseConnection) (w : world)
  : option nat * world :=
  match connection.connect MONGO_URI mongoose_connect database with
  | connection.Exited code => (Some code, w)
  | connection.Returned _ =>
      match demonstrateAllOperations lib sched w with
      | (Resolved _, w') => (None, w')
      | (Rejected _, w') => (Some 1, w')
      end
  end.

End index.

(* ------------------------------------------------------------------ *)
(** ** Vocabulary of the properties *)

(** Every character class of [r] lies within [p]. *)
Fixpoint classes_within (p : ascii -> bool) (r : RegExp.re) : Prop :=
  match r with
  | RegExp.Never | RegExp.Eps => True
  | RegExp.Class q => forall c, q c = true -> p c = true
  | RegExp.Cat a b | RegExp.Alt a b => classes_within p a /\ classes_within p b
  | RegExp.Star a => classes_within p a
  end.

(** The strings a regular expression denotes. *)
Inductive matches : RegExp.re -> string -> Prop :=
| matches_eps : matches RegExp.Eps ""
| matches_class : forall (q : ascii -> bool) c,
    q c = true -> matches (RegExp.Class q) (String c "")
| matches_cat : forall a b s t,
    matches a s -> matches b t -> matches (RegExp.Cat a b) (s ++ t)
| matches_alt_l : forall a b s, matches a s -> matches (RegExp.Alt a b) s
| matches_alt_r : forall a b s, matches b s -> matches (RegExp.Alt a b) s
| matches_star_nil : forall a, matches (RegExp.Star a) ""
| matches_star_cons : forall a s t,
    matches a s -> matches (RegExp.Star a) t ->
    matches (RegExp.Star a) (s ++ t).

(** Ascending order of names, as a relation. *)
Definition name_le (a b : person) : Prop := Query.name_leb a b = true.

(** What a projection on [name] and [favoriteFoods] leaves of a record. *)
Definition name_and_favoriteFoods (p : person) : Query.document :=
  ([("_id", Query.BObjectId (_id p))]
   ++ match name p with
      | Some s => [("name", Query.BString s)]
      | None => []
      end
   ++ [("favoriteFoods", Query.BArray (favoriteFoods p))])%list.

(** What an exclusion of [age] alone leaves of a record. *)
Definition without_age (p : person) : Query.document :=
  ([("_id", Query.BObjectId (_id p))]
   ++ match name p with
      | Some s => [("name", Query.BString s)]
      | None => []
      end
   ++ [("favoriteFoods", Query.BArray (favoriteFoods p))]
   ++ match email p with
      | Undefined => []
      | Null => [("email", Query.BNull)]
      | Val s => [("email", Query.BString s)]
      end
   ++ [("createdAt", Query.BDate (createdAt p));
       ("updatedAt", Query.BDate (updatedAt p));
       ("isActive", Query.BBool (isActive p))])%list.

(** A document with no field besides [_id], [name] and [favoriteFoods]. *)
Definition only_name_and_favoriteFoods (d : Query.document) : Prop :=
  forall key, In key (map fst d) ->
              key = "_id" \/ key = "name" \/ key = "favoriteFoods".

(** No two documents of [l] share an entry of the email index. *)
Fixpoint distinct_emails (l : list person) : Prop :=
  match l with
  | [] => True
  | p :: l' =>
      (forall q, In q l' -> same_email_key (email p) (email q) = false)
      /\ distinct_emails l'
  end.

(** Every stored [_id] was drawn from the generator already. *)
Definition ids_below (w : world) : Prop :=
  forall q, In q (docs w) -> _id q < next_id w.

(** The arithmetic mean of a list of numbers, 0 for the empty list. *)
Definition mean (l : list Q) : Q :=
  match l with
  | [] => 0%Q
  | _ => (Person.Qsum l / inject_Z (Z.of_nat (List.length l)))%Q
  end.

(** One call that may change the collection, or the passing of time. *)
Inductive step : world -> world -> Prop :=
| step_createAndSavePerson : forall pd w,
    step w (snd (personService.createAndSavePerson pd w))
| step_createManyPeople : forall sched l w,
    step w (snd (personService.createManyPeople sched l w))
| step_updatePersonClassic : forall i u w,
    step w (snd (personService.updatePersonClassic i u w))
| step_addHamburgerToFavorites : forall i w,
    step w (snd (personService.addHamburgerToFavorites i w))
| step_findOneAndUpdateAge : forall n a w,
    step w (snd (personService.findOneAndUpdateAge n a w))
| step_deletePersonById : forall i w,
    step w (snd (personService.deletePersonById i w))
| step_deleteManyByName : forall n w,
    step w (snd (personService.deleteManyByName n w))
| step_seedDatabase : forall sched w,
    step w (snd (seed.seedDatabase sched w))
| step_addFavoriteFood : forall i p food w,
    Person.findById i w = Some p ->
    step w (snd (Person.addFavoriteFood false p food w))
| step_removeFavoriteFood : forall i p food w,
    Person.findById i w = Some p ->
    step w (snd (Person.removeFavoriteFood false p food w))
| step_tick : forall w t,
    clock w <= t -> step w (mkWorld (docs w) (next_id w) t).

(** The worlds the operations can produce from an empty collection. *)
Inductive reachable : world -> Prop :=
| reachable_empty : reachable empty_world
| reachable_step : forall w w', reachable w -> step w w' -> reachable w'.

(** The email of [p'] is free for the document stored under [i]: it is the
    email that document has, or no other document holds its index entry. *)
Definition email_free (i : ObjectId) (stored p' : person) (w : world) : bool :=
  (field_eqb (email stored) (email p')
   || negb (existsb (fun q => same_email_key (email q) (email p'))
                    (remove_first (has_id i) (docs w))))%bool.

(** [distinct_emails] as a test. *)
Fixpoint distinct_emailsb (l : list person) : bool :=
  match l with
  | [] => true
  | p :: l' =>
      (negb (existsb (fun q => same_email_key (email p) (email q)) l')
       && distinct_emailsb l')%bool
  end.

(** The documents [Person.create] builds from a list of objects when the
    first [_id] drawn is [i] and the time is [t]. *)
Fixpoint built (l : list PersonInit) (i : ObjectId) (t : Date) : list person :=
  match l with
  | [] => []
  | d :: l' =>
      with_updatedAt t (fst (Person.new d (mkWorld [] i t))) :: built l' (S i) t
  end.

(** The documents of one [Person.create], each with the index of its
    element, in the order in which their saves arrive. *)
Definition arrivals (sched : list nat) (l : list PersonInit) (w : world)
  : list (nat * person) :=
  let ps := built l (next_id w) (clock w) in
  Person.arrival sched (combine (seq 0 (List.length ps)) ps).

(** A record as the schema wants it, created no later than it was last
    written, and last written no later than [now]. *)
Definition record_ok (now : Date) (q : person) : Prop :=
  Schema.is_valid q = true /\ createdAt q <= updatedAt q /\ updatedAt q <= now.

(** The strings of a record are what their setters leave unchanged. *)
Definition normalised (q : person) : Prop :=
  (forall s, name q = Some s -> trim s = s)
  /\ (forall s, email q = Val s -> Schema.set_email s = s)
  /\ (forall f, In f (favoriteFoods q) -> trim f = f).

(** What every operation keeps of the collection. *)
Definition well_formed (w : world) : Prop :=
  ids_below w
  /\ NoDup (map _id (docs w))
  /\ forall q, In q (docs w) -> record_ok (clock w) q /\ normalised q.

(** The entries of the email index the driver needs free: the emails of
    the people it inserts, and [null] for its temporary record. *)
Definition driver_emails : list (field string) :=
  [ Val "john@example.com"; Val "jane@example.com"; Val "bob@example.com";
    Val "alice@example.com"; Val "mary@example.com"; Null ].

Definition driver_can_insert (w : world) : bool :=
  forallb (fun q => negb (existsb (same_email_key (email q)) driver_emails))
          (docs w).

(** The first character, if any, is no white space. *)
Definition starts_clean (s : string) : bool :=
  match s with
  | EmptyString => true
  | String c _ => negb (isSpace c)
  end.

(* ================================================================== *)
(** * Properties *)

Section Strings.

Lemma digit_not_space : forall c, isDigit c = true -> isSpace c = false.
Proof.
  intros [[] [] [] [] [] [] [] []]; vm_compute; congruence.
Qed.

Lemma digit_not_nameChar :
  forall c, isDigit c = true -> Schema.nameChar c = false.
Proof.
  intros [[] [] [] [] [] [] [] []]; vm_compute; congruence.
Qed.

Lemma trimStart_length : forall s, String.length (trimStart s) <= String.length s.
Proof.
  induction s as [|c s IH]; simpl; [lia|].
  destruct (isSpace c); simpl; lia.
Qed.

Lemma trimEnd_length : forall s, String.length (trimEnd s) <= String.length s.
Proof.
  induction s as [|c s IH]; simpl; [lia|].
  destruct (trimEnd s); [destruct (isSpace c)|]; simpl in *; lia.
Qed.

Lemma trim_length : forall s, String.length (trim s) <= String.length s.
Proof.
  intros s. unfold trim.
  pose proof (trimEnd_length (trimStart s)).
  pose proof (trimStart_length s). lia.
Qed.

Variable p : ascii -> bool.
Hypothesis p_not_space : forall c, p c = true -> isSpace c = false.

Lemma some_char_trimStart :
  forall s, some_char p (trimStart s) = some_char p s.
Proof.
  induction s as [|c s IH]; simpl; [reflexivity|].
  destruct (isSpace c) eqn:E; simpl; [|reflexivity].
  rewrite IH. destruct (p c) eqn:P; [|reflexivity].
  apply p_not_space in P. congruence.
Qed.

Lemma some_char_trimEnd :
  forall s, some_char p (trimEnd s) = some_char p s.
Proof.
  induction s as [|c s IH]; simpl; [reflexivity|].
  rewrite <- IH.
  destruct (trimEnd s) eqn:T; simpl; [|reflexivity].
  destruct (isSpace c) eqn:E; simpl; [|reflexivity].
  destruct (p c) eqn:P; [|reflexivity].
  apply p_not_space in P. congruence.
Qed.

Lemma some_char_trim : forall s, some_char p (trim s) = some_char p s.
Proof.
  intros s. unfold trim.
  now rewrite some_char_trimEnd, some_char_trimStart.
Qed.

End Strings.

Section RegularExpressions.
Import RegExp.

Lemma test_Never : forall s, test Never s = false.
Proof. induction s; simpl; auto. Qed.

Variable p : ascii -> bool.

Lemma classes_within_cat :
  forall a b, classes_within p a -> classes_within p b ->
              classes_within p (cat a b).
Proof.
  intros a b Ha Hb.
  destruct a, b; simpl in *; auto.
Qed.

Lemma classes_within_alt :
  forall a b, classes_within p a -> classes_within p b ->
              classes_within p (alt a b).
Proof.
  intros a b Ha Hb.
  destruct a, b; simpl in *; auto.
Qed.

Lemma classes_within_deriv :
  forall c r, classes_within p r -> classes_within p (deriv c r).
Proof.
  induction r as [| |q|a IHa b IHb|a IHa b IHb|a IHa]; simpl; intros H; auto.
  - destruct (q c); simpl; auto.
  - destruct H as [Ha Hb].
    destruct (nullable a).
    + apply classes_within_alt; auto. apply classes_within_cat; auto.
    + apply classes_within_cat; auto.
  - destruct H as [Ha Hb]. apply classes_within_alt; auto.
  - apply classes_within_cat; simpl; auto.
Qed.

(** A character outside [p] leaves nothing to match. *)
Lemma deriv_outside :
  forall c r, classes_within p r -> p c = false -> deriv c r = Never.
Proof.
  intros c r H Hc.
  induction r as [| |q|a IHa b IHb|a IHa b IHb|a IHa]; simpl in *; auto.
  - destruct (q c) eqn:Q; auto. apply H in Q. congruence.
  - destruct H as [Ha Hb]. rewrite (IHa Ha), (IHb Hb).
    destruct (nullable a); reflexivity.
  - destruct H as [Ha Hb]. rewrite (IHa Ha), (IHb Hb). reflexivity.
  - rewrite (IHa H). reflexivity.
Qed.

(** A string the expression accepts is made of characters of its classes. *)
Lemma test_within :
  forall s r, classes_within p r -> test r s = true -> all_chars p s = true.
Proof.
  induction s as [|c s IH]; simpl; intros r H T; [reflexivity|].
  destruct (p c) eqn:Hc; simpl.
  - apply (IH (deriv c r)); auto using classes_within_deriv.
  - rewrite (deriv_outside c r H Hc), test_Never in T. discriminate.
Qed.

Lemma classes_within_AtMost :
  forall n r, classes_within p r -> classes_within p (AtMost n r).
Proof. induction n; simpl; auto. Qed.

Lemma classes_within_Repeat :
  forall lo n r, classes_within p r -> classes_within p (Repeat lo n r).
Proof.
  induction lo; simpl; auto using classes_within_AtMost.
Qed.

Lemma all_chars_some_char :
  forall (q : ascii -> bool) s,
    (forall c, q c = true -> p c = false) ->
    some_char q s = true -> all_chars p s = false.
Proof.
  intros q s Hq. induction s as [|c s IH]; simpl; intros H; [discriminate|].
  destruct (q c) eqn:Q.
  - rewrite (Hq c Q). reflexivity.
  - simpl in H. rewrite (IH H). apply andb_false_r.
Qed.

End RegularExpressions.

Section Matcher.
Import RegExp.

Lemma append_empty : forall s t : string, (s ++ t)%string = "" -> s = "" /\ t = "".
Proof. intros [|c s] t; simpl; intros H; [auto|discriminate]. Qed.

Lemma nullable_matches : forall r, nullable r = true <-> matches r "".
Proof.
  intros r. split.
  - induction r as [| |q|a IHa b IHb|a IHa b IHb|a IHa]; simpl; intros H;
      try discriminate.
    + constructor.
    + apply andb_true_iff in H. destruct H as [Ha Hb].
      change "" with ("" ++ "")%string. constructor; auto.
    + apply orb_true_iff in H.
      destruct H as [H|H]; [apply matches_alt_l|apply matches_alt_r]; auto.
    + constructor.
  - intros H. remember "" as s eqn:E.
    induction H as [|q c Q|a b s t Ha IHa Hb IHb|a b s Ha IHa|a b s Hb IHb
                    |a|a s t Ha IHa Hs IHs]; simpl; auto; try discriminate.
    + apply append_empty in E. destruct E as [-> ->].
      now rewrite IHa, IHb.
    + now rewrite IHa.
    + rewrite IHb; auto. apply orb_true_r.
Qed.

Lemma matches_Never : forall s, ~ matches Never s.
Proof. intros s H. inversion H. Qed.

Lemma matches_Eps : forall s, matches Eps s -> s = "".
Proof. intros s H. now inversion H. Qed.

Lemma matches_Cat_inv :
  forall a b s,
    matches (Cat a b) s ->
    exists s1 s2, s = (s1 ++ s2)%string /\ matches a s1 /\ matches b s2.
Proof. intros a b s H. inversion H; subst. eauto. Qed.

Lemma matches_Alt_inv :
  forall a b s, matches (Alt a b) s -> matches a s \/ matches b s.
Proof. intros a b s H. inversion H; subst; auto. Qed.

Lemma cat_matches : forall a b s, matches (cat a b) s <-> matches (Cat a b) s.
Proof.
  intros a b s. split.
  - destruct a, b; simpl; intros H; auto;
      try (now apply matches_Never in H);
      change s with ("" ++ s)%string; constructor; auto; constructor.
  - intros H. apply matches_Cat_inv in H.
    destruct H as (s1 & s2 & -> & Ha & Hb).
    destruct a, b; simpl;
      try (now apply matches_Never in Ha);
      try (now apply matches_Never in Hb);
      try (constructor; assumption);
      apply matches_Eps in Ha; subst s1; exact Hb.
Qed.

Lemma alt_matches : forall a b s, matches (alt a b) s <-> matches (Alt a b) s.
Proof.
  intros a b s. split.
  - destruct a, b; simpl; intros H; auto;
      try (now apply matches_alt_r); try (now apply matches_alt_l).
  - intros H. apply matches_Alt_inv in H.
    destruct H as [H|H]; destruct a, b; simpl;
      try (now apply matches_Never in H);
      try exact H;
      try (now apply matches_alt_l); try (now apply matches_alt_r).
Qed.

(** A non-empty string of a star starts with a non-empty round. *)
Lemma matches_Star_cons_inv :
  forall a c s,
    matches (Star a) (String c s) ->
    exists s1 s2,
      s = (s1 ++ s2)%string /\ matches a (String c s1) /\ matches (Star a) s2.
Proof.
  intros a c s H.
  remember (Star a) as r eqn:R. remember (String c s) as u eqn:U.
  induction H as [|q d Q|x y u t Hx IHx Hy IHy|x y u Hx IHx|x y u Hy IHy
                  |x|x u t Hx IHx Ht IHt]; try discriminate.
  inversion R; subst x. destruct u as [|d u]; simpl in U.
  - apply IHt; auto.
  - inversion U; subst. eauto.
Qed.

Lemma deriv_matches :
  forall c r s, matches (deriv c r) s <-> matches r (String c s).
Proof.
  intros c r.
  induction r as [| |q|a IHa b IHb|a IHa b IHb|a IHa]; intros s; simpl.
  - split; intros H; inversion H.
  - split; intros H; inversion H.
  - destruct (q c) eqn:Q; split; intros H.
    + apply matches_Eps in H. subst. now constructor.
    + inversion H; subst. constructor.
    + inversion H.
    + inversion H; subst. congruence.
  - assert (L : matches (cat (deriv c a) b) s
                -> matches (Cat a b) (String c s)).
    { intros H. apply cat_matches, matches_Cat_inv in H.
      destruct H as (s1 & s2 & -> & Ha & Hb). apply IHa in Ha.
      change (String c (s1 ++ s2)) with (String c s1 ++ s2)%string.
      now constructor. }
    assert (R : forall s1 s2,
               matches a (String c s1) -> matches b s2 ->
               matches (cat (deriv c a) b) (s1 ++ s2)).
    { intros s1 s2 Ha Hb. apply cat_matches. constructor; auto.
      now apply IHa. }
    split.
    + destruct (nullable a) eqn:N; [|exact L].
      intros H. apply alt_matches, matches_Alt_inv in H.
      destruct H as [H|H]; [now apply L|].
      apply IHb in H. change (String c s) with ("" ++ String c s)%string.
      constructor; auto. now apply nullable_matches.
    + intros H. apply matches_Cat_inv in H.
      destruct H as (s1 & s2 & E & Ha & Hb).
      destruct s1 as [|d s1]; simpl in E.
      * subst s2. apply nullable_matches in Ha. rewrite Ha.
        apply alt_matches, matches_alt_r. now apply IHb.
      * inversion E; subst d s.
        destruct (nullable a);
          [apply alt_matches, matches_alt_l|]; now apply R.
  - split; intros H.
    + apply alt_matches, matches_Alt_inv in H.
      destruct H as [H|H];
        [apply matches_alt_l, IHa|apply matches_alt_r, IHb]; exact H.
    + apply alt_matches. apply matches_Alt_inv in H.
      destruct H as [H|H];
        [apply matches_alt_l, IHa|apply matches_alt_r, IHb]; exact H.
  - split; intros H.
    + apply cat_matches, matches_Cat_inv in H.
      destruct H as (s1 & s2 & -> & Ha & Hs). apply IHa in Ha.
      change (String c (s1 ++ s2)) with (String c s1 ++ s2)%string.
      now constructor.
    + apply matches_Star_cons_inv in H.
      destruct H as (s1 & s2 & -> & Ha & Hs).
      apply cat_matches. constructor; auto. now apply IHa.
Qed.

(** The matcher decides the language of the expression. *)
Lemma test_matches : forall s r, test r s = true <-> matches r s.
Proof.
  induction s as [|c s IH]; intros r; simpl.
  - apply nullable_matches.
  - rewrite IH. apply deriv_matches.
Qed.

End Matcher.

Section NameValidator.

(** The name pattern accepts no string with a digit. *)
Lemma nameRegExp_no_digit :
  forall s, some_char isDigit s = true ->
            RegExp.test Schema.nameRegExp s = false.
Proof.
  intros s H.
  destruct (RegExp.test Schema.nameRegExp s) eqn:T; [|reflexivity].
  apply (test_within Schema.nameChar) in T.
  - rewrite (all_chars_some_char Schema.nameChar isDigit s
               digit_not_nameChar H) in T. discriminate.
  - apply classes_within_Repeat. simpl. auto.
Qed.

(** The schema refuses a name that is short or has a digit, trimmed or not. *)
Lemma valid_name_refuses :
  forall s, String.length s < 2 \/ some_char isDigit s = true ->
            Schema.valid_name (Some (Schema.set_name s)) = false.
Proof.
  intros s [H|H]; unfold Schema.valid_name, Schema.set_name.
  - pose proof (trim_length s) as L.
    replace (2 <=? String.length (trim s)) with false
      by (symmetry; apply Nat.leb_gt; lia).
    now rewrite andb_false_r.
  - rewrite nameRegExp_no_digit; [apply andb_false_r|].
    rewrite (some_char_trim isDigit digit_not_space). exact H.
Qed.

Lemma validate_name_fails :
  forall p, Schema.valid_name (name p) = false -> Schema.validate p <> [].
Proof.
  intros p H. unfold Schema.validate. rewrite H. simpl. discriminate.
Qed.

End NameValidator.

Section Saving.

Lemma food_paths_nil_iff :
  forall l i, Schema.food_paths i l = [] <-> forallb Schema.valid_food l = true.
Proof.
  induction l as [|s l IH]; intros i; simpl; [tauto|].
  unfold Schema.check. destruct (Schema.valid_food s); simpl.
  - apply IH.
  - split; discriminate.
Qed.

Lemma validate_nil_iff :
  forall p, Schema.validate p = [] <-> Schema.is_valid p = true.
Proof.
  intros p. unfold Schema.validate, Schema.is_valid, Schema.check,
    Schema.valid_favoriteFoods.
  pose proof (food_paths_nil_iff (favoriteFoods p) 0) as F.
  destruct (Schema.valid_name (name p)), (Schema.valid_age (age p)),
    (List.length (favoriteFoods p) <=? 20),
    (Schema.valid_email (email p)); cbn [app andb];
    try (split; discriminate).
  - rewrite app_nil_r, andb_true_r. exact F.
  - rewrite andb_false_r. split; [|discriminate].
    intros H. apply app_eq_nil in H. destruct H; discriminate.
Qed.

(** A food that is too short fails under the path of its element, a list
    that is too long under the path of the array. *)
Lemma validate_names_the_element :
  Schema.validate (mkPerson 0 (Some "John Doe") None ["pizza"; "x"]
                            Undefined 0 0 true)
  = ["favoriteFoods.1"]
  /\ Schema.validate (mkPerson 0 (Some "John Doe") None (repeat "pizza" 21)
                               Undefined 0 0 true)
     = ["favoriteFoods"].
Proof. split; vm_compute; reflexivity. Qed.

Lemma is_valid_name :
  forall p, Schema.is_valid p = true -> Schema.valid_name (name p) = true.
Proof.
  unfold Schema.is_valid. intros p H.
  destruct (Schema.valid_name (name p)); [reflexivity|discriminate].
Qed.

Lemma save_invalid :
  forall isNew p w, Schema.validate p <> [] ->
    Person.save isNew p w = (Rejected (ValidationError (Schema.validate p)), w).
Proof.
  intros isNew p w H. unfold Person.save.
  destruct (Schema.validate p); [congruence|reflexivity].
Qed.

(** A rejected save writes nothing. *)
Lemma save_rejected_same_world :
  forall isNew p w e w',
    Person.save isNew p w = (Rejected e, w') -> w' = w.
Proof.
  intros isNew p w e w'. unfold Person.save.
  destruct (Schema.validate p); [|congruence].
  destruct isNew.
  - destruct (violated_index _ _); congruence.
  - destruct (List.find _ _); [|congruence].
    destruct (_ && _)%bool; congruence.
Qed.

(** What a successful insert did. *)
Lemma save_new_resolved :
  forall p w p' w',
    Person.save true p w = (Resolved p', w') ->
    p' = with_updatedAt (clock w) p
    /\ w' = with_docs (docs w ++ [p']) w
    /\ Schema.is_valid p = true
    /\ violated_index (docs w) p' = None.
Proof.
  intros p w p' w'. unfold Person.save.
  destruct (Schema.validate p) eqn:V; [|congruence].
  destruct (violated_index _ _) eqn:X; [congruence|].
  intros H. inversion H; subst. repeat split; auto.
  now apply validate_nil_iff.
Qed.

Lemma save_new_accepted :
  forall p w,
    Schema.is_valid p = true ->
    violated_index (docs w) (with_updatedAt (clock w) p) = None ->
    Person.save true p w =
      (Resolved (with_updatedAt (clock w) p),
       with_docs (docs w ++ [with_updatedAt (clock w) p]) w).
Proof.
  intros p w V X. unfold Person.save.
  apply validate_nil_iff in V. now rewrite V, X.
Qed.

(** The schedule only reorders. *)
Lemma insert_at_perm :
  forall (A : Type) k (x : A) l, Permutation (x :: l) (Person.insert_at k x l).
Proof.
  intros A. induction k as [|k IH]; intros x [|y l]; simpl; auto.
  apply perm_trans with (y :: x :: l); [apply perm_swap|].
  apply perm_skip, IH.
Qed.

Lemma arrival_perm :
  forall (A : Type) sched (l : list A), Permutation l (Person.arrival sched l).
Proof.
  intros A sched l. revert sched.
  induction l as [|x l IH]; intros sched; simpl; [constructor|].
  apply perm_trans with (x :: Person.arrival (tl sched) l);
    [apply perm_skip, IH|apply insert_at_perm].
Qed.

Lemma arrival_in :
  forall (A : Type) sched (l : list A) x,
    In x (Person.arrival sched l) <-> In x l.
Proof.
  intros A sched l x. split; apply Permutation_in;
    [apply Permutation_sym|]; apply arrival_perm.
Qed.

Lemma arrival_length :
  forall (A : Type) sched (l : list A),
    List.length (Person.arrival sched l) = List.length l.
Proof.
  intros A sched l. symmetry. apply Permutation_length, arrival_perm.
Qed.

(** The empty schedule is the order of the array. *)
Lemma arrival_in_order :
  forall (A : Type) (l : list A), Person.arrival [] l = l.
Proof.
  intros A. induction l as [|x l IH]; simpl; [reflexivity|].
  now rewrite IH.
Qed.

Lemma insert_at_map :
  forall (A B : Type) (f : A -> B) k x l,
    Person.insert_at k (f x) (map f l) = map f (Person.insert_at k x l).
Proof.
  intros A B f. induction k as [|k IH]; intros x [|y l]; simpl; auto.
  now rewrite IH.
Qed.

Lemma arrival_map :
  forall (A B : Type) (f : A -> B) sched l,
    Person.arrival sched (map f l) = map f (Person.arrival sched l).
Proof.
  intros A B f sched l. revert sched.
  induction l as [|x l IH]; intros sched; simpl; [reflexivity|].
  now rewrite IH, insert_at_map.
Qed.

Lemma insert_at_middle :
  forall (A : Type) (x : A) l1 l2,
    Person.insert_at (List.length l1) x (l1 ++ l2) = (l1 ++ x :: l2)%list.
Proof.
  intros A x. induction l1 as [|y l1 IH]; intros l2; simpl.
  - now destruct l2.
  - now rewrite IH.
Qed.

(** Every order is the order of some schedule. *)
Lemma arrival_complete :
  forall (A : Type) (l l' : list A),
    Permutation l l' -> exists sched, Person.arrival sched l = l'.
Proof.
  intros A. induction l as [|x l IH]; intros l' P.
  - apply Permutation_nil in P. subst. now exists [].
  - assert (I : In x l') by (apply (Permutation_in _ P); now left).
    apply in_split in I. destruct I as (l1 & l2 & ->).
    apply Permutation_cons_app_inv in P.
    destruct (IH _ P) as [sched E].
    exists (List.length l1 :: sched). simpl. rewrite E.
    apply insert_at_middle.
Qed.

(** [Person.create] builds its documents with the next ids, in the order
    of the array. *)
Lemma new_each_built :
  forall l w,
    Person.new_each l w
    = (built l (next_id w) (clock w),
       mkWorld (docs w) (next_id w + List.length l) (clock w)).
Proof.
  induction l as [|d l IH]; intros w.
  - simpl. rewrite Nat.add_0_r. now destruct w.
  - cbn [Person.new_each built]. unfold Person.new at 1.
    rewrite IH. cbn [docs next_id clock List.length].
    rewrite Nat.add_succ_r. reflexivity.
Qed.

Lemma create_arrivals :
  forall sched l w,
    Person.create sched l w
    = (let rsw := Person.save_each
                    (arrivals sched l w)
                    (mkWorld (docs w) (next_id w + List.length l) (clock w)) in
       match Person.first_error (fst rsw) with
       | Some e => (Rejected e, snd rsw)
       | None =>
           (Resolved
              (flat_map (Person.saved_at (fst rsw))
                        (seq 0 (List.length
                                  (built l (next_id w) (clock w))))),
            snd rsw)
       end).
Proof.
  intros sched l w. unfold Person.create, arrivals.
  rewrite new_each_built. cbv zeta.
  destruct (Person.save_each _ _) as [rs w']. reflexivity.
Qed.

Lemma built_length :
  forall l i t, List.length (built l i t) = List.length l.
Proof.
  induction l as [|d l IH]; intros i t; simpl; [reflexivity|].
  now rewrite IH.
Qed.

(** The document built for an element of the array. *)
Lemma built_in :
  forall l i t d,
    In d l ->
    exists p,
      In p (built l i t)
      /\ name p = match init_name d with
                  | Val s => Some (Schema.set_name s)
                  | _ => None
                  end
      /\ email p = map_field Schema.set_email (init_email d).
Proof.
  induction l as [|d0 l IH]; intros i t d I; [destruct I|].
  destruct I as [->|I].
  - eexists. split; [left; reflexivity|]. split; reflexivity.
  - destruct (IH (S i) t d I) as (p & Ip & N & E).
    exists p. split; [right; exact Ip|]. split; assumption.
Qed.

Lemma in_numbered :
  forall (ps : list person) a p,
    In p ps -> exists i, In (i, p) (combine (seq a (List.length ps)) ps).
Proof.
  induction ps as [|q ps IH]; intros a p I; [destruct I|].
  destruct I as [->|I].
  - exists a. now left.
  - destruct (IH (S a) p I) as [i Hi]. exists i. now right.
Qed.

Lemma numbered_in :
  forall (ps : list person) a i p,
    In (i, p) (combine (seq a (List.length ps)) ps) -> In p ps.
Proof.
  intros ps a i p I. apply in_combine_r in I. exact I.
Qed.

Lemma numbered_snd :
  forall (ps : list person) a,
    map snd (combine (seq a (List.length ps)) ps) = ps.
Proof.
  induction ps as [|q ps IH]; intros a; simpl; [reflexivity|].
  now rewrite IH.
Qed.

Lemma numbered_fst :
  forall (ps : list person) a,
    map fst (combine (seq a (List.length ps)) ps) = seq a (List.length ps).
Proof.
  induction ps as [|q ps IH]; intros a; simpl; [reflexivity|].
  now rewrite IH.
Qed.

(** The documents that arrive are the documents that were built. *)
Lemma arrivals_in :
  forall sched l w i p,
    In (i, p) (arrivals sched l w) -> In p (built l (next_id w) (clock w)).
Proof.
  intros sched l w i p I. unfold arrivals in I.
  apply arrival_in in I. now apply numbered_in in I.
Qed.

Lemma in_arrivals :
  forall sched l w p,
    In p (built l (next_id w) (clock w)) ->
    exists i, In (i, p) (arrivals sched l w).
Proof.
  intros sched l w p I. destruct (in_numbered _ 0 p I) as [i Hi].
  exists i. unfold arrivals. now apply arrival_in.
Qed.

Lemma arrivals_snd :
  forall sched l w,
    map snd (arrivals sched l w)
    = Person.arrival sched (built l (next_id w) (clock w)).
Proof.
  intros sched l w. unfold arrivals.
  now rewrite <- arrival_map, numbered_snd.
Qed.

(** The saves append what they stored, and store valid documents only. *)
Lemma save_each_docs :
  forall l w,
    docs (snd (Person.save_each l w))
    = (docs w ++ Person.saved (fst (Person.save_each l w)))%list.
Proof.
  induction l as [|[i p] l IH]; intros w; simpl.
  - now rewrite app_nil_r.
  - destruct (Person.save true p w) as [r w2] eqn:S.
    specialize (IH w2).
    destruct (Person.save_each l w2) as [rs w3]. simpl in *.
    rewrite IH. destruct r as [p'|e].
    + apply save_new_resolved in S. destruct S as (_ & -> & _).
      simpl. now rewrite <- app_assoc.
    + apply save_rejected_same_world in S. now subst.
Qed.

Lemma save_each_saved_valid :
  forall l w p,
    In p (Person.saved (fst (Person.save_each l w))) ->
    Schema.is_valid p = true.
Proof.
  induction l as [|[i q] l IH]; intros w p; simpl; [tauto|].
  destruct (Person.save true q w) as [r w2] eqn:S.
  specialize (IH w2 p).
  destruct (Person.save_each l w2) as [rs w3]. simpl in *.
  destruct r as [p'|e]; simpl; auto.
  intros [<-|H]; auto.
  apply save_new_resolved in S. destruct S as (-> & _ & V & _).
  exact V.
Qed.

(** What is stored of a batch was built for it and saved. *)
Lemma save_each_saved_from :
  forall l w p,
    In p (Person.saved (fst (Person.save_each l w))) ->
    exists i q, In (i, q) l /\ p = with_updatedAt (clock w) q.
Proof.
  induction l as [|[i q] l IH]; intros w p; simpl; [tauto|].
  destruct (Person.save true q w) as [r w2] eqn:S.
  specialize (IH w2 p).
  destruct (Person.save_each l w2) as [rs w3]. simpl in *.
  assert (C : clock w2 = clock w).
  { destruct r as [p'|e].
    - apply save_new_resolved in S. destruct S as (_ & -> & _). reflexivity.
    - apply save_rejected_same_world in S. now subst. }
  rewrite C in IH.
  assert (Later : In p (Person.saved rs) ->
                  exists i0 q0, ((i, q) = (i0, q0) \/ In (i0, q0) l)
                                /\ p = with_updatedAt (clock w) q0).
  { intros H. destruct (IH H) as (i0 & q0 & I0 & E0).
    exists i0, q0. split; [now right|exact E0]. }
  destruct r as [p'|e]; simpl; auto.
  intros [<-|H]; auto.
  apply save_new_resolved in S. destruct S as (-> & _).
  exists i, q. split; [now left|reflexivity].
Qed.

Lemma save_each_invalid :
  forall l w i p,
    In (i, p) l -> Schema.is_valid p = false ->
    Person.first_error (fst (Person.save_each l w)) <> None.
Proof.
  induction l as [|[j q] l IH]; intros w i p I B; [destruct I|].
  simpl.
  destruct (Person.save true q w) as [r w2] eqn:S.
  pose proof (IH w2 i p) as IH'.
  destruct (Person.save_each l w2) as [rs w3]. simpl fst in *.
  destruct r as [p'|e]; simpl; [|discriminate].
  destruct I as [I|I]; [|now apply IH'].
  inversion I; subst j q.
  apply save_new_resolved in S. destruct S as (_ & _ & V & _). congruence.
Qed.

Lemma create_bad_name :
  forall sched l w d s,
    In d l -> init_name d = Val s ->
    Schema.valid_name (Some (Schema.set_name s)) = false ->
    forall w1,
      Person.first_error (fst (Person.save_each (arrivals sched l w) w1))
      <> None.
Proof.
  intros sched l w d s I N B w1.
  destruct (built_in l (next_id w) (clock w) d I) as (p & Ip & Np & _).
  destruct (in_arrivals sched l w p Ip) as [i Hi].
  apply (save_each_invalid _ w1 i p Hi).
  unfold Schema.is_valid. rewrite Np, N, B. reflexivity.
Qed.

End Saving.

(** C6.  An insert whose name has fewer than two characters or contains a
    digit is rejected and persists nothing: [createAndSavePerson] rejects
    and leaves the collection as it was, and [createManyPeople] rejects a
    batch with such an element, every document it did add having a name
    the schema accepts. *)
Theorem insert_with_bad_name_is_rejected :
  forall (s : string),
    String.length s < 2 \/ some_char isDigit s = true ->
    (forall pd w,
        personService.pd_name pd = Val s ->
        is_rejected (fst (personService.createAndSavePerson pd w)) = true
        /\ docs (snd (personService.createAndSavePerson pd w)) = docs w)
    /\ (forall sched l d w,
           In d l -> init_name d = Val s ->
           is_rejected (fst (personService.createManyPeople sched l w)) = true
           /\ forall p,
               In p (docs (snd (personService.createManyPeople sched l w))) ->
               In p (docs w) \/ Schema.valid_name (name p) = true).
Proof.
  intros s B. pose proof (valid_name_refuses s B) as R. split.
  - intros pd w N. unfold personService.createAndSavePerson.
    destruct (negb _); [split; reflexivity|].
    unfold Person.new. rewrite save_invalid.
    + split; reflexivity.
    + apply validate_name_fails. simpl. now rewrite N.
  - intros sched l d w I N. unfold personService.createManyPeople.
    destruct l as [|d0 l]; [destruct I|].
    rewrite create_arrivals. cbv zeta.
    match goal with
    | |- context [Person.save_each ?a ?w1] =>
        pose proof (create_bad_name sched (d0 :: l) w d s I N R w1) as E;
        pose proof (save_each_docs a w1) as D;
        pose proof (save_each_saved_valid a w1) as V;
        destruct (Person.save_each a w1) as [rs w']
    end.
    cbn [fst snd docs] in *.
    destruct (Person.first_error rs); [|congruence].
    simpl. split; [reflexivity|].
    intros p Hp. rewrite D in Hp. apply in_app_or in Hp.
    destruct Hp as [Hp|Hp]; [now left|right].
    now apply is_valid_name, V.
Qed.

(** The name "R2" has a digit: neither insert keeps it. *)
Lemma insert_with_bad_name_is_rejected_witness :
  let pd := personService.mkData (Val "R2") personService.AgeUndefined
                                 None Undefined None in
  let d := mkInit (Val "R2") Undefined None Undefined None in
  (is_rejected (fst (personService.createAndSavePerson pd empty_world)) = true
   /\ docs (snd (personService.createAndSavePerson pd empty_world)) = [])
  /\ is_rejected (fst (personService.createManyPeople [] [d] empty_world))
     = true.
Proof.
  intros pd d.
  destruct (insert_with_bad_name_is_rejected "R2" (or_intror eq_refl))
    as [One Many].
  split.
  - apply (One pd empty_world). reflexivity.
  - apply (Many [] [d] d empty_world); [left|]; reflexivity.
Defined.

Section Updating.
Import personService.

Lemma find_has_id :
  forall i l p, List.find (has_id i) l = Some p -> _id p = i /\ In p l.
Proof.
  intros i l p H. apply find_some in H. destruct H as [I E].
  split; [now apply Nat.eqb_eq|exact I].
Qed.

Lemma find_replace_first :
  forall f p' l p,
    List.find f l = Some p -> f p' = true ->
    List.find f (replace_first f p' l) = Some p'.
Proof.
  intros f p' l p H F. induction l as [|q l IH]; simpl in *; [discriminate|].
  destruct (f q) eqn:Q; simpl.
  - now rewrite F.
  - rewrite Q. auto.
Qed.

Lemma applyUpdates_id : forall u p, _id (applyUpdates u p) = _id p.
Proof.
  intros u p. unfold applyUpdates.
  destruct (upd_name u) as [| |[|c s]];
    destruct (upd_addToFavorites u), (upd_isActive u), (upd_email u),
      (upd_age u); reflexivity.
Qed.

Lemma addToFavorites_present :
  forall foods l,
    (forall food, In food foods -> In food l) ->
    addToFavorites foods l = l.
Proof.
  induction foods as [|food foods IH]; intros l H; simpl; [reflexivity|].
  assert (I : includes l food = true).
  { unfold includes. apply existsb_exists. exists food.
    split; [apply H; now left|apply String.eqb_refl]. }
  rewrite I. simpl. apply IH. intros f Hf. apply H. now right.
Qed.

(** The outcome of saving a loaded document back. *)
Lemma save_existing_accepted :
  forall i stored p w,
    Person.findById i w = Some stored -> _id p = i ->
    Schema.is_valid p = true ->
    email_free i stored (with_updatedAt (clock w) p) w = true ->
    Person.save false p w =
      (Resolved (with_updatedAt (clock w) p),
       with_docs (replace_first (has_id i) (with_updatedAt (clock w) p)
                                (docs w)) w).
Proof.
  intros i stored p w F I V E. unfold Person.save.
  apply validate_nil_iff in V. rewrite V, I.
  unfold Person.findById, Person.findOne in F. rewrite F.
  unfold email_free in E.
  destruct (field_eqb _ _); simpl in *; [reflexivity|].
  destruct (existsb _ _); [discriminate|reflexivity].
Qed.

Lemma save_existing_refused :
  forall i stored p w,
    Person.findById i w = Some stored -> _id p = i ->
    Schema.is_valid p = false
    \/ email_free i stored (with_updatedAt (clock w) p) w = false ->
    is_rejected (fst (Person.save false p w)) = true
    /\ snd (Person.save false p w) = w.
Proof.
  intros i stored p w F I H. unfold Person.save.
  destruct (Schema.validate p) eqn:V; [|split; reflexivity].
  apply validate_nil_iff in V.
  destruct H as [H|H]; [congruence|].
  rewrite I. unfold Person.findById, Person.findOne in F. rewrite F.
  unfold email_free in H.
  destruct (field_eqb _ _); simpl in *; [discriminate|].
  destruct (existsb _ _); [split; reflexivity|discriminate].
Qed.

(** The classic update on a stored record: accepted, the record after the
    updates is what the call gives and what the id then finds; refused,
    nothing changes. *)
Lemma updatePersonClassic_found :
  forall i u w p,
    Person.findById i w = Some p ->
    let p' := with_updatedAt (clock w) (applyUpdates u p) in
    (Schema.is_valid p' = true -> email_free i p p' w = true ->
     fst (updatePersonClassic (Some i) u w) = Resolved p'
     /\ Person.findById i (snd (updatePersonClassic (Some i) u w)) = Some p')
    /\ (Schema.is_valid p' = false \/ email_free i p p' w = false ->
        is_rejected (fst (updatePersonClassic (Some i) u w)) = true
        /\ snd (updatePersonClassic (Some i) u w) = w).
Proof.
  intros i u w p F p'. unfold updatePersonClassic. rewrite F.
  pose proof (applyUpdates_id u p) as I.
  assert (Hi : _id p = i) by (apply (find_has_id i (docs w)); exact F).
  rewrite Hi in I. split.
  - intros V E.
    rewrite (save_existing_accepted i p _ w F I V E). simpl. split; auto.
    unfold Person.findById, Person.findOne. simpl.
    apply find_replace_first with (p := p); [exact F|].
    unfold has_id. simpl. rewrite I. apply Nat.eqb_refl.
  - intros H. apply (save_existing_refused i p _ w F I H).
Qed.

(** The error of a classic update that is refused: the validation error
    with the failing paths, or else the duplicate key on the email
    index. *)
Lemma updatePersonClassic_refused_error :
  forall i u w p,
    Person.findById i w = Some p ->
    let p' := with_updatedAt (clock w) (applyUpdates u p) in
    (Schema.is_valid p' = false ->
     fst (updatePersonClassic (Some i) u w)
     = Rejected (ValidationError (Schema.validate (applyUpdates u p)))
     /\ Schema.validate (applyUpdates u p) <> [])
    /\ (Schema.is_valid p' = true -> email_free i p p' w = false ->
        fst (updatePersonClassic (Some i) u w)
        = Rejected (DuplicateKeyError "email")).
Proof.
  intros i u w p F p'. unfold updatePersonClassic. rewrite F.
  pose proof (applyUpdates_id u p) as I.
  assert (Hi : _id p = i) by (apply (find_has_id i (docs w)); exact F).
  rewrite Hi in I. split.
  - intros V.
    assert (N : Schema.validate (applyUpdates u p) <> []).
    { intros E. apply validate_nil_iff in E.
      change (Schema.is_valid p') with (Schema.is_valid (applyUpdates u p))
        in V.
      congruence. }
    now rewrite save_invalid.
  - intros V E. unfold Person.save.
    change (Schema.is_valid p') with (Schema.is_valid (applyUpdates u p)) in V.
    apply validate_nil_iff in V. rewrite V, I.
    unfold Person.findById, Person.findOne in F. rewrite F.
    unfold email_free in E. fold p'.
    destruct (field_eqb _ _); simpl in *; [discriminate|].
    destruct (existsb _ _); [reflexivity|discriminate].
Qed.

End Updating.

(** C2, as amended.  [updatePersonClassic] rejects, and changes nothing,
    for a falsy id and for an id no record has.  For the id of a stored
    record it resolves with that record after the updates, [updatedAt]
    refreshed, and the collection then holds it under the id, provided the
    updated record passes the schema and its email is free; otherwise it
    rejects and changes nothing, with the validation error that names the
    failing paths when the record does not pass the schema, and with the
    duplicate-key error of the email index when its email is taken. *)
Theorem updatePersonClassic_outcomes :
  forall (i : ObjectId) (u : personService.Updates) (w : world),
    (is_rejected (fst (personService.updatePersonClassic None u w)) = true
     /\ snd (personService.updatePersonClassic None u w) = w)
    /\ (Person.findById i w = None ->
        is_rejected (fst (personService.updatePersonClassic (Some i) u w)) = true
        /\ snd (personService.updatePersonClassic (Some i) u w) = w)
    /\ (forall p,
           Person.findById i w = Some p ->
           let p' := with_updatedAt (clock w) (personService.applyUpdates u p) in
           (Schema.is_valid p' = true -> email_free i p p' w = true ->
            fst (personService.updatePersonClassic (Some i) u w) = Resolved p'
            /\ Person.findById i
                 (snd (personService.updatePersonClassic (Some i) u w))
               = Some p')
           /\ (Schema.is_valid p' = false \/ email_free i p p' w = false ->
               is_rejected
                 (fst (personService.updatePersonClassic (Some i) u w)) = true
               /\ snd (personService.updatePersonClassic (Some i) u w) = w)
           /\ (Schema.is_valid p' = false ->
               fst (personService.updatePersonClassic (Some i) u w)
               = Rejected
                   (ValidationError
                      (Schema.validate (personService.applyUpdates u p)))
               /\ Schema.validate (personService.applyUpdates u p) <> [])
           /\ (Schema.is_valid p' = true -> email_free i p p' w = false ->
               fst (personService.updatePersonClassic (Some i) u w)
               = Rejected (DuplicateKeyError "email"))).
Proof.
  intros i u w. split; [split; reflexivity|]. split.
  - intros F. unfold personService.updatePersonClassic. rewrite F.
    split; reflexivity.
  - intros p F p'.
    destruct (updatePersonClassic_found i u w p F) as [Accepted Refused].
    destruct (updatePersonClassic_refused_error i u w p F)
      as [Invalid Taken].
    split; [exact Accepted|]. split; [exact Refused|].
    split; [exact Invalid|exact Taken].
Qed.

(** On the collection that holds John Doe alone: the id 7 is unknown, the
    record under the id 0 gets the age 31. *)
Lemma updatePersonClassic_outcomes_witness :
  let w := snd (personService.createAndSavePerson index.johnDoe empty_world) in
  let u := personService.mkUpdates Undefined (Val 31%Q) Undefined None None in
  is_rejected (fst (personService.updatePersonClassic (Some 7) u w)) = true
  /\ exists p p',
      Person.findById 0 w = Some p
      /\ fst (personService.updatePersonClassic (Some 0) u w) = Resolved p'
      /\ age p' = Some 31%Q.
Proof.
  intros w u. split.
  - apply (updatePersonClassic_outcomes 7 u w). vm_compute. reflexivity.
  - assert (F : Person.findById 0 w
                = Some (mkPerson 0 (Some "John Doe") (Some 30%Q)
                                 ["pizza"; "pasta"] (Val "john@example.com")
                                 0 0 true))
      by (vm_compute; reflexivity).
    destruct (updatePersonClassic_outcomes 0 u w) as (_ & _ & Found).
    destruct (Found _ F) as [Accepted _].
    do 2 eexists. split; [exact F|]. split.
    + apply Accepted; vm_compute; reflexivity.
    + reflexivity.
Defined.

(** C2, where the claim fails: the record exists, the update is refused. *)
Lemma updatePersonClassic_existing_id_rejected :
  let w := snd (personService.createAndSavePerson index.johnDoe empty_world) in
  let u := personService.mkUpdates Undefined (Val 200%Q) Undefined None None in
  (exists p, Person.findById 0 w = Some p /\ name p = Some "John Doe")
  /\ personService.updatePersonClassic (Some 0) u w
     = (Rejected (ValidationError ["age"]), w).
Proof.
  split; [eexists; split|]; vm_compute; reflexivity.
Qed.

(** C3.  Appending a food the record's [favoriteFoods] already holds
    leaves the list as it is: the loop of [updatePersonClassic] pushes
    nothing, the updated document has the same list, the stored record has
    the same list after the call whatever its outcome, and
    [addFavoriteFood] resolves with the document untouched and saves
    nothing. *)
Theorem appending_present_food_changes_nothing :
  forall (p : person) (food : string),
    In food (favoriteFoods p) ->
    personService.addToFavorites [food] (favoriteFoods p) = favoriteFoods p
    /\ (forall n a e act,
           favoriteFoods
             (personService.applyUpdates
                (personService.mkUpdates n a e act (Some [food])) p)
           = favoriteFoods p)
    /\ (forall n a e act i w q,
           Person.findById i w = Some p ->
           Person.findById i
             (snd (personService.updatePersonClassic
                     (Some i)
                     (personService.mkUpdates n a e act (Some [food]))
                     w))
           = Some q ->
           favoriteFoods q = favoriteFoods p)
    /\ (forall isNew w,
           Person.addFavoriteFood isNew p food w = (Resolved p, w)).
Proof.
  intros p food I.
  assert (A : personService.addToFavorites [food] (favoriteFoods p)
              = favoriteFoods p).
  { apply addToFavorites_present. intros f [<-|[]]. exact I. }
  assert (B : forall n a e act,
             favoriteFoods
               (personService.applyUpdates
                  (personService.mkUpdates n a e act (Some [food])) p)
             = favoriteFoods p).
  { intros n a e act. unfold personService.applyUpdates. simpl.
    destruct n as [| |[|c s]], a, e, act; simpl; exact A. }
  split; [exact A|]. split; [exact B|split].
  - intros n a e act i w q F.
    set (u := personService.mkUpdates n a e act (Some [food])).
    destruct (updatePersonClassic_found i u w p F) as [Accepted Refused].
    set (p' := with_updatedAt (clock w) (personService.applyUpdates u p)) in *.
    destruct (Schema.is_valid p') eqn:V;
      [destruct (email_free i p p' w) eqn:E|].
    + destruct (Accepted eq_refl eq_refl) as [_ ->].
      intros Q. inversion Q; subst q. apply B.
    + destruct (Refused (or_intror eq_refl)) as [_ ->].
      rewrite F. intros Q. now inversion Q.
    + destruct (Refused (or_introl eq_refl)) as [_ ->].
      rewrite F. intros Q. now inversion Q.
  - intros isNew w. unfold Person.addFavoriteFood.
    assert (H : includes (favoriteFoods p) food = true).
    { unfold includes. apply existsb_exists. exists food.
      split; [exact I|apply String.eqb_refl]. }
    now rewrite H.
Qed.

(** Pasta is among John Doe's favorites already. *)
Lemma appending_present_food_changes_nothing_witness :
  let p := mkPerson 0 (Some "John Doe") (Some 30%Q) ["pizza"; "pasta"]
                    (Val "john@example.com") 0 0 true in
  personService.addToFavorites ["pasta"] (favoriteFoods p) = ["pizza"; "pasta"]
  /\ Person.addFavoriteFood false p "pasta" empty_world
     = (Resolved p, empty_world).
Proof.
  intros p.
  destruct (appending_present_food_changes_nothing p "pasta")
    as (Loop & _ & _ & Method).
  - right. left. reflexivity.
  - split; [exact Loop|apply Method].
Defined.

Section Inserted.

Lemma find_app_fresh :
  forall (f : person -> bool) l p,
    existsb f l = false -> f p = true -> List.find f (l ++ [p]) = Some p.
Proof.
  intros f l p. induction l as [|q l IH]; simpl; intros X F.
  - now rewrite F.
  - apply orb_false_iff in X. destruct X as [Q X]. rewrite Q. auto.
Qed.

(** A record just inserted is what its [_id] finds. *)
Lemma inserted_is_found :
  forall p w p' w',
    Person.save true p w = (Resolved p', w') ->
    Person.findById (_id p') w' = Some p'.
Proof.
  intros p w p' w' H. apply save_new_resolved in H.
  destruct H as (_ & -> & _ & X).
  unfold Person.findById, Person.findOne. simpl.
  unfold violated_index in X.
  destruct (existsb (has_id (_id p')) (docs w)) eqn:E; [discriminate|].
  apply find_app_fresh; [exact E|apply Nat.eqb_refl].
Qed.

End Inserted.

(** C4.  [addHamburgerToFavorites] is [updatePersonClassic] with
    [{addToFavorites: ["hamburger"]}], for every id and collection.  On a
    stored John Doe of age 30 with the favorites pizza and pasta it
    resolves with a record whose favorites are pizza, pasta, hamburger, in
    that order, which the collection then holds; and so it does on the
    record [createAndSavePerson] inserted from that name, age and
    favorites. *)
Theorem addHamburgerToFavorites_appends_hamburger :
  (forall i w,
      personService.addHamburgerToFavorites i w
      = personService.updatePersonClassic
          i
          (personService.mkUpdates Undefined Undefined Undefined None
                                   (Some ["hamburger"]))
          w)
  /\ (forall i w p,
         Person.findById i w = Some p ->
         name p = Some "John Doe" ->
         age p = Some 30%Q ->
         favoriteFoods p = ["pizza"; "pasta"] ->
         Schema.valid_email (email p) = true ->
         exists p',
           fst (personService.addHamburgerToFavorites (Some i) w) = Resolved p'
           /\ favoriteFoods p' = ["pizza"; "pasta"; "hamburger"]
           /\ Person.findById i
                (snd (personService.addHamburgerToFavorites (Some i) w))
              = Some p')
  /\ (forall e act w0 p w,
         personService.createAndSavePerson
           (personService.mkData (Val "John Doe") (personService.AgeNumber 30)
                                 (Some ["pizza"; "pasta"]) e act) w0
         = (Resolved p, w) ->
         exists p',
           fst (personService.addHamburgerToFavorites (Some (_id p)) w)
           = Resolved p'
           /\ favoriteFoods p' = ["pizza"; "pasta"; "hamburger"]).
Proof.
  assert (Stored : forall i w p,
             Person.findById i w = Some p ->
             name p = Some "John Doe" ->
             age p = Some 30%Q ->
             favoriteFoods p = ["pizza"; "pasta"] ->
             Schema.valid_email (email p) = true ->
             exists p',
               fst (personService.addHamburgerToFavorites (Some i) w)
               = Resolved p'
               /\ favoriteFoods p' = ["pizza"; "pasta"; "hamburger"]
               /\ Person.findById i
                    (snd (personService.addHamburgerToFavorites (Some i) w))
                  = Some p').
  { intros i w p F N A L E.
    unfold personService.addHamburgerToFavorites.
    set (u := personService.mkUpdates Undefined Undefined Undefined None
                                      (Some ["hamburger"])).
    destruct (updatePersonClassic_found i u w p F) as [Accepted _].
    set (p' := with_updatedAt (clock w) (personService.applyUpdates u p)) in *.
    assert (L' : favoriteFoods p' = ["pizza"; "pasta"; "hamburger"]).
    { unfold p', u, personService.applyUpdates. simpl. rewrite L.
      reflexivity. }
    exists p'. destruct Accepted as [R S].
    - unfold Schema.is_valid. rewrite L'.
      unfold p', u, personService.applyUpdates. simpl. rewrite N, A, E.
      vm_compute. reflexivity.
    - unfold email_free.
      replace (email p') with (email p) by reflexivity.
      destruct (email p) as [| |s]; simpl; auto.
      now rewrite String.eqb_refl.
    - auto. }
  split; [reflexivity|]. split; [exact Stored|].
  intros e act w0 p w H.
  unfold personService.createAndSavePerson in H. simpl negb in H.
  cbv iota in H. unfold Person.new in H.
  pose proof (inserted_is_found _ _ _ _ H) as F.
  apply save_new_resolved in H. destruct H as (P & _ & V & _).
  destruct (Stored (_id p) w p F) as (p' & R & L & _).
  - rewrite P. reflexivity.
  - rewrite P. reflexivity.
  - rewrite P. reflexivity.
  - unfold Schema.is_valid in V. rewrite P. simpl email in *.
    destruct (Schema.valid_email _); [reflexivity|].
    now rewrite andb_false_r in V.
  - exists p'. auto.
Qed.

(** The scenario of the driver, on an empty collection. *)
Lemma addHamburgerToFavorites_appends_hamburger_witness :
  let w := snd (personService.createAndSavePerson index.johnDoe empty_world) in
  exists p',
    fst (personService.addHamburgerToFavorites (Some 0) w) = Resolved p'
    /\ favoriteFoods p' = ["pizza"; "pasta"; "hamburger"]
    /\ Person.findById 0 (snd (personService.addHamburgerToFavorites (Some 0) w))
       = Some p'.
Proof.
  intros w.
  destruct addHamburgerToFavorites_appends_hamburger as (_ & Stored & _).
  apply (Stored 0 w
           (mkPerson 0 (Some "John Doe") (Some 30%Q) ["pizza"; "pasta"]
                     (Val "john@example.com") 0 0 true));
    vm_compute; reflexivity.
Defined.



Section FirstMatch.

Variable f : person -> bool.

Lemma find_split :
  forall l p,
    List.find f l = Some p ->
    exists l1 l2,
      l = (l1 ++ p :: l2)%list
      /\ (forall q, In q l1 -> f q = false)
      /\ f p = true
      /\ forall p', replace_first f p' l = (l1 ++ p' :: l2)%list.
Proof.
  induction l as [|q l IH]; intros p H; simpl in *; [discriminate|].
  destruct (f q) eqn:Q.
  - inversion H; subst q. exists [], l. simpl. repeat split; auto.
    intros q [].
  - destruct (IH p H) as (l1 & l2 & -> & N & P & R).
    exists (q :: l1), l2. simpl. repeat split; auto.
    + intros q' [<-|I]; auto.
    + intros p'. now rewrite R.
Qed.

End FirstMatch.

(** C5, as amended.  [findOneAndUpdateAge] rejects, changing nothing, for
    an empty name and for an age the schema's validators refuse, whether a
    record matches or not.  For a non-empty name and an accepted age it is
    one find-and-update on the trimmed name: with no match it resolves
    with [null] and changes nothing; otherwise the first match, and no
    other record, gets the age and a new [updatedAt], and the call resolves
    with that record as it is stored after the update. *)
Theorem findOneAndUpdateAge_outcomes :
  forall (n : string) (a : field Q) (w : world),
    (n = "" ->
     personService.findOneAndUpdateAge n a w
     = (Rejected (Error "personName is required"), w))
    /\ (n <> "" ->
        Schema.valid_age (personService.newAge_or_default a) = false ->
        personService.findOneAndUpdateAge n a w
        = (Rejected (ValidationError ["age"]), w))
    /\ (n <> "" ->
        Schema.valid_age (personService.newAge_or_default a) = true ->
        Person.findOne (has_name (trim n)) w = None ->
        personService.findOneAndUpdateAge n a w = (Resolved None, w))
    /\ (n <> "" ->
        Schema.valid_age (personService.newAge_or_default a) = true ->
        forall p,
          Person.findOne (has_name (trim n)) w = Some p ->
          exists p' l1 l2,
            fst (personService.findOneAndUpdateAge n a w) = Resolved (Some p')
            /\ age p' = personService.newAge_or_default a
            /\ updatedAt p' = clock w
            /\ (_id p', name p', favoriteFoods p', email p', createdAt p',
                isActive p')
               = (_id p, name p, favoriteFoods p, email p, createdAt p,
                  isActive p)
            /\ docs w = (l1 ++ p :: l2)%list
            /\ docs (snd (personService.findOneAndUpdateAge n a w))
               = (l1 ++ p' :: l2)%list
            /\ Person.findOne
                 (has_name (trim n))
                 (snd (personService.findOneAndUpdateAge n a w))
               = Some p').
Proof.
  intros n a w. unfold personService.findOneAndUpdateAge.
  split; [intros ->; reflexivity|].
  destruct n as [|c n]; [repeat split; intros N; now destruct N|].
  simpl negb. cbv iota. unfold Person.findOneAndUpdate, Person.by_name,
    Schema.set_name.
  split; [|split].
  - intros _ V. now rewrite V.
  - intros _ V F. now rewrite V, F.
  - intros _ V p F. rewrite V, F. simpl.
    destruct (find_split _ _ _ F) as (l1 & l2 & D & N & P & R).
    set (p' := with_updatedAt (clock w)
                 (with_age (personService.newAge_or_default a) p)).
    exists p', l1, l2. repeat split; auto.
    unfold Person.findOne. simpl.
    apply find_replace_first with (p := p); [exact F|exact P].
Qed.

(** Among the five people of the driver nobody is called Nobody, and Jane
    Smith turns 26. *)
Lemma findOneAndUpdateAge_outcomes_witness :
  let w := snd (personService.createManyPeople [] index.fivePeople empty_world) in
  personService.findOneAndUpdateAge "Nobody" (Val 26%Q) w = (Resolved None, w)
  /\ exists p' l1 l2,
      fst (personService.findOneAndUpdateAge "Jane Smith" (Val 26%Q) w)
      = Resolved (Some p')
      /\ age p' = Some 26%Q
      /\ docs (snd (personService.findOneAndUpdateAge "Jane Smith" (Val 26%Q) w))
         = (l1 ++ p' :: l2)%list.
Proof.
  intros w. split.
  - apply (findOneAndUpdateAge_outcomes "Nobody" (Val 26%Q) w);
      [discriminate|reflexivity|vm_compute; reflexivity].
  - destruct (findOneAndUpdateAge_outcomes "Jane Smith" (Val 26%Q) w)
      as (_ & _ & _ & Match).
    destruct (Match ltac:(discriminate) eq_refl
                (mkPerson 0 (Some "Jane Smith") (Some 25%Q) ["sushi"; "salad"]
                          (Val "jane@example.com") 0 0 true))
      as (p' & l1 & l2 & R & A & _ & _ & _ & D & _).
    + vm_compute. reflexivity.
    + exists p', l1, l2. auto.
Defined.

(** C5, where the claim fails: no record matches, yet the call rejects. *)
Lemma findOneAndUpdateAge_rejects_without_match :
  (Person.findOne (Person.by_name "") empty_world = None
   /\ personService.findOneAndUpdateAge "" (Val 5%Q) empty_world
      = (Rejected (Error "personName is required"), empty_world))
  /\ (Person.findOne (Person.by_name "Nobody") empty_world = None
      /\ personService.findOneAndUpdateAge "Nobody" (Val 200%Q) empty_world
         = (Rejected (ValidationError ["age"]), empty_world)).
Proof.
  repeat split; vm_compute; reflexivity.
Qed.

Section Deleting.

Lemma has_name_iff :
  forall n p, has_name n p = true <-> name p = Some n.
Proof.
  intros n p. unfold has_name. destruct (name p) as [m|].
  - rewrite String.eqb_eq. split; congruence.
  - split; discriminate.
Qed.

Lemma filter_lengths :
  forall (f : person -> bool) l,
    List.length (filter (fun p => negb (f p)) l) + List.length (filter f l)
    = List.length l.
Proof.
  intros f. induction l as [|q l IH]; simpl; [reflexivity|].
  destruct (f q); simpl; lia.
Qed.

End Deleting.

(** C8, as amended.  [deleteManyByName] rejects an empty name and removes
    nothing.  For a non-empty name it removes exactly the records whose
    name is the given name trimmed, leaves every other record as it is
    and where it is, and resolves with a deleted count that is the number
    of records that matched. *)
Theorem deleteManyByName_outcomes :
  forall (n : string) (w : world),
    (n = "" ->
     personService.deleteManyByName n w
     = (Rejected (Error "Name is required for deletion"), w))
    /\ (n <> "" ->
        exists k w',
          personService.deleteManyByName n w = (Resolved k, w')
          /\ k = List.length (filter (has_name (trim n)) (docs w))
          /\ docs w' = filter (fun p => negb (has_name (trim n) p)) (docs w)
          /\ (forall p, In p (docs w')
                        <-> In p (docs w) /\ name p <> Some (trim n))
          /\ List.length (docs w') + k = List.length (docs w)
          /\ next_id w' = next_id w /\ clock w' = clock w).
Proof.
  intros n w. split; [intros ->; reflexivity|].
  intros N. destruct n as [|c n]; [now destruct N|].
  unfold personService.deleteManyByName. simpl negb. cbv iota.
  unfold Person.deleteMany, Person.by_name, Schema.set_name.
  do 2 eexists. split; [reflexivity|]. simpl.
  split; [reflexivity|]. split; [reflexivity|].
  split; [|split; [apply filter_lengths|split; reflexivity]].
  intros p. rewrite filter_In, negb_true_iff, <- has_name_iff.
  destruct (has_name (trim (String c n)) p); intuition congruence.
Qed.

(** One of the five people of the driver is called Mary Wilson. *)
Lemma deleteManyByName_outcomes_witness :
  let w := snd (personService.createManyPeople [] index.fivePeople empty_world) in
  exists k w',
    personService.deleteManyByName "Mary Wilson" w = (Resolved k, w')
    /\ k = 1
    /\ List.length (docs w') + k = 5.
Proof.
  intros w.
  destruct (proj2 (deleteManyByName_outcomes "Mary Wilson" w))
    as (k & w' & R & K & _ & _ & L & _); [discriminate|].
  exists k, w'. split; [exact R|]. split.
  - rewrite K. vm_compute. reflexivity.
  - rewrite L. vm_compute. reflexivity.
Defined.

(** C8, where the claim fails: an empty name is rejected instead of
    resolving with a count, and a name with white space around it removes
    the records of the trimmed name, none of which has the name given. *)
Lemma deleteManyByName_rejects_or_trims :
  let w := snd (personService.createManyPeople [] index.fivePeople empty_world) in
  personService.deleteManyByName "" w
  = (Rejected (Error "Name is required for deletion"), w)
  /\ Person.find (has_name " Mary Wilson ") w = []
  /\ fst (personService.deleteManyByName " Mary Wilson " w) = Resolved 1
  /\ List.length (docs (snd (personService.deleteManyByName " Mary Wilson " w)))
     = 4.
Proof.
  repeat split; vm_compute; reflexivity.
Qed.

Section EmailIndex.

Lemma same_email_key_sym :
  forall a b, same_email_key a b = same_email_key b a.
Proof.
  intros [| |x] [| |y]; simpl; auto using String.eqb_sym.
Qed.

Lemma field_eqb_eq : forall a b, field_eqb a b = true -> a = b.
Proof.
  intros [| |x] [| |y]; simpl; try congruence.
  intros H. apply String.eqb_eq in H. congruence.
Qed.

Lemma in_remove_first :
  forall f q l, In q (remove_first f l) -> In q l.
Proof.
  intros f q. induction l as [|r l IH]; simpl; [tauto|].
  destruct (f r); simpl; intuition.
Qed.

Lemma in_replace_first :
  forall f p' q l, In q (replace_first f p' l) -> q = p' \/ In q l.
Proof.
  intros f p' q. induction l as [|r l IH]; simpl; [tauto|].
  destruct (f r); simpl; intuition.
Qed.

Lemma distinct_emails_app_one :
  forall l p,
    distinct_emails l ->
    (forall q, In q l -> same_email_key (email q) (email p) = false) ->
    distinct_emails (l ++ [p]).
Proof.
  induction l as [|r l IH]; intros p D H; simpl in *; [tauto|].
  destruct D as [R D]. split.
  - intros q I. apply in_app_or in I. destruct I as [I|[<-|[]]]; auto.
  - apply IH; auto.
Qed.

Lemma distinct_emails_filter :
  forall f l, distinct_emails l -> distinct_emails (filter f l).
Proof.
  intros f. induction l as [|r l IH]; simpl; [tauto|].
  intros [R D]. destruct (f r); simpl; auto.
  split; auto. intros q I. apply filter_In in I. now apply R.
Qed.

Lemma distinct_emails_remove_first :
  forall f l, distinct_emails l -> distinct_emails (remove_first f l).
Proof.
  intros f. induction l as [|r l IH]; simpl; [tauto|].
  intros [R D]. destruct (f r); simpl; auto.
  split; auto. intros q I. apply R. eapply in_remove_first; eauto.
Qed.

(** The first match shares no index entry with the rest. *)
Lemma distinct_emails_first_match :
  forall f l stored,
    distinct_emails l -> List.find f l = Some stored ->
    forall q, In q (remove_first f l) ->
              same_email_key (email q) (email stored) = false.
Proof.
  intros f. induction l as [|r l IH]; simpl; intros stored D F q I;
    [discriminate|].
  destruct D as [R D]. destruct (f r).
  - inversion F; subst r. rewrite same_email_key_sym. now apply R.
  - destruct I as [<-|I]; [|now apply (IH stored)].
    apply R. apply find_some in F. tauto.
Qed.

Lemma distinct_emails_replace_first :
  forall f p' l,
    distinct_emails l ->
    (forall q, In q (remove_first f l) ->
               same_email_key (email q) (email p') = false) ->
    distinct_emails (replace_first f p' l).
Proof.
  intros f p'. induction l as [|r l IH]; simpl; intros D H; [tauto|].
  destruct D as [R D]. destruct (f r); simpl.
  - split; auto. intros q I. rewrite same_email_key_sym. now apply H.
  - split.
    + intros q I. apply in_replace_first in I. destruct I as [->|I]; auto.
      apply H. now left.
    + apply IH; auto. intros q I. apply H. now right.
Qed.

Lemma existsb_false_forall :
  forall (g : person -> bool) l,
    existsb g l = false -> forall q, In q l -> g q = false.
Proof.
  intros g l H q I. destruct (g q) eqn:G; [|reflexivity].
  assert (X : existsb g l = true) by (apply existsb_exists; eauto).
  congruence.
Qed.

(** [doc.save()] keeps the index sound, for a new document and for a
    loaded one. *)
Lemma save_keeps_distinct_emails :
  forall isNew p w,
    distinct_emails (docs w) ->
    distinct_emails (docs (snd (Person.save isNew p w))).
Proof.
  intros isNew p w D. unfold Person.save.
  destruct (Schema.validate p); [|exact D].
  destruct isNew.
  - unfold violated_index.
    destruct (existsb (has_id _) _); [exact D|].
    destruct (existsb _ (docs w)) eqn:X; [exact D|].
    simpl. apply distinct_emails_app_one; [exact D|].
    apply (existsb_false_forall _ _ X).
  - destruct (List.find _ _) as [stored|] eqn:F; [|exact D].
    destruct (field_eqb _ _) eqn:E; simpl.
    + apply distinct_emails_replace_first; [exact D|].
      apply field_eqb_eq in E. simpl in E. simpl. rewrite <- E.
      now apply distinct_emails_first_match.
    + destruct (existsb _ _) eqn:X; [exact D|]. simpl.
      apply distinct_emails_replace_first; [exact D|].
      apply (existsb_false_forall _ _ X).
Qed.

Lemma save_each_keeps_distinct_emails :
  forall l w,
    distinct_emails (docs w) ->
    distinct_emails (docs (snd (Person.save_each l w))).
Proof.
  induction l as [|[i p] l IH]; intros w D; simpl; [exact D|].
  pose proof (save_keeps_distinct_emails true p w D) as S.
  destruct (Person.save true p w) as [r w2].
  specialize (IH w2 S).
  destruct (Person.save_each l w2) as [rs w3]. exact IH.
Qed.

Lemma create_keeps_distinct_emails :
  forall sched l w,
    distinct_emails (docs w) ->
    distinct_emails (docs (snd (Person.create sched l w))).
Proof.
  intros sched l w D. rewrite create_arrivals. cbv zeta.
  match goal with
  | |- context [Person.save_each ?a ?w1] =>
      pose proof (save_each_keeps_distinct_emails a w1 D) as C;
      destruct (Person.save_each a w1) as [rs w']
  end.
  cbn [fst snd]. destruct (Person.first_error rs); exact C.
Qed.

Lemma updatePersonClassic_keeps_distinct_emails :
  forall i u w,
    distinct_emails (docs w) ->
    distinct_emails (docs (snd (personService.updatePersonClassic i u w))).
Proof.
  intros i u w D. unfold personService.updatePersonClassic.
  destruct i as [i|]; [|exact D].
  destruct (Person.findById i w); [|exact D].
  now apply save_keeps_distinct_emails.
Qed.

(** Every operation keeps the index sound. *)
Lemma step_keeps_distinct_emails :
  forall w w', step w w' ->
               distinct_emails (docs w) -> distinct_emails (docs w').
Proof.
  intros w w' S D. destruct S.
  - unfold personService.createAndSavePerson.
    destruct (negb _); [exact D|].
    unfold Person.new. now apply save_keeps_distinct_emails.
  - unfold personService.createManyPeople.
    destruct l; [exact D|]. now apply create_keeps_distinct_emails.
  - now apply updatePersonClassic_keeps_distinct_emails.
  - now apply updatePersonClassic_keeps_distinct_emails.
  - unfold personService.findOneAndUpdateAge.
    destruct (negb _); [exact D|].
    unfold Person.findOneAndUpdate.
    destruct (Schema.valid_age _); [|exact D].
    destruct (Person.findOne _ w) as [p|] eqn:F; [|exact D].
    simpl. apply distinct_emails_replace_first; [exact D|].
    simpl. now apply distinct_emails_first_match.
  - unfold personService.deletePersonById.
    destruct i as [i|]; [|exact D].
    unfold Person.findByIdAndRemove.
    destruct (Person.findById i w); [|exact D].
    simpl. now apply distinct_emails_remove_first.
  - unfold personService.deleteManyByName.
    destruct (negb _); [exact D|].
    simpl. now apply distinct_emails_filter.
  - unfold seed.seedDatabase, Person.deleteMany. cbv beta iota.
    apply create_keeps_distinct_emails.
    unfold with_docs, docs at 1. now apply distinct_emails_filter.
  - unfold Person.addFavoriteFood.
    destruct (negb _); [|exact D].
    now apply save_keeps_distinct_emails.
  - unfold Person.removeFavoriteFood.
    destruct (includes _ _); [|exact D].
    now apply save_keeps_distinct_emails.
  - exact D.
Qed.

Lemma reachable_distinct_emails :
  forall w, reachable w -> distinct_emails (docs w).
Proof.
  induction 1 as [|w w' R IH S]; [exact I|].
  now apply (step_keeps_distinct_emails w w').
Qed.

(** A sound index has at most one record for an email. *)
Lemma distinct_emails_positions :
  forall l i j p q e,
    distinct_emails l ->
    nth_error l i = Some p -> nth_error l j = Some q ->
    email p = Val e -> email q = Val e -> i = j.
Proof.
  induction l as [|r l IH]; intros i j p q e D P Q Ep Eq;
    [destruct i; discriminate|].
  destruct D as [R D].
  assert (K : forall a b, email a = Val e -> email b = Val e ->
                          same_email_key (email a) (email b) = true).
  { intros a b -> ->. simpl. apply String.eqb_refl. }
  destruct i as [|i], j as [|j]; simpl in *; auto.
  - inversion P; subst r. apply nth_error_In in Q.
    pose proof (K p q Ep Eq) as T. rewrite (R q Q) in T. discriminate.
  - inversion Q; subst r. apply nth_error_In in P.
    pose proof (K q p Eq Ep) as T. rewrite (R p P) in T. discriminate.
  - f_equal. eapply IH; eauto.
Qed.

(** An insert next to a record with the same email is refused. *)
Lemma save_new_duplicate_email :
  forall p w q e,
    In q (docs w) -> email q = Val e -> email p = Val e ->
    is_rejected (fst (Person.save true p w)) = true
    /\ snd (Person.save true p w) = w.
Proof.
  intros p w q e I Eq Ep. unfold Person.save.
  destruct (Schema.validate p); [|split; reflexivity].
  unfold violated_index.
  destruct (existsb (has_id _) _); [split; reflexivity|].
  assert (X : existsb (fun r => same_email_key
                                  (email r)
                                  (email (with_updatedAt (clock w) p)))
                      (docs w) = true).
  { apply existsb_exists. exists q. split; [exact I|].
    simpl. rewrite Eq, Ep. simpl. apply String.eqb_refl. }
  rewrite X. split; reflexivity.
Qed.

Lemma save_new_keeps_docs :
  forall p w q,
    In q (docs w) -> In q (docs (snd (Person.save true p w))).
Proof.
  intros p w q I. unfold Person.save.
  destruct (Schema.validate p); [|exact I].
  destruct (violated_index _ _); [exact I|].
  simpl. apply in_or_app. now left.
Qed.

(** Whenever it arrives, the save of a document whose email is stored is
    refused. *)
Lemma save_each_duplicate_email :
  forall l w i p q e,
    In (i, p) l -> email p = Val e ->
    In q (docs w) -> email q = Val e ->
    Person.first_error (fst (Person.save_each l w)) <> None.
Proof.
  induction l as [|[j p0] l IH]; intros w i p q e I E Q Eq; [destruct I|].
  simpl.
  pose proof (save_new_keeps_docs p0 w q Q) as K.
  pose proof (save_new_duplicate_email p0 w q e Q Eq) as J.
  destruct (Person.save true p0 w) as [r w2].
  pose proof (IH w2 i p q e) as IH'.
  destruct (Person.save_each l w2) as [rs w3]. simpl fst in *.
  destruct r as [p'|err]; simpl; [|discriminate].
  destruct I as [I|I]; [|now apply IH'].
  inversion I; subst j p0. destruct (J E). discriminate.
Qed.

Lemma create_duplicate_email :
  forall sched l w d s q,
    In d l -> init_email d = Val s ->
    In q (docs w) -> email q = Val (Schema.set_email s) ->
    forall n,
      Person.first_error
        (fst (Person.save_each (arrivals sched l w)
                               (mkWorld (docs w) n (clock w))))
      <> None.
Proof.
  intros sched l w d s q I E Q Eq n.
  destruct (built_in l (next_id w) (clock w) d I) as (p & Ip & _ & Ep).
  destruct (in_arrivals sched l w p Ip) as [i Hi].
  apply (save_each_duplicate_email _ _ i p q (Schema.set_email s) Hi);
    [|exact Q|exact Eq].
  rewrite Ep, E. reflexivity.
Qed.

End EmailIndex.

(** C7.  In every collection the operations can reach, no two records
    have the same non-null email.  Every operation keeps the email index
    free of double entries; and an insert whose email, lower-cased and
    trimmed, is the email of a stored record is rejected, by
    [createAndSavePerson], which then persists nothing, and by
    [createManyPeople]. *)
Theorem emails_stay_unique :
  (forall w,
      reachable w ->
      forall i j p q e,
        nth_error (docs w) i = Some p -> nth_error (docs w) j = Some q ->
        email p = Val e -> email q = Val e -> i = j)
  /\ (forall w w',
         step w w' -> distinct_emails (docs w) -> distinct_emails (docs w'))
  /\ (forall pd w s q,
         personService.pd_email pd = Val s -> s <> "" ->
         In q (docs w) -> email q = Val (trim (toLowerCase s)) ->
         is_rejected (fst (personService.createAndSavePerson pd w)) = true
         /\ docs (snd (personService.createAndSavePerson pd w)) = docs w)
  /\ (forall sched l w d s q,
         In d l -> init_email d = Val s ->
         In q (docs w) -> email q = Val (trim (toLowerCase s)) ->
         is_rejected (fst (personService.createManyPeople sched l w)) = true).
Proof.
  split; [|split; [|split]].
  - intros w R i j p q e. apply distinct_emails_positions.
    now apply reachable_distinct_emails.
  - exact step_keeps_distinct_emails.
  - intros pd w s q E N I Q. unfold personService.createAndSavePerson.
    destruct (negb _); [split; reflexivity|].
    unfold Person.new.
    match goal with
    | |- context [Person.save true ?p ?w1] =>
        destruct (save_new_duplicate_email p w1 q (Schema.set_email s))
          as [R S]
    end; auto.
    + rewrite E. destruct s; [now destruct N|reflexivity].
    + split; [exact R|]. rewrite S. reflexivity.
  - intros sched l w d s q I E Q Eq. unfold personService.createManyPeople.
    destruct l as [|d0 l]; [destruct I|].
    rewrite create_arrivals. cbv zeta.
    pose proof (create_duplicate_email sched (d0 :: l) w d s q I E Q Eq
                  (next_id w + List.length (d0 :: l))) as F.
    destruct (Person.save_each _ _) as [rs w']. simpl fst in F |- *.
    destruct (Person.first_error rs); [reflexivity|congruence].
Qed.

(** A second insert with John Doe's email, in another case and with
    spaces around it. *)
Lemma emails_stay_unique_witness :
  let w := snd (personService.createAndSavePerson index.johnDoe empty_world) in
  let again := personService.mkData (Val "Johnny Doe") personService.AgeNull
                                    None (Val "  John@Example.COM ") None in
  reachable w
  /\ is_rejected (fst (personService.createAndSavePerson again w)) = true
  /\ docs (snd (personService.createAndSavePerson again w)) = docs w.
Proof.
  intros w again. split.
  - apply reachable_step with (w := empty_world);
      [apply reachable_empty|apply step_createAndSavePerson].
  - destruct emails_stay_unique as (_ & _ & Second & _).
    apply (Second again w "  John@Example.COM "
             (mkPerson 0 (Some "John Doe") (Some 30%Q) ["pizza"; "pasta"]
                       (Val "john@example.com") 0 0 true)).
    + reflexivity.
    + discriminate.
    + vm_compute. left. reflexivity.
    + vm_compute. reflexivity.
Defined.

Section Seeding.

Lemma distinct_emailsb_sound :
  forall l, distinct_emailsb l = true -> distinct_emails l.
Proof.
  induction l as [|p l IH]; simpl; [trivial|].
  intros H. apply andb_true_iff in H. destruct H as [X D].
  apply negb_true_iff in X. split; [|now apply IH].
  apply (existsb_false_forall _ _ X).
Qed.

Lemma distinct_emails_app_head :
  forall l p rest,
    distinct_emails (l ++ p :: rest) ->
    forall q, In q l -> same_email_key (email q) (email p) = false.
Proof.
  induction l as [|r l IH]; simpl; intros p rest D q I; [destruct I|].
  destruct D as [R D]. destruct I as [<-|I]; [|eauto].
  apply R. apply in_or_app. right. now left.
Qed.

Lemma ids_below_fresh :
  forall w, ids_below w -> existsb (has_id (next_id w)) (docs w) = false.
Proof.
  intros w B. destruct (existsb _ _) eqn:X; [|reflexivity].
  apply existsb_exists in X. destruct X as (q & I & E).
  apply Nat.eqb_eq in E. apply B in I. lia.
Qed.

Lemma distinct_emails_perm :
  forall l l', Permutation l l' -> distinct_emails l -> distinct_emails l'.
Proof.
  induction 1 as [|x l l' P IH|x y l|l l' l'' P1 IH1 P2 IH2]; simpl.
  - trivial.
  - intros [R D]. split; [|now apply IH].
    intros q I. apply R. apply (Permutation_in _ (Permutation_sym P) I).
  - intros (Ry & Rx & D). repeat split; [| |exact D].
    + intros q [<-|I]; [|now apply Rx].
      rewrite same_email_key_sym. apply Ry. now left.
    + intros q I. apply Ry. now right.
  - auto.
Qed.

Lemma built_ids :
  forall l i t, map _id (built l i t) = seq i (List.length l).
Proof.
  induction l as [|d l IH]; intros i t; simpl; [reflexivity|].
  now rewrite IH.
Qed.

Lemma built_updatedAt :
  forall l i t p, In p (built l i t) -> updatedAt p = t.
Proof.
  induction l as [|d l IH]; intros i t p; simpl; [tauto|].
  intros [<-|I]; [reflexivity|eauto].
Qed.

Lemma with_updatedAt_same :
  forall p, with_updatedAt (updatedAt p) p = p.
Proof. now intros []. Qed.

(** Saves of valid documents with fresh ids whose emails collide neither
    with each other nor with the stored ones are all accepted, in
    whatever order they arrive. *)
Lemma save_each_accepts_all :
  forall l w,
    (forall i p, In (i, p) l ->
                 Schema.is_valid p = true /\ updatedAt p = clock w) ->
    NoDup (map _id (map snd l)) ->
    (forall i p q, In (i, p) l -> In q (docs w) -> _id q <> _id p) ->
    distinct_emails (docs w ++ map snd l) ->
    Person.save_each l w
    = (map (fun ip => (fst ip, Resolved (snd ip))) l,
       with_docs (docs w ++ map snd l) w).
Proof.
  induction l as [|[i p] l IH]; intros w V N F D.
  - simpl. rewrite app_nil_r. now destruct w.
  - cbn [Person.save_each map fst snd] in *.
    destruct (V i p (or_introl eq_refl)) as [Vp Up].
    assert (Sp : with_updatedAt (clock w) p = p)
      by (rewrite <- Up; apply with_updatedAt_same).
    rewrite save_new_accepted; rewrite ?Sp.
    + rewrite (IH (with_docs (docs w ++ [p]) w)).
      * cbn [with_docs docs next_id clock]. now rewrite <- app_assoc.
      * intros j q I. apply (V j q). now right.
      * now inversion N.
      * intros j q r I Hr. cbn [with_docs docs] in Hr.
        apply in_app_or in Hr. destruct Hr as [Hr|[<-|[]]].
        -- apply (F j q r); [now right|exact Hr].
        -- inversion N as [|? ? X _]; subst. intros E. apply X.
           rewrite E. apply in_map, (in_map snd _ (j, q)), I.
      * cbn [with_docs docs]. now rewrite <- app_assoc.
    + exact Vp.
    + unfold violated_index.
      destruct (existsb (has_id (_id p)) (docs w)) eqn:X.
      * apply existsb_exists in X. destruct X as (q & I & E).
        apply Nat.eqb_eq in E. destruct (F i p q (or_introl eq_refl) I E).
      * clear X.
        destruct (existsb (fun q => same_email_key (email q) (email p))
                          (docs w)) eqn:Y; [|reflexivity].
        apply existsb_exists in Y. destruct Y as (q & I & E).
        rewrite (distinct_emails_app_head _ _ _ D q I) in E. discriminate.
Qed.

Lemma first_error_all_resolved :
  forall l : list (nat * person),
    Person.first_error (map (fun ip => (fst ip, Resolved (snd ip))) l) = None.
Proof. induction l as [|[i p] l IH]; simpl; auto. Qed.

Lemma saved_all_resolved :
  forall l : list (nat * person),
    Person.saved (map (fun ip => (fst ip, Resolved (snd ip))) l) = map snd l.
Proof.
  induction l as [|[i p] l IH]; simpl; [reflexivity|]. now rewrite IH.
Qed.

(** The saved document of index [i], when every save was accepted. *)
Lemma saved_at_all_resolved :
  forall (l : list (nat * person)) i p,
    NoDup (map fst l) -> In (i, p) l ->
    Person.saved_at (map (fun ip => (fst ip, Resolved (snd ip))) l) i = [p].
Proof.
  unfold Person.saved_at.
  induction l as [|[j q] l IH]; intros i p N I; [destruct I|].
  cbn [map fst snd List.find]. inversion N as [|? ? X N']; subst.
  destruct (j =? i) eqn:E.
  - apply Nat.eqb_eq in E. subst j. destruct I as [I|I].
    + now inversion I.
    + destruct X. apply (in_map fst _ (i, p)), I.
  - destruct I as [I|I]; [|now apply IH].
    inversion I; subst. rewrite Nat.eqb_refl in E. discriminate.
Qed.

Lemma flat_map_by_index :
  forall (ps : list person) a (f : nat -> list person),
    (forall i p, In (i, p) (combine (seq a (List.length ps)) ps) -> f i = [p]) ->
    flat_map f (seq a (List.length ps)) = ps.
Proof.
  induction ps as [|q ps IH]; intros a f H; simpl; [reflexivity|].
  rewrite (H a q) by now left.
  simpl. f_equal. apply IH. intros i p I. apply H. now right.
Qed.

(** When every save was accepted, the documents by index are the
    documents in the order of the array. *)
Lemma saved_in_order :
  forall sched l w,
    flat_map (Person.saved_at
                (map (fun ip => (fst ip, Resolved (snd ip)))
                     (arrivals sched l w)))
             (seq 0 (List.length (built l (next_id w) (clock w))))
    = built l (next_id w) (clock w).
Proof.
  intros sched l w. apply flat_map_by_index. intros i p I.
  apply saved_at_all_resolved.
  - unfold arrivals. rewrite <- arrival_map, numbered_fst.
    apply (Permutation_NoDup (arrival_perm _ _ _)), seq_NoDup.
  - unfold arrivals. now apply arrival_in.
Qed.

(** [Person.create] on documents that are all valid and whose emails
    collide neither with each other nor with the stored ones saves every
    one of them, whatever the order of arrival: the call resolves with
    the documents in the order of the array, and the collection has them
    in the order of arrival. *)
Lemma create_accepts_all :
  forall sched l w,
    ids_below w ->
    forallb Schema.is_valid (built l (next_id w) (clock w)) = true ->
    distinct_emails (docs w ++ built l (next_id w) (clock w)) ->
    Person.create sched l w
    = (Resolved (built l (next_id w) (clock w)),
       mkWorld (docs w ++ Person.arrival sched
                            (built l (next_id w) (clock w)))
               (next_id w + List.length l) (clock w)).
Proof.
  intros sched l w B V D. rewrite create_arrivals. cbv zeta.
  rewrite save_each_accepts_all.
  - cbn [fst snd]. rewrite first_error_all_resolved.
    cbn [with_docs docs next_id clock]. rewrite arrivals_snd.
    now rewrite saved_in_order.
  - intros i p I. apply arrivals_in in I. split.
    + rewrite forallb_forall in V. now apply V.
    + now apply built_updatedAt in I.
  - rewrite arrivals_snd, <- arrival_map, built_ids.
    apply (Permutation_NoDup (arrival_perm _ _ _)), seq_NoDup.
  - intros i p q I Q. apply arrivals_in in I. cbn [docs] in Q.
    apply B in Q. apply (in_map _id) in I. rewrite built_ids in I.
    apply in_seq in I. lia.
  - cbn [docs]. rewrite arrivals_snd.
    apply (distinct_emails_perm _ _
             (Permutation_app_head _ (arrival_perm _ _ _)) D).
Qed.

Lemma filter_nobody :
  forall l : list person,
    filter (fun p => negb (Person.everyone p)) l = [].
Proof. induction l; simpl; auto. Qed.

(** Whatever the collection held, seeding leaves the ten sample people,
    stored in the order in which their saves arrived. *)
Lemma seedDatabase_result :
  forall sched w,
    seed.seedDatabase sched w
    = (Resolved (built seed.samplePeople (next_id w) (clock w)),
       mkWorld (Person.arrival
                  sched (built seed.samplePeople (next_id w) (clock w)))
               (next_id w + 10) (clock w)).
Proof.
  intros sched w. unfold seed.seedDatabase, Person.deleteMany.
  cbv beta iota. rewrite filter_nobody.
  rewrite create_accepts_all.
  - reflexivity.
  - intros q [].
  - vm_compute. reflexivity.
  - apply distinct_emailsb_sound. vm_compute. reflexivity.
Qed.

(** The ages of a collection whose records all have one. *)
Lemma ages_all_given :
  forall l qs n t,
    map age l = map Some qs -> Person.ages (mkWorld l n t) = qs.
Proof.
  unfold Person.ages. cbn [docs].
  induction l as [|p l IH]; intros [|q qs] n t E; try discriminate;
    [reflexivity|].
  simpl in E. inversion E as [[Ep El]]. simpl. rewrite Ep. simpl.
  f_equal. now apply (IH qs n t).
Qed.

Lemma Qsum_insert_at :
  forall k x l, (Person.Qsum (Person.insert_at k x l) == x + Person.Qsum l)%Q.
Proof.
  induction k as [|k IH]; intros x [|y l]; simpl; try reflexivity.
  rewrite IH. ring.
Qed.

(** The order of arrival changes neither the sum nor the mean. *)
Lemma Qsum_arrival :
  forall sched l, (Person.Qsum (Person.arrival sched l) == Person.Qsum l)%Q.
Proof.
  intros sched l. revert sched.
  induction l as [|x l IH]; intros sched; simpl; [reflexivity|].
  rewrite Qsum_insert_at, IH. reflexivity.
Qed.

Lemma mean_arrival :
  forall sched l, (mean (Person.arrival sched l) == mean l)%Q.
Proof.
  intros sched l. unfold mean.
  pose proof (arrival_length Q sched l) as L.
  pose proof (Qsum_arrival sched l) as S.
  destruct (Person.arrival sched l) as [|y m], l as [|x l];
    try discriminate; [reflexivity|].
  rewrite S, L. reflexivity.
Qed.

Lemma averageAge_is_mean :
  forall w,
    (personService.averageAge (personService.getStats w)
     == mean (Person.ages w))%Q.
Proof.
  intros w. unfold personService.getStats, Person.aggregate_avgAge, mean.
  simpl. destruct (Person.ages w) as [|q l]; [reflexivity|].
  unfold truthy_number.
  destruct (Qeq_bool _ 0) eqn:Z; simpl; [|reflexivity].
  apply Qeq_bool_iff in Z. now rewrite Z.
Qed.

End Seeding.

(** C9.  [getStats] gives as [averageAge] the arithmetic mean of the ages
    that are not [null] (0 when there is none); and after seeding, whatever
    the collection held before and in whatever order the ten saves arrive,
    the ten sample people are stored (in the order of arrival, which is
    the order of the script when nothing overtakes) with the ten ages of
    the script, whose mean 34.5 is the [averageAge]. *)
Theorem seeded_average_age :
  forall (sched : list nat) (w : world),
    (personService.averageAge (personService.getStats w)
     == mean (Person.ages w))%Q
    /\ (exists people,
           fst (seed.seedDatabase sched w) = Resolved people
           /\ List.length people = 10
           /\ docs (snd (seed.seedDatabase sched w))
              = Person.arrival sched people
           /\ Permutation people (docs (snd (seed.seedDatabase sched w)))
           /\ docs (snd (seed.seedDatabase [] w)) = people)
    /\ Person.ages (snd (seed.seedDatabase sched w))
       = Person.arrival sched [28; 32; 45; 22; 38; 29; 51; 26; 33; 41]%Q
    /\ Person.ages (snd (seed.seedDatabase [] w))
       = [28; 32; 45; 22; 38; 29; 51; 26; 33; 41]%Q
    /\ (mean [28; 32; 45; 22; 38; 29; 51; 26; 33; 41] == 69 # 2)%Q
    /\ (personService.averageAge
          (personService.getStats (snd (seed.seedDatabase sched w)))
        == 69 # 2)%Q.
Proof.
  intros sched w.
  assert (A : forall sched,
             Person.ages (snd (seed.seedDatabase sched w))
             = Person.arrival sched
                 [28; 32; 45; 22; 38; 29; 51; 26; 33; 41]%Q).
  { intros s. rewrite seedDatabase_result. cbn [snd].
    apply ages_all_given. rewrite <- !arrival_map. reflexivity. }
  assert (M : (mean [28; 32; 45; 22; 38; 29; 51; 26; 33; 41] == 69 # 2)%Q)
    by (vm_compute; reflexivity).
  split; [apply averageAge_is_mean|].
  split; [|split; [apply A|split; [|split]]].
  - rewrite !seedDatabase_result. eexists.
    split; [reflexivity|]. split; [reflexivity|]. split; [reflexivity|].
    split; [apply arrival_perm|]. cbn [snd docs]. apply arrival_in_order.
  - rewrite A. apply arrival_in_order.
  - exact M.
  - rewrite averageAge_is_mean, A, mean_arrival. exact M.
Qed.

Section ChainedQuery.
Import Query.

(** Before 6.1.0 the two [select] calls of [findBurritoLovers] add up to
    one projection object. *)
Lemma chained_selects_fields :
  forall q,
    fields q = [] ->
    fields (select Before_6_1 "name favoriteFoods" (select Before_6_1 "-age" q))
    = [("age", false); ("name", true); ("favoriteFoods", true)].
Proof.
  intros q E. unfold select. cbn [fields]. rewrite E. reflexivity.
Qed.

(** From 6.1.0 on the second [select] goes against the first and leaves
    the projection as it was. *)
Lemma chained_selects_drop_inclusion :
  forall q,
    fields q = [] ->
    fields (select From_6_1 "name favoriteFoods" (select From_6_1 "-age" q))
    = [("age", false)].
Proof.
  intros q E. unfold select. cbn [fields]. rewrite E. reflexivity.
Qed.

Lemma exclusion_of_age_is_accepted :
  projection_kind [("age", false)] = Resolved (Some false).
Proof. reflexivity. Qed.

Lemma project_without_age :
  forall p,
    project (Some false) [("age", false)] (toObject p) = without_age p.
Proof.
  intros p. unfold toObject, without_age.
  destruct (name p), (email p); reflexivity.
Qed.

(** A record cut down to [_id], [name] and [favoriteFoods] has no other
    field; a record without its [age] only still has [isActive]. *)
Lemma name_and_favoriteFoods_only :
  forall p, only_name_and_favoriteFoods (name_and_favoriteFoods p).
Proof.
  intros p key. unfold name_and_favoriteFoods.
  destruct (name p); simpl; intuition.
Qed.

Lemma without_age_has_isActive :
  forall p, In "isActive" (map fst (without_age p)).
Proof.
  intros p. unfold without_age.
  destruct (name p), (email p); simpl; intuition.
Qed.

Lemma without_age_lacks_age :
  forall p, ~ In "age" (map fst (without_age p)).
Proof.
  intros p. unfold without_age.
  destruct (name p), (email p); simpl; intuition discriminate.
Qed.

Lemma without_age_not_only :
  forall p, ~ only_name_and_favoriteFoods (without_age p).
Proof.
  intros p H. destruct (H "isActive" (without_age_has_isActive p))
    as [E|[E|E]]; discriminate.
Qed.

Lemma firstn_2_nonempty :
  forall (l : list person) p, In p l -> firstn 2 l <> [].
Proof. intros [|q l] p I; [destruct I|discriminate]. Qed.

Lemma mixed_projection_is_refused :
  projection_kind [("age", false); ("name", true); ("favoriteFoods", true)]
  = Rejected ProjectionError.
Proof. reflexivity. Qed.

(** A query with a limit gives no more documents than the limit. *)
Lemma exec_limit_length :
  forall q n w l,
    limiting q = Some n -> exec q w = Resolved l -> List.length l <= n.
Proof.
  intros q n w l L. unfold exec. rewrite L.
  destruct (projection_kind (fields q)); [|discriminate].
  intros H. inversion H. rewrite length_map. simpl.
  apply firstn_le_length.
Qed.

Lemma name_leb_total :
  forall a b, name_leb a b = true \/ name_leb b a = true.
Proof.
  intros a b. unfold name_leb.
  destruct (name a) as [x|], (name b) as [y|]; auto.
  apply String.leb_total.
Qed.

Lemma insert_by_in :
  forall le p q l, In q (insert_by le p l) <-> q = p \/ In q l.
Proof.
  intros le p q. induction l as [|r l IH]; simpl.
  - intuition.
  - destruct (le p r); simpl; [intuition|]. rewrite IH. intuition.
Qed.

Lemma sort_by_in : forall le q l, In q (sort_by le l) <-> In q l.
Proof.
  intros le q. induction l as [|r l IH]; simpl; [tauto|].
  rewrite insert_by_in, IH. intuition.
Qed.

Lemma insert_by_sorted :
  forall p l, Sorted name_le l -> Sorted name_le (insert_by name_leb p l).
Proof.
  intros p. induction l as [|q l IH]; simpl; intros S.
  - repeat constructor.
  - destruct (name_leb p q) eqn:L.
    + constructor; [exact S|]. constructor. exact L.
    + inversion S as [|? ? S' H]; subst. constructor; [now apply IH|].
      assert (Q : name_le q p)
        by (destruct (name_leb_total p q); [congruence|assumption]).
      destruct l as [|r l]; simpl.
      * constructor. exact Q.
      * destruct (name_leb p r); constructor; [exact Q|].
        now inversion H.
Qed.

Lemma sort_by_sorted : forall l, Sorted name_le (sort_by name_leb l).
Proof.
  induction l as [|p l IH]; simpl; [constructor|].
  now apply insert_by_sorted.
Qed.

Lemma firstn_sorted :
  forall n l, Sorted name_le l -> Sorted name_le (firstn n l).
Proof.
  induction n as [|n IH]; intros l S; simpl; [constructor|].
  destruct l as [|p l]; [constructor|].
  inversion S as [|? ? S' H]; subst. constructor; [now apply IH|].
  destruct l as [|q l]; destruct n; simpl; constructor. now inversion H.
Qed.

Lemma in_firstn :
  forall n (l : list person) p, In p (firstn n l) -> In p l.
Proof.
  induction n as [|n IH]; intros [|q l] p; simpl; try tauto.
  intros [->|I]; auto.
Qed.

Lemma project_name_and_favoriteFoods :
  forall p,
    project (Some true) [("name", true); ("favoriteFoods", true)] (toObject p)
    = name_and_favoriteFoods p.
Proof.
  intros p. unfold toObject, name_and_favoriteFoods.
  destruct (name p), (email p); reflexivity.
Qed.

(** With the inclusion alone the chain does what is expected of
    [findBurritoLovers]: at most two records, those that like the food,
    in ascending order of name, each cut down to [_id], [name] and
    [favoriteFoods]. *)
Lemma inclusive_chain_meets_expectation :
  forall lib food w,
    exists ps,
      exec (select lib "name favoriteFoods"
              (limit 2 (sort (ByName true) (find (Person.by_food food)))))
           w
      = Resolved (map name_and_favoriteFoods ps)
      /\ List.length ps <= 2
      /\ Sorted name_le ps
      /\ forall p, In p ps -> In p (docs w) /\ likes (trim food) p = true.
Proof.
  intros lib food w.
  exists (firstn 2 (sort_by name_leb (filter (Person.by_food food) (docs w)))).
  split; [|split; [|split]].
  - unfold exec. destruct lib; simpl;
      apply f_equal, map_ext; exact project_name_and_favoriteFoods.
  - apply firstn_le_length.
  - apply firstn_sorted, sort_by_sorted.
  - intros p I. apply in_firstn, sort_by_in, filter_In in I. exact I.
Qed.

(** With the inclusion alone the chain gives, on the seeded collection,
    the two first burrito lovers by name, each with its [_id], [name]
    and [favoriteFoods]. *)
Lemma inclusive_chain_on_seed :
  exec (select From_6_1 "name favoriteFoods"
          (limit 2 (sort (ByName true) (find (Person.by_food "burrito")))))
       (snd (seed.seedDatabase [] empty_world))
  = Resolved
      [ [("_id", BObjectId 1); ("name", BString "Emma Johnson");
         ("favoriteFoods", BArray ["sushi"; "salad"; "burrito"])];
        [("_id", BObjectId 7); ("name", BString "Lisa Anderson");
         ("favoriteFoods", BArray ["burrito"; "nachos"; "guacamole"])] ].
Proof. vm_compute. reflexivity. Qed.

(** From 6.1.0 on the chain of [findBurritoLovers] is accepted, and
    cuts nothing but [age] out of the records. *)
Lemma findBurritoLovers_drops_inclusion :
  forall food w,
    personService.findBurritoLovers From_6_1 food w
    = Resolved
        (map without_age
             (firstn 2 (Query.sort_by
                          Query.name_leb
                          (filter (Person.by_food
                                     match food with
                                     | Some f => f
                                     | None => "burrito"
                                     end)
                                  (docs w))))).
Proof.
  intros food w. unfold personService.findBurritoLovers, Query.exec.
  rewrite chained_selects_drop_inclusion by reflexivity.
  rewrite exclusion_of_age_is_accepted.
  apply f_equal, map_ext. exact project_without_age.
Qed.

End ChainedQuery.

(** C1.  What [findBurritoLovers] does, whatever the food and the
    collection.  With a library before 6.1.0 the projection its two
    [select] calls build excludes [age] and includes [name] and
    [favoriteFoods] at once, the server refuses it, and the call rejects.
    With a library from 6.1.0 on the second [select] is left out: the
    call resolves with at most two records that like the food, in
    ascending order of name and without [age], but each of them keeps
    every other field, [isActive] among them.  So with either library,
    as soon as a record likes the food, the call does not resolve with
    records that contain only [name] and [favoriteFoods] besides the id. *)
Theorem findBurritoLovers_misses_its_projection :
  forall (food : option string) (w : world),
    let wanted := match food with Some f => f | None => "burrito" end in
    personService.findBurritoLovers Before_6_1 food w
    = Rejected ProjectionError
    /\ (exists ps,
           personService.findBurritoLovers From_6_1 food w
           = Resolved (map without_age ps)
           /\ List.length ps <= 2
           /\ Sorted name_le ps
           /\ (forall p, In p ps ->
                         In p (docs w) /\ likes (trim wanted) p = true)
           /\ (forall p, In p (docs w) -> likes (trim wanted) p = true ->
                         ps <> [])
           /\ (forall p, In p ps ->
                         ~ In "age" (map fst (without_age p))
                         /\ In "isActive" (map fst (without_age p))))
    /\ (forall lib p,
           In p (docs w) -> likes (trim wanted) p = true ->
           ~ exists ds,
               personService.findBurritoLovers lib food w = Resolved ds
               /\ forall d, In d ds -> only_name_and_favoriteFoods d).
Proof.
  intros food w wanted.
  assert (Old : personService.findBurritoLovers Before_6_1 food w
                = Rejected ProjectionError).
  { unfold personService.findBurritoLovers, Query.exec.
    rewrite chained_selects_fields by reflexivity.
    now rewrite mixed_projection_is_refused. }
  set (ps := firstn 2 (Query.sort_by Query.name_leb
                         (filter (Person.by_food wanted) (docs w)))).
  assert (New : personService.findBurritoLovers From_6_1 food w
                = Resolved (map without_age ps))
    by apply findBurritoLovers_drops_inclusion.
  assert (Some_found : forall p, In p (docs w) ->
                                 likes (trim wanted) p = true -> ps <> []).
  { intros p I L. apply (firstn_2_nonempty _ p).
    apply sort_by_in, filter_In. split; [exact I|exact L]. }
  split; [exact Old|]. split.
  - exists ps. split; [exact New|]. split; [apply firstn_le_length|].
    split; [apply firstn_sorted, sort_by_sorted|].
    split; [|split; [exact Some_found|]].
    + intros p I. apply in_firstn, sort_by_in, filter_In in I. exact I.
    + intros p _. split;
        [apply without_age_lacks_age|apply without_age_has_isActive].
  - intros lib p I L (ds & E & Only). destruct lib.
    + rewrite Old in E. discriminate.
    + rewrite New in E. inversion E; subst ds.
      pose proof (Some_found p I L) as N.
      destruct ps as [|p0 rest]; [now apply N|].
      apply (without_age_not_only p0), Only. now left.
Qed.

(** On the seeded collection the chain of [findBurritoLovers] gives, from
    6.1.0 on, the two first burrito lovers by name with every field but
    [age]. *)
Lemma findBurritoLovers_on_seed :
  personService.findBurritoLovers
    From_6_1 None (snd (seed.seedDatabase [] empty_world))
  = Resolved
      [ [("_id", Query.BObjectId 1); ("name", Query.BString "Emma Johnson");
         ("favoriteFoods", Query.BArray ["sushi"; "salad"; "burrito"]);
         ("email", Query.BString "emma.johnson@example.com");
         ("createdAt", Query.BDate 0); ("updatedAt", Query.BDate 0);
         ("isActive", Query.BBool true)];
        [("_id", Query.BObjectId 7); ("name", Query.BString "Lisa Anderson");
         ("favoriteFoods", Query.BArray ["burrito"; "nachos"; "guacamole"]);
         ("email", Query.BString "lisa.anderson@example.com");
         ("createdAt", Query.BDate 0); ("updatedAt", Query.BDate 0);
         ("isActive", Query.BBool true)] ].
Proof. vm_compute. reflexivity. Qed.

(** The driver, run on an empty collection with a library before 6.1.0,
    stops at its chained query. *)
Lemma demonstrateAllOperations_stops_at_chained_query :
  fst (index.demonstrateAllOperations Before_6_1 [] empty_world)
  = Rejected ProjectionError.
Proof. vm_compute. reflexivity. Qed.

(* ------------------------------------------------------------------ *)
(** ** The setters *)

Section Setters.

Lemma trimStart_clean : forall s, starts_clean (trimStart s) = true.
Proof.
  induction s as [|c s IH]; simpl; [reflexivity|].
  destruct (isSpace c) eqn:E; [exact IH|]. simpl. now rewrite E.
Qed.

Lemma trimStart_of_clean : forall s, starts_clean s = true -> trimStart s = s.
Proof.
  intros [|c s]; simpl; [reflexivity|].
  intros H. apply negb_true_iff in H. now rewrite H.
Qed.

Lemma trimEnd_clean :
  forall s, starts_clean s = true -> starts_clean (trimEnd s) = true.
Proof.
  intros [|c s]; simpl; [reflexivity|].
  intros H. apply negb_true_iff in H.
  destruct (trimEnd s); rewrite ?H; simpl; now rewrite H.
Qed.

Lemma trimEnd_trimEnd : forall s, trimEnd (trimEnd s) = trimEnd s.
Proof.
  induction s as [|c s IH]; simpl; [reflexivity|].
  destruct (trimEnd s) as [|d t] eqn:T.
  - destruct (isSpace c) eqn:E; simpl; [reflexivity|]. now rewrite E.
  - change (trimEnd (String c (String d t)))
      with (match trimEnd (String d t) with
            | EmptyString =>
                if isSpace c then EmptyString else String c EmptyString
            | u => String c u
            end).
    now rewrite IH.
Qed.

(** Trimming twice is trimming once. *)
Lemma trim_trim : forall s, trim (trim s) = trim s.
Proof.
  intros s. unfold trim.
  rewrite (trimStart_of_clean (trimEnd (trimStart s))).
  - apply trimEnd_trimEnd.
  - apply trimEnd_clean, trimStart_clean.
Qed.

Lemma toLowerChar_toLowerChar :
  forall c, toLowerChar (toLowerChar c) = toLowerChar c.
Proof. intros [[] [] [] [] [] [] [] []]; reflexivity. Qed.

Lemma isSpace_toLowerChar : forall c, isSpace (toLowerChar c) = isSpace c.
Proof. intros [[] [] [] [] [] [] [] []]; reflexivity. Qed.

Lemma toLowerCase_toLowerCase :
  forall s, toLowerCase (toLowerCase s) = toLowerCase s.
Proof.
  induction s as [|c s IH]; simpl; [reflexivity|].
  now rewrite toLowerChar_toLowerChar, IH.
Qed.

Lemma trimStart_toLowerCase :
  forall s, trimStart (toLowerCase s) = toLowerCase (trimStart s).
Proof.
  induction s as [|c s IH]; simpl; [reflexivity|].
  rewrite isSpace_toLowerChar. destruct (isSpace c); auto.
Qed.

Lemma trimEnd_toLowerCase :
  forall s, trimEnd (toLowerCase s) = toLowerCase (trimEnd s).
Proof.
  induction s as [|c s IH]; simpl; [reflexivity|].
  rewrite IH, isSpace_toLowerChar.
  destruct (trimEnd s); simpl; [destruct (isSpace c)|]; reflexivity.
Qed.

Lemma trim_toLowerCase : forall s, trim (toLowerCase s) = toLowerCase (trim s).
Proof.
  intros s. unfold trim.
  now rewrite trimStart_toLowerCase, trimEnd_toLowerCase.
Qed.

(** The email setter applied twice is the setter applied once. *)
Lemma set_email_set_email :
  forall s, Schema.set_email (Schema.set_email s) = Schema.set_email s.
Proof.
  intros s. unfold Schema.set_email.
  now rewrite <- trim_toLowerCase, trim_trim, toLowerCase_toLowerCase.
Qed.

End Setters.

(* ------------------------------------------------------------------ *)
(** ** What every operation keeps *)

Section WellFormed.
Import personService.

Lemma NoDup_app_one :
  forall (l : list nat) x, NoDup l -> ~ In x l -> NoDup (l ++ [x]).
Proof.
  induction l as [|y l IH]; simpl; intros x N I.
  - constructor; [tauto|constructor].
  - inversion N; subst. constructor.
    + intros J. apply in_app_or in J. destruct J as [J|[J|[]]]; auto.
    + apply IH; auto.
Qed.

Lemma NoDup_map_filter :
  forall (f : person -> bool) l,
    NoDup (map _id l) -> NoDup (map _id (filter f l)).
Proof.
  intros f. induction l as [|q l IH]; simpl; intros N; [constructor|].
  inversion N; subst. destruct (f q); simpl; auto.
  constructor; auto. intros I. apply in_map_iff in I.
  destruct I as (r & E & I). apply filter_In in I.
  apply H1. apply in_map_iff. exists r. tauto.
Qed.

Lemma NoDup_map_remove_first :
  forall (f : person -> bool) l,
    NoDup (map _id l) -> NoDup (map _id (remove_first f l)).
Proof.
  intros f. induction l as [|q l IH]; simpl; intros N; [constructor|].
  inversion N; subst. destruct (f q); simpl; auto.
  constructor; auto. intros I. apply in_map_iff in I.
  destruct I as (r & E & I). apply in_remove_first in I.
  apply H1. apply in_map_iff. exists r. tauto.
Qed.

(** Writing a record over the first match keeps the ids when it has the
    id of the record it replaces. *)
Lemma map_id_replace_first :
  forall (f : person -> bool) p' l p,
    List.find f l = Some p -> _id p' = _id p ->
    map _id (replace_first f p' l) = map _id l.
Proof.
  intros f p'. induction l as [|q l IH]; simpl; intros p F E; [discriminate|].
  destruct (f q).
  - inversion F; subst q. simpl. now rewrite E.
  - simpl. f_equal. eauto.
Qed.

Lemma record_ok_later :
  forall t t' q, t <= t' -> record_ok t q -> record_ok t' q.
Proof. unfold record_ok. intros t t' q L (V & C & U). repeat split; auto; lia. Qed.

(** The documents of a well-formed world with one of them rewritten. *)
Lemma well_formed_replace_first :
  forall (f : person -> bool) p p' w,
    well_formed w ->
    List.find f (docs w) = Some p ->
    _id p' = _id p ->
    record_ok (clock w) p' -> normalised p' ->
    well_formed (with_docs (replace_first f p' (docs w)) w).
Proof.
  intros f p p' w (B & N & S) F E R M. unfold well_formed. simpl.
  assert (I : In p (docs w)) by (apply find_some in F; tauto).
  split; [|split].
  - intros q J. simpl in J. apply in_replace_first in J.
    destruct J as [->|J]; [rewrite E|]; now apply B.
  - now rewrite (map_id_replace_first f p' (docs w) p F E).
  - intros q J. apply in_replace_first in J. destruct J as [->|J]; auto.
Qed.

Lemma well_formed_sublist :
  forall l w,
    well_formed w ->
    (forall q, In q l -> In q (docs w)) ->
    NoDup (map _id l) ->
    well_formed (with_docs l w).
Proof.
  intros l w (B & N & S) I D. unfold well_formed. simpl.
  split; [|split]; auto. intros q J. simpl in J. apply B. auto.
Qed.

Lemma new_normalised :
  forall d w, normalised (with_updatedAt (clock w) (fst (Person.new d w))).
Proof.
  intros d w. unfold normalised. simpl. split; [|split].
  - intros s. destruct (init_name d); try discriminate.
    intros H. inversion H. apply trim_trim.
  - intros s. destruct (init_email d); simpl; try discriminate.
    intros H. inversion H. apply set_email_set_email.
  - intros f. destruct (init_favoriteFoods d) as [l|]; [|intros []].
    intros H. apply in_map_iff in H. destruct H as (g & <- & _).
    apply trim_trim.
Qed.

(** Building a document and saving it keeps the world well formed. *)
Lemma well_formed_insert :
  forall d w,
    well_formed w ->
    well_formed
      (snd (Person.save true (fst (Person.new d w)) (snd (Person.new d w)))).
Proof.
  intros d w W.
  assert (W1 : well_formed (snd (Person.new d w))).
  { destruct W as (B & N & S). unfold well_formed. simpl.
    split; [|split]; auto. intros q I. apply B in I. simpl. lia. }
  destruct (Person.save true _ _) as [[p'|e] w2] eqn:H.
  - apply save_new_resolved in H. destruct H as (P & -> & V & _).
    destruct W as (B & N & S). unfold well_formed. simpl.
    assert (Ip : _id p' = next_id w) by (rewrite P; reflexivity).
    split; [|split].
    + intros q I. simpl in I |- *. apply in_app_or in I.
      destruct I as [I|[<-|[]]]; [apply B in I; lia|]. rewrite Ip. lia.
    + rewrite map_app. simpl. apply NoDup_app_one; [exact N|].
      rewrite Ip. intros I. apply in_map_iff in I.
      destruct I as (q & E & I). apply B in I. lia.
    + intros q I. apply in_app_or in I. destruct I as [I|[<-|[]]]; auto.
      split; [|rewrite P; exact (new_normalised d w)].
      unfold record_ok. rewrite P. simpl. repeat split; auto.
  - apply save_rejected_same_world in H. now subst.
Qed.

(** Saving a document that was built before, with an id drawn already. *)
Lemma well_formed_save_new :
  forall p w,
    well_formed w ->
    _id p < next_id w -> createdAt p <= clock w -> normalised p ->
    well_formed (snd (Person.save true p w)).
Proof.
  intros p w W L C M.
  destruct (Person.save true p w) as [[p'|e] w2] eqn:H.
  - apply save_new_resolved in H. destruct H as (P & -> & V & X).
    destruct W as (B & N & S). unfold well_formed. simpl.
    assert (Ip : _id p' = _id p) by (rewrite P; reflexivity).
    split; [|split].
    + intros q I. simpl in I |- *. apply in_app_or in I.
      destruct I as [I|[<-|[]]]; [now apply B|]. rewrite Ip. exact L.
    + rewrite map_app. simpl. apply NoDup_app_one; [exact N|].
      intros I. apply in_map_iff in I. destruct I as (q & E & I).
      unfold violated_index in X.
      destruct (existsb (has_id (_id p')) (docs w)) eqn:Y; [discriminate|].
      pose proof (existsb_false_forall _ _ Y q I) as Z.
      unfold has_id in Z. rewrite E, Nat.eqb_refl in Z. discriminate.
    + intros q I. apply in_app_or in I. destruct I as [I|[<-|[]]]; auto.
      split; [|rewrite P; exact M].
      unfold record_ok. rewrite P. simpl. repeat split; auto.
  - apply save_rejected_same_world in H. now subst.
Qed.

Lemma save_new_frame :
  forall p w,
    next_id (snd (Person.save true p w)) = next_id w
    /\ clock (snd (Person.save true p w)) = clock w.
Proof.
  intros p w. destruct (Person.save true p w) as [[p'|e] w2] eqn:H.
  - apply save_new_resolved in H. destruct H as (_ & -> & _). now split.
  - apply save_rejected_same_world in H. now subst.
Qed.

Lemma well_formed_save_each :
  forall l w,
    well_formed w ->
    (forall i p, In (i, p) l ->
                 _id p < next_id w /\ createdAt p <= clock w /\ normalised p) ->
    well_formed (snd (Person.save_each l w)).
Proof.
  induction l as [|[i p] l IH]; intros w W H; simpl; [exact W|].
  destruct (H i p (or_introl eq_refl)) as (L & C & M).
  pose proof (well_formed_save_new p w W L C M) as S.
  destruct (save_new_frame p w) as [Fn Fc].
  destruct (Person.save true p w) as [r w2]. cbn [snd] in *.
  assert (H2 : forall j q, In (j, q) l ->
                           _id q < next_id w2 /\ createdAt q <= clock w2
                           /\ normalised q).
  { intros j q I. rewrite Fn, Fc. apply (H j q). now right. }
  specialize (IH w2 S H2).
  destruct (Person.save_each l w2) as [rs w3]. exact IH.
Qed.

(** What [Person.create] builds: each document is a new one, with one of
    the next ids. *)
Lemma built_new :
  forall l i t p,
    In p (built l i t) ->
    exists d j,
      p = with_updatedAt t (fst (Person.new d (mkWorld [] j t)))
      /\ i <= j < i + List.length l.
Proof.
  induction l as [|d l IH]; intros i t p; simpl; [tauto|].
  intros [<-|I].
  - exists d, i. split; [reflexivity|lia].
  - destruct (IH (S i) t p I) as (d' & j & E & R).
    exists d', j. split; [exact E|lia].
Qed.

Lemma well_formed_create :
  forall sched l w,
    well_formed w -> well_formed (snd (Person.create sched l w)).
Proof.
  intros sched l w W. rewrite create_arrivals. cbv zeta.
  match goal with
  | |- context [Person.save_each ?a ?w1] =>
      assert (C : well_formed (snd (Person.save_each a w1)))
  end.
  { apply well_formed_save_each.
    - destruct W as (B & N & S). unfold well_formed. simpl.
      split; [|split]; auto. intros q I. apply B in I. simpl. lia.
    - intros i p I. apply arrivals_in in I.
      destruct (built_new _ _ _ _ I) as (d & j & -> & R).
      cbn [next_id clock]. split; [simpl; lia|]. split; [simpl; lia|].
      exact (new_normalised d (mkWorld [] j (clock w))). }
  destruct (Person.save_each _ _) as [rs w'].
  cbn [fst snd] in *. destruct (Person.first_error rs); exact C.
Qed.

(** Saving a loaded document back, when it kept the id and the creation
    time of the stored one. *)
Lemma well_formed_save_existing :
  forall p stored w,
    well_formed w ->
    List.find (has_id (_id p)) (docs w) = Some stored ->
    _id p = _id stored -> createdAt p = createdAt stored ->
    normalised p ->
    well_formed (snd (Person.save false p w)).
Proof.
  intros p stored w W F I C M. unfold Person.save.
  destruct (Schema.validate p) eqn:V; [|exact W].
  apply validate_nil_iff in V. rewrite F.
  destruct (_ && _)%bool; [exact W|]. simpl.
  apply (well_formed_replace_first _ stored); auto.
  destruct W as (_ & _ & S). apply find_some in F.
  destruct (S stored (proj1 F)) as [(_ & Cs & Us) _].
  unfold record_ok. simpl. rewrite C. repeat split; auto; lia.
Qed.

Lemma addToFavorites_entries :
  forall foods l f,
    In f (addToFavorites foods l) ->
    In f l \/ exists g, In g foods /\ f = trim g.
Proof.
  induction foods as [|food foods IH]; simpl; intros l f H; [now left|].
  apply IH in H. destruct H as [H|(g & G & E)]; [|right; eauto].
  destruct (negb (includes l food)); [|now left].
  apply in_app_or in H. destruct H as [H|[<-|[]]]; [now left|].
  right. exists food. split; [now left|reflexivity].
Qed.

Lemma applyUpdates_createdAt :
  forall u p, createdAt (applyUpdates u p) = createdAt p.
Proof.
  intros u p. unfold applyUpdates.
  destruct (upd_name u) as [| |[|c s]];
    destruct (upd_addToFavorites u), (upd_isActive u), (upd_email u),
      (upd_age u); reflexivity.
Qed.

Lemma applyUpdates_normalised :
  forall u p, normalised p -> normalised (applyUpdates u p).
Proof.
  intros u p (N & E & F). unfold applyUpdates, normalised.
  split; [|split].
  - intros s.
    destruct (upd_name u) as [| |[|c n]];
      destruct (upd_addToFavorites u), (upd_isActive u), (upd_email u),
        (upd_age u); simpl; auto;
      intros H; inversion H; apply trim_trim.
  - intros s.
    destruct (upd_name u) as [| |[|c n]];
      destruct (upd_addToFavorites u), (upd_isActive u), (upd_email u),
        (upd_age u); simpl; auto; try discriminate;
      intros H; inversion H; apply set_email_set_email.
  - intros f.
    assert (K : forall foods, In f (addToFavorites foods (favoriteFoods p)) ->
                              trim f = f).
    { intros foods H. apply addToFavorites_entries in H.
      destruct H as [H|(g & _ & ->)]; [auto|apply trim_trim]. }
    destruct (upd_name u) as [| |[|c n]];
      destruct (upd_addToFavorites u) as [foods|], (upd_isActive u),
        (upd_email u), (upd_age u); cbn [favoriteFoods with_favoriteFoods];
      try exact (K foods); exact (F f).
Qed.

Lemma in_remove_food :
  forall food f l, In f (Person.remove_food food l) -> In f l.
Proof.
  intros food f. induction l as [|x l IH]; simpl; [tauto|].
  destruct (String.eqb food x); simpl; intuition.
Qed.

Lemma well_formed_updatePersonClassic :
  forall i u w,
    well_formed w -> well_formed (snd (updatePersonClassic i u w)).
Proof.
  intros i u w W. unfold updatePersonClassic.
  destruct i as [i|]; [|exact W].
  destruct (Person.findById i w) as [p|] eqn:F; [|exact W].
  unfold Person.findById, Person.findOne in F.
  pose proof (find_has_id i (docs w) p F) as [Hi Ip].
  apply (well_formed_save_existing _ p).
  - exact W.
  - now rewrite applyUpdates_id, Hi.
  - apply applyUpdates_id.
  - apply applyUpdates_createdAt.
  - apply applyUpdates_normalised. destruct W as (_ & _ & S).
    now apply S.
Qed.

(** Every operation keeps the world well formed. *)
Lemma step_keeps_well_formed :
  forall w w', step w w' -> well_formed w -> well_formed w'.
Proof.
  intros w w' S W. destruct S.
  - unfold createAndSavePerson. destruct (negb _); [exact W|].
    match goal with
    | |- context [Person.new ?d w] =>
        pose proof (well_formed_insert d w W) as K
    end.
    destruct (Person.new _ w) as [doc w1]. exact K.
  - unfold createManyPeople. destruct l; [exact W|].
    now apply well_formed_create.
  - now apply well_formed_updatePersonClassic.
  - now apply well_formed_updatePersonClassic.
  - unfold findOneAndUpdateAge. destruct (negb _); [exact W|].
    unfold Person.findOneAndUpdate.
    destruct (Schema.valid_age _) eqn:V; [|exact W].
    destruct (Person.findOne _ w) as [p|] eqn:F; [|exact W].
    simpl. unfold Person.findOne in F.
    apply (well_formed_replace_first _ p); auto.
    + destruct W as (_ & _ & S). apply find_some in F.
      destruct (S p (proj1 F)) as [(Vp & C & U) _].
      unfold record_ok. simpl. repeat split; try lia.
      unfold Schema.is_valid in *. simpl. rewrite V.
      destruct (Schema.valid_name (name p)); [|discriminate].
      destruct (Schema.valid_age (age p)); [exact Vp|discriminate].
    + destruct W as (_ & _ & S). apply find_some in F.
      now destruct (S p (proj1 F)).
  - unfold deletePersonById. destruct i as [i|]; [|exact W].
    unfold Person.findByIdAndRemove.
    destruct (Person.findById i w); [|exact W]. simpl.
    apply well_formed_sublist; [exact W|intros q; apply in_remove_first|].
    apply NoDup_map_remove_first. now destruct W as (_ & N & _).
  - unfold deleteManyByName. destruct (negb _); [exact W|]. simpl.
    apply well_formed_sublist; [exact W| |].
    + intros q I. apply filter_In in I. tauto.
    + apply NoDup_map_filter. now destruct W as (_ & N & _).
  - unfold seed.seedDatabase, Person.deleteMany. cbv beta iota.
    apply well_formed_create.
    apply well_formed_sublist; [exact W| |].
    + intros q I. apply filter_In in I. tauto.
    + apply NoDup_map_filter. now destruct W as (_ & N & _).
  - unfold Person.addFavoriteFood. destruct (negb _); [|exact W].
    unfold Person.findById, Person.findOne in H.
    pose proof (find_has_id i (docs w) p H) as [Hi Ip].
    apply (well_formed_save_existing _ p); auto.
    + simpl. now rewrite Hi.
    + destruct W as (_ & _ & S). destruct (S p Ip) as [_ (N & E & F)].
      unfold normalised. simpl. repeat split; auto.
      intros f I. apply in_app_or in I.
      destruct I as [I|[<-|[]]]; [auto|apply trim_trim].
  - unfold Person.removeFavoriteFood. destruct (includes _ _); [|exact W].
    unfold Person.findById, Person.findOne in H.
    pose proof (find_has_id i (docs w) p H) as [Hi Ip].
    apply (well_formed_save_existing _ p); auto.
    + simpl. now rewrite Hi.
    + destruct W as (_ & _ & S). destruct (S p Ip) as [_ (N & E & F)].
      unfold normalised. simpl. repeat split; auto.
      intros f I. apply F. eapply in_remove_food; eauto.
  - destruct W as (B & N & S). unfold well_formed. simpl.
    split; [|split]; auto. intros q I. destruct (S q I) as [R M].
    split; [|exact M]. now apply (record_ok_later (clock w)).
Qed.

Lemma reachable_well_formed : forall w, reachable w -> well_formed w.
Proof.
  induction 1 as [|w w' R IH S].
  - unfold well_formed, empty_world. simpl.
    split; [intros q []|split; [constructor|intros q []]].
  - now apply (step_keeps_well_formed w w').
Qed.

End WellFormed.

(* ------------------------------------------------------------------ *)
(** ** Looking records up and deleting them by id *)

Section ById.

Lemma find_unique_id :
  forall l p,
    NoDup (map _id l) -> In p l -> List.find (has_id (_id p)) l = Some p.
Proof.
  induction l as [|q l IH]; simpl; intros p N I; [destruct I|].
  inversion N as [|? ? Hq N']; subst. unfold has_id at 1.
  destruct (_id q =? _id p) eqn:E.
  - destruct I as [->|I]; [reflexivity|].
    apply Nat.eqb_eq in E. exfalso. apply Hq. rewrite E.
    now apply in_map.
  - destruct I as [->|I]; [rewrite Nat.eqb_refl in E; discriminate|].
    now apply IH.
Qed.

Lemma find_none_forall :
  forall (f : person -> bool) l,
    (forall q, In q l -> f q = false) -> List.find f l = None.
Proof.
  intros f. induction l as [|q l IH]; simpl; intros H; [reflexivity|].
  rewrite (H q) by now left. apply IH. intros r I. apply H. now right.
Qed.

Lemma remove_first_length :
  forall (f : person -> bool) l p,
    List.find f l = Some p ->
    S (List.length (remove_first f l)) = List.length l.
Proof.
  intros f. induction l as [|q l IH]; simpl; intros p F; [discriminate|].
  destruct (f q); simpl; [reflexivity|]. f_equal. eauto.
Qed.

(** With unique ids, taking out the first record of an id takes out every
    record of that id and nothing else. *)
Lemma remove_first_unique_id :
  forall i l q,
    NoDup (map _id l) ->
    (In q (remove_first (has_id i) l) <-> In q l /\ _id q <> i).
Proof.
  intros i. induction l as [|r l IH]; simpl; intros q N; [tauto|].
  inversion N as [|? ? Hr N']; subst. unfold has_id at 1.
  destruct (_id r =? i) eqn:E.
  - apply Nat.eqb_eq in E. split.
    + intros I. split; [now right|]. intros Q. apply Hr.
      rewrite E, <- Q. now apply in_map.
    + intros [[->|I] Q]; [congruence|exact I].
  - apply Nat.eqb_neq in E. simpl. rewrite (IH q N'). split.
    + intros [->|[I Q]]; auto.
    + intros [[->|I] Q]; auto.
Qed.

Lemma remove_first_app_fresh :
  forall (f : person -> bool) l p,
    existsb f l = false -> f p = true -> remove_first f (l ++ [p]) = l.
Proof.
  intros f l p. induction l as [|q l IH]; simpl; intros X F.
  - now rewrite F.
  - apply orb_false_iff in X. destruct X as [Q X]. rewrite Q.
    f_equal. auto.
Qed.

End ById.

(** X1.  In a collection the operations can reach, [findPersonById] finds
    every stored record under its own id; on an id that no record has it
    resolves with [null] and does not fail; a falsy id is rejected. *)
Theorem findPersonById_finds_stored_records :
  forall w : world,
    reachable w ->
    (forall p,
        In p (docs w) ->
        personService.findPersonById (Some (_id p)) w = Resolved (Some p))
    /\ (forall i,
           (forall q, In q (docs w) -> _id q <> i) ->
           personService.findPersonById (Some i) w = Resolved None)
    /\ personService.findPersonById None w
       = Rejected (Error "personId is required").
Proof.
  intros w R. destruct (reachable_well_formed w R) as (_ & N & _).
  split; [|split; [|reflexivity]].
  - intros p I. unfold personService.findPersonById, Person.findById,
      Person.findOne. now rewrite find_unique_id.
  - intros i H. unfold personService.findPersonById, Person.findById,
      Person.findOne. rewrite find_none_forall; [reflexivity|].
    intros q I. apply Nat.eqb_neq. now apply H.
Qed.

(** The record of John Doe is found under the id 0, nothing under 5. *)
Lemma findPersonById_finds_stored_records_witness :
  let w := snd (personService.createAndSavePerson index.johnDoe empty_world) in
  let p := mkPerson 0 (Some "John Doe") (Some 30%Q) ["pizza"; "pasta"]
                    (Val "john@example.com") 0 0 true in
  personService.findPersonById (Some 0) w = Resolved (Some p)
  /\ personService.findPersonById (Some 5) w = Resolved None.
Proof.
  intros w p.
  assert (R : reachable w)
    by (apply reachable_step with (w := empty_world);
        [apply reachable_empty|apply step_createAndSavePerson]).
  destruct (findPersonById_finds_stored_records w R) as (Found & Absent & _).
  split.
  - apply (Found p). vm_compute. left. reflexivity.
  - apply (Absent 5). vm_compute. intros q [<-|[]]. discriminate.
Defined.

(** X2.  A record that [createAndSavePerson] resolved with is the one
    record added, at the end of the collection; it carries the name
    trimmed, the email lower-cased and trimmed (or [null]), the favorites
    trimmed, and [isActive] true unless it was given; and both
    [findPersonById] on its id and [findPeopleByName] on the name as it
    was given find it. *)
Theorem createAndSavePerson_round_trip :
  forall (pd : personService.PersonData) (w : world) (p : person) (w' : world),
    personService.createAndSavePerson pd w = (Resolved p, w') ->
    docs w' = (docs w ++ [p])%list
    /\ personService.findPersonById (Some (_id p)) w' = Resolved (Some p)
    /\ (exists s,
           personService.pd_name pd = Val s /\ s <> ""
           /\ name p = Some (trim s)
           /\ exists l, personService.findPeopleByName s w' = Resolved l
                        /\ In p l)
    /\ (email p = Null
        \/ exists e, personService.pd_email pd = Val e
                     /\ email p = Val (trim (toLowerCase e)))
    /\ favoriteFoods p
       = match personService.pd_favoriteFoods pd with
         | Some l => map trim l
         | None => []
         end
    /\ isActive p
       = match personService.pd_isActive pd with
         | Some b => b
         | None => true
         end.
Proof.
  intros pd w p w' H.
  unfold personService.createAndSavePerson in H.
  destruct (personService.pd_name pd) as [| |[|c s]] eqn:N;
    try discriminate.
  simpl negb in H. cbv iota in H. unfold Person.new in H.
  pose proof (inserted_is_found _ _ _ _ H) as F.
  apply save_new_resolved in H. destruct H as (P & W & _ & _).
  assert (D : docs w' = (docs w ++ [p])%list) by (rewrite W; reflexivity).
  split; [exact D|]. split; [|split; [|split; [|split]]].
  - unfold personService.findPersonById. now rewrite F.
  - exists (String c s). split; [reflexivity|]. split; [discriminate|].
    assert (Np : name p = Some (trim (String c s)))
      by (rewrite P; reflexivity).
    split; [exact Np|].
    eexists. split; [reflexivity|]. unfold Person.find. apply filter_In.
    split.
    + rewrite D. apply in_or_app. right. now left.
    + apply has_name_iff. exact Np.
  - rewrite P. simpl.
    destruct (personService.pd_email pd) as [| |[|d e]]; simpl; auto.
    right. eexists. split; reflexivity.
  - rewrite P. simpl.
    now destruct (personService.pd_favoriteFoods pd).
  - rewrite P. simpl. now destruct (personService.pd_isActive pd).
Qed.

(** Jane Roe, given with white space and capitals, comes back normalised. *)
Lemma createAndSavePerson_round_trip_witness :
  let pd := personService.mkData (Val "  Jane Roe ") personService.AgeUndefined
                                 (Some [" tea "]) (Val " Jane@Roe.ORG") None in
  exists p w',
    personService.createAndSavePerson pd empty_world = (Resolved p, w')
    /\ docs w' = [p]
    /\ personService.findPersonById (Some (_id p)) w' = Resolved (Some p)
    /\ favoriteFoods p = ["tea"].
Proof.
  intros pd.
  assert (H : personService.createAndSavePerson pd empty_world
              = (Resolved (mkPerson 0 (Some "Jane Roe") None ["tea"]
                                    (Val "jane@roe.org") 0 0 true),
                 mkWorld [mkPerson 0 (Some "Jane Roe") None ["tea"]
                                   (Val "jane@roe.org") 0 0 true] 1 0))
    by (vm_compute; reflexivity).
  destruct (createAndSavePerson_round_trip pd empty_world _ _ H)
    as (D & F & _ & _ & L & _).
  do 2 eexists. split; [exact H|]. split; [exact D|]. split; [exact F|].
  exact L.
Defined.

(** X3.  Deleting by id the record that [createAndSavePerson] has just
    inserted gives that record back and leaves the collection as it was
    before the insert. *)
Theorem insert_then_delete_restores_collection :
  forall (pd : personService.PersonData) (w : world) (p : person) (w1 : world),
    personService.createAndSavePerson pd w = (Resolved p, w1) ->
    fst (personService.deletePersonById (Some (_id p)) w1) = Resolved (Some p)
    /\ docs (snd (personService.deletePersonById (Some (_id p)) w1)) = docs w.
Proof.
  intros pd w p w1 H.
  unfold personService.createAndSavePerson in H.
  destruct (negb _); [discriminate|]. unfold Person.new in H.
  pose proof (inserted_is_found _ _ _ _ H) as F.
  apply save_new_resolved in H. destruct H as (_ & W & _ & X).
  unfold personService.deletePersonById, Person.findByIdAndRemove.
  rewrite F. simpl. split; [reflexivity|].
  rewrite W. simpl. unfold violated_index in X.
  destruct (existsb (has_id (_id p)) _) eqn:E; [discriminate|].
  apply remove_first_app_fresh; [exact E|apply Nat.eqb_refl].
Qed.

(** Step 8 of the driver, next to John Doe. *)
Lemma insert_then_delete_restores_collection_witness :
  let w := snd (personService.createAndSavePerson index.johnDoe empty_world) in
  exists p w1,
    personService.createAndSavePerson index.tempPerson w = (Resolved p, w1)
    /\ docs (snd (personService.deletePersonById (Some (_id p)) w1)) = docs w.
Proof.
  intros w.
  assert (H : personService.createAndSavePerson index.tempPerson w
              = (Resolved (mkPerson 1 (Some "Temp Person") (Some 99%Q)
                                    ["test food"] Null 0 0 true),
                 mkWorld [mkPerson 0 (Some "John Doe") (Some 30%Q)
                                   ["pizza"; "pasta"] (Val "john@example.com")
                                   0 0 true;
                          mkPerson 1 (Some "Temp Person") (Some 99%Q)
                                   ["test food"] Null 0 0 true] 2 0))
    by (vm_compute; reflexivity).
  do 2 eexists. split; [exact H|].
  apply (insert_then_delete_restores_collection _ _ _ _ H).
Defined.

(** X4.  In a collection the operations can reach, [deletePersonById] on
    the id of a stored record resolves with that record and removes it and
    no other: the records with another id stay, the collection is one
    shorter, and afterwards neither [findPersonById] nor a second delete
    finds anything under the id. *)
Theorem deletePersonById_removes_the_record :
  forall w : world,
    reachable w ->
    forall p,
      In p (docs w) ->
      exists w',
        personService.deletePersonById (Some (_id p)) w = (Resolved (Some p), w')
        /\ (forall q, In q (docs w') <-> In q (docs w) /\ _id q <> _id p)
        /\ S (List.length (docs w')) = List.length (docs w)
        /\ personService.findPersonById (Some (_id p)) w' = Resolved None
        /\ personService.deletePersonById (Some (_id p)) w'
           = (Resolved None, w').
Proof.
  intros w R p I. destruct (reachable_well_formed w R) as (_ & N & _).
  pose proof (find_unique_id (docs w) p N I) as F.
  unfold personService.deletePersonById, personService.findPersonById,
    Person.findByIdAndRemove, Person.findById, Person.findOne.
  rewrite F. eexists. split; [reflexivity|]. simpl.
  assert (G : List.find (has_id (_id p))
                        (remove_first (has_id (_id p)) (docs w)) = None).
  { apply find_none_forall. intros q J.
    apply remove_first_unique_id in J; [|exact N].
    apply Nat.eqb_neq. tauto. }
  split; [|split; [|split]].
  - intros q. now apply remove_first_unique_id.
  - now apply remove_first_length with (p := p).
  - now rewrite G.
  - now rewrite G.
Qed.

(** John Doe, alone in the collection, is deleted by his id. *)
Lemma deletePersonById_removes_the_record_witness :
  let w := snd (personService.createAndSavePerson index.johnDoe empty_world) in
  exists p w',
    personService.deletePersonById (Some 0) w = (Resolved (Some p), w')
    /\ personService.findPersonById (Some 0) w' = Resolved None.
Proof.
  intros w.
  assert (R : reachable w)
    by (apply reachable_step with (w := empty_world);
        [apply reachable_empty|apply step_createAndSavePerson]).
  destruct (deletePersonById_removes_the_record
              w R
              (mkPerson 0 (Some "John Doe") (Some 30%Q) ["pizza"; "pasta"]
                        (Val "john@example.com") 0 0 true))
    as (w' & D & _ & _ & F & _).
  - vm_compute. left. reflexivity.
  - exists (mkPerson 0 (Some "John Doe") (Some 30%Q) ["pizza"; "pasta"]
                     (Val "john@example.com") 0 0 true), w'.
    split; [exact D|exact F].
Defined.

(* ------------------------------------------------------------------ *)
(** ** What the schema lets into the collection *)

Section Accepted.
Import RegExp.

Lemma matches_Class_Cat :
  forall q r s,
    matches (Cat (Class q) r) s
    <-> exists c t, s = String c t /\ q c = true /\ matches r t.
Proof.
  intros q r s. split.
  - intros H. apply matches_Cat_inv in H.
    destruct H as (s1 & s2 & -> & H1 & H2). inversion H1; subst.
    exists c, s2. auto.
  - intros (c & t & -> & Q & H).
    change (String c t) with (String c "" ++ t)%string.
    constructor; [now constructor|exact H].
Qed.

Lemma matches_AtMost_Class :
  forall q n s,
    matches (AtMost n (Class q)) s
    <-> String.length s <= n /\ all_chars q s = true.
Proof.
  intros q. induction n as [|n IH]; intros s; simpl.
  - split.
    + intros H. apply matches_Eps in H. subst. simpl. auto.
    + intros [L _]. destruct s; simpl in L; [constructor|lia].
  - unfold Opt. split.
    + intros H. apply matches_Alt_inv in H. destruct H as [H|H].
      * apply matches_Eps in H. subst. simpl. split; [lia|reflexivity].
      * apply matches_Class_Cat in H. destruct H as (c & t & -> & Q & H).
        apply IH in H. simpl. rewrite Q. split; [lia|tauto].
    + intros [L A]. destruct s as [|c t].
      * apply matches_alt_l. constructor.
      * simpl in L, A. apply andb_true_iff in A.
        apply matches_alt_r, matches_Class_Cat. exists c, t.
        repeat split; try tauto. apply IH. split; [lia|tauto].
Qed.

(** A bounded repetition of one class takes the strings of the class
    whose length is within the bounds. *)
Lemma matches_Repeat_Class :
  forall q lo n s,
    matches (Repeat lo n (Class q)) s
    <-> (lo <= String.length s <= lo + n) /\ all_chars q s = true.
Proof.
  intros q. induction lo as [|lo IH]; intros n s; simpl.
  - rewrite matches_AtMost_Class. intuition lia.
  - rewrite matches_Class_Cat. split.
    + intros (c & t & -> & Q & H). apply IH in H. simpl. rewrite Q.
      intuition lia.
    + intros [L A]. destruct s as [|c t]; simpl in L, A; [lia|].
      apply andb_true_iff in A. exists c, t. repeat split; try tauto.
      apply IH. intuition lia.
Qed.

(** The names the schema accepts: two to a hundred letters and white
    spaces. *)
Lemma valid_name_iff :
  forall s,
    Schema.valid_name (Some s) = true
    <-> (2 <= String.length s <= 100) /\ all_chars Schema.nameChar s = true.
Proof.
  intros s. unfold Schema.valid_name.
  rewrite !andb_true_iff, !Nat.leb_le, test_matches.
  unfold Schema.nameRegExp. rewrite matches_Repeat_Class. split.
  - tauto.
  - intros [L A]. repeat split; try tauto; try lia.
    destruct s; simpl in *; [lia|reflexivity].
Qed.

Lemma trim_of_spaces :
  forall s, all_chars isSpace s = true -> trim s = "".
Proof.
  intros s H. unfold trim.
  replace (trimStart s) with ""; [reflexivity|].
  induction s as [|c s IH]; simpl in *; [reflexivity|].
  apply andb_true_iff in H. destruct H as [C H]. rewrite C. auto.
Qed.

Lemma some_char_false_trimStart :
  forall q s, some_char q s = false -> some_char q (trimStart s) = false.
Proof.
  intros q. induction s as [|c s IH]; simpl; intros H; [reflexivity|].
  apply orb_false_iff in H. destruct H as [C H].
  destruct (isSpace c); [auto|]. simpl. now rewrite C, H.
Qed.

Lemma some_char_false_trimEnd :
  forall q s, some_char q s = false -> some_char q (trimEnd s) = false.
Proof.
  intros q. induction s as [|c s IH]; simpl; intros H; [reflexivity|].
  apply orb_false_iff in H. destruct H as [C H]. specialize (IH H).
  destruct (trimEnd s); [destruct (isSpace c)|]; simpl in *;
    rewrite ?C, ?IH; reflexivity.
Qed.

Lemma isUpper_toLowerChar : forall c, isUpper (toLowerChar c) = false.
Proof. intros [[] [] [] [] [] [] [] []]; reflexivity. Qed.

Lemma toLowerCase_no_capital :
  forall s, some_char isUpper (toLowerCase s) = false.
Proof.
  induction s as [|c s IH]; simpl; [reflexivity|].
  now rewrite isUpper_toLowerChar, IH.
Qed.

Lemma set_email_no_capital :
  forall s, some_char isUpper (Schema.set_email s) = false.
Proof.
  intros s. unfold Schema.set_email, trim.
  apply some_char_false_trimEnd, some_char_false_trimStart,
    toLowerCase_no_capital.
Qed.

Lemma is_valid_parts :
  forall q,
    Schema.is_valid q = true ->
    Schema.valid_name (name q) = true
    /\ Schema.valid_age (age q) = true
    /\ Schema.valid_favoriteFoods (favoriteFoods q) = true
    /\ Schema.valid_email (email q) = true.
Proof.
  unfold Schema.is_valid. intros q H.
  repeat (apply andb_true_iff in H; destruct H as [H ?]). auto.
Qed.

End Accepted.

(** X5.  Every record of a collection the operations can reach is as the
    schema wants it: a name of two to a hundred letters and white spaces
    with none at either end, an age that is [null] or from 0 to 120, and
    at most twenty favorites, each of two to fifty characters, trimmed. *)
Theorem stored_records_satisfy_the_schema :
  forall w : world,
    reachable w ->
    forall q,
      In q (docs w) ->
      (exists n,
          name q = Some n
          /\ 2 <= String.length n <= 100
          /\ all_chars Schema.nameChar n = true
          /\ trim n = n)
      /\ (forall a, age q = Some a -> (0 <= a <= 120)%Q)
      /\ List.length (favoriteFoods q) <= 20
      /\ (forall f, In f (favoriteFoods q) ->
                    2 <= String.length f <= 50 /\ trim f = f).
Proof.
  intros w R q I.
  destruct (reachable_well_formed w R) as (_ & _ & S).
  destruct (S q I) as [(V & _) (Nn & _ & Nf)].
  apply is_valid_parts in V. destruct V as (Vn & Va & Vf & _).
  split; [|split; [|split]].
  - destruct (name q) as [n|] eqn:E; [|discriminate].
    apply valid_name_iff in Vn. exists n. intuition.
  - intros a E. rewrite E in Va. simpl in Va.
    apply andb_true_iff in Va. now rewrite !Qle_bool_iff in Va.
  - unfold Schema.valid_favoriteFoods in Vf. apply andb_true_iff in Vf.
    now apply Nat.leb_le.
  - intros f J. unfold Schema.valid_favoriteFoods in Vf.
    apply andb_true_iff in Vf. destruct Vf as [_ Vf].
    rewrite forallb_forall in Vf. specialize (Vf f J).
    unfold Schema.valid_food in Vf. apply andb_true_iff in Vf.
    rewrite !Nat.leb_le in Vf. split; [exact Vf|now apply Nf].
Qed.

(** The stored John Doe. *)
Lemma stored_records_satisfy_the_schema_witness :
  let w := snd (personService.createAndSavePerson index.johnDoe empty_world) in
  let q := mkPerson 0 (Some "John Doe") (Some 30%Q) ["pizza"; "pasta"]
                    (Val "john@example.com") 0 0 true in
  In q (docs w)
  /\ List.length (favoriteFoods q) <= 20
  /\ forall a, age q = Some a -> (0 <= a <= 120)%Q.
Proof.
  intros w q.
  assert (R : reachable w)
    by (apply reachable_step with (w := empty_world);
        [apply reachable_empty|apply step_createAndSavePerson]).
  assert (I : In q (docs w)) by (vm_compute; left; reflexivity).
  destruct (stored_records_satisfy_the_schema w R q I) as (_ & A & L & _).
  split; [exact I|]. split; [exact L|exact A].
Defined.

(** X6.  In a collection the operations can reach, every record was
    created no later than it was last updated, and last updated no later
    than the present time. *)
Theorem timestamps_are_ordered :
  forall w : world,
    reachable w ->
    forall q, In q (docs w) ->
              createdAt q <= updatedAt q /\ updatedAt q <= clock w.
Proof.
  intros w R q I.
  destruct (reachable_well_formed w R) as (_ & _ & S).
  destruct (S q I) as [(_ & C & U) _]. auto.
Qed.

(** John Doe, inserted at time 0 and given the age 31 at time 5. *)
Lemma timestamps_are_ordered_witness :
  let w0 := snd (personService.createAndSavePerson index.johnDoe empty_world) in
  let w1 := mkWorld (docs w0) (next_id w0) 5 in
  let u := personService.mkUpdates Undefined (Val 31%Q) Undefined None None in
  let w2 := snd (personService.updatePersonClassic (Some 0) u w1) in
  let q := mkPerson 0 (Some "John Doe") (Some 31%Q) ["pizza"; "pasta"]
                    (Val "john@example.com") 0 5 true in
  In q (docs w2) /\ createdAt q <= updatedAt q /\ updatedAt q <= clock w2.
Proof.
  intros w0 w1 u w2 q.
  assert (R : reachable w2).
  { apply reachable_step with (w := w1);
      [|apply step_updatePersonClassic].
    apply reachable_step with (w := w0);
      [|apply step_tick; vm_compute; lia].
    apply reachable_step with (w := empty_world);
      [apply reachable_empty|apply step_createAndSavePerson]. }
  assert (I : In q (docs w2)) by (vm_compute; left; reflexivity).
  split; [exact I|]. exact (timestamps_are_ordered w2 R q I).
Defined.

(** X7.  In a collection the operations can reach, a stored email is what
    the setters leave unchanged: it has no capital letter and no white
    space at either end, and unless it is empty it matches the pattern of
    the schema. *)
Theorem stored_emails_are_normalised :
  forall w : world,
    reachable w ->
    forall q e,
      In q (docs w) -> email q = Val e ->
      trim (toLowerCase e) = e
      /\ some_char isUpper e = false
      /\ trim e = e
      /\ (e = "" \/ RegExp.test Schema.emailRegExp e = true).
Proof.
  intros w R q e I E.
  destruct (reachable_well_formed w R) as (_ & _ & S).
  destruct (S q I) as [(V & _) (_ & Ne & _)].
  specialize (Ne e E). unfold Schema.set_email in Ne.
  apply is_valid_parts in V. destruct V as (_ & _ & _ & Ve).
  split; [exact Ne|]. split; [|split].
  - rewrite <- Ne. apply set_email_no_capital.
  - rewrite <- Ne. apply trim_trim.
  - rewrite E in Ve. simpl in Ve. destruct e; [now left|now right].
Qed.

(** The email given as John@Example.COM with spaces around it. *)
Lemma stored_emails_are_normalised_witness :
  let pd := personService.mkData (Val "John Doe") personService.AgeNull None
                                 (Val "  John@Example.COM ") None in
  let w := snd (personService.createAndSavePerson pd empty_world) in
  let q := mkPerson 0 (Some "John Doe") None [] (Val "john@example.com")
                    0 0 true in
  In q (docs w) /\ some_char isUpper "john@example.com" = false.
Proof.
  intros pd w q.
  assert (R : reachable w)
    by (apply reachable_step with (w := empty_world);
        [apply reachable_empty|apply step_createAndSavePerson]).
  assert (I : In q (docs w)) by (vm_compute; left; reflexivity).
  split; [exact I|].
  apply (stored_emails_are_normalised w R q "john@example.com" I eq_refl).
Defined.

(** X8.  In a collection the operations can reach, [findPeopleByName] on
    the name of a stored record resolves with a list that holds the
    record, and holds records of that name only. *)
Theorem findPeopleByName_finds_stored_names :
  forall w : world,
    reachable w ->
    forall p n,
      In p (docs w) -> name p = Some n ->
      exists l,
        personService.findPeopleByName n w = Resolved l
        /\ In p l
        /\ forall q, In q l -> In q (docs w) /\ name q = Some n.
Proof.
  intros w R p n I E.
  destruct (reachable_well_formed w R) as (_ & _ & S).
  destruct (S p I) as [(V & _) (Nn & _)].
  apply is_valid_parts in V. destruct V as (Vn & _).
  rewrite E in Vn. apply valid_name_iff in Vn. destruct Vn as [L _].
  specialize (Nn n E).
  unfold personService.findPeopleByName.
  destruct n as [|c n]; [simpl in L; lia|]. simpl negb. cbv iota.
  eexists. split; [reflexivity|].
  unfold Person.find, Person.by_name, Schema.set_name. rewrite Nn. split.
  - apply filter_In. split; [exact I|]. now apply has_name_iff.
  - intros q J. apply filter_In in J. destruct J as [J H].
    split; [exact J|]. now apply has_name_iff.
Qed.

(** Mary Wilson among the five people of the driver. *)
Lemma findPeopleByName_finds_stored_names_witness :
  let w := snd (personService.createManyPeople [] index.fivePeople empty_world) in
  let p := mkPerson 3 (Some "Mary Wilson") (Some 40%Q) ["steak"; "potatoes"]
                    (Val "mary@example.com") 0 0 true in
  exists l, personService.findPeopleByName "Mary Wilson" w = Resolved l
            /\ In p l.
Proof.
  intros w p.
  assert (R : reachable w)
    by (apply reachable_step with (w := empty_world);
        [apply reachable_empty|apply step_createManyPeople]).
  destruct (findPeopleByName_finds_stored_names w R p "Mary Wilson")
    as (l & F & I & _).
  - vm_compute. do 3 right. left. reflexivity.
  - reflexivity.
  - exists l. split; [exact F|exact I].
Defined.

(* ------------------------------------------------------------------ *)
(** ** The statistics *)

Section Statistics.

Lemma Qsum_bounds :
  forall l,
    (forall a, In a l -> (0 <= a <= 120)%Q) ->
    (0 <= Person.Qsum l
     /\ Person.Qsum l <= 120 * inject_Z (Z.of_nat (List.length l)))%Q.
Proof.
  induction l as [|a l IH]; intros H.
  - unfold Person.Qsum. cbn [fold_right List.length Z.of_nat].
    change (inject_Z 0) with 0%Q. split; lra.
  - destruct IH as [L U]; [intros b I; apply H; now right|].
    destruct (H a (or_introl eq_refl)) as [La Ua].
    change (Person.Qsum (a :: l)) with (a + Person.Qsum l)%Q.
    cbn [List.length].
    rewrite Nat2Z.inj_succ, <- Z.add_1_r, inject_Z_plus.
    change (inject_Z 1) with 1%Q. split; lra.
Qed.

Lemma mean_bounds :
  forall l,
    (forall a, In a l -> (0 <= a <= 120)%Q) -> (0 <= mean l <= 120)%Q.
Proof.
  intros [|a l] H; [unfold mean; split; lra|].
  destruct (Qsum_bounds (a :: l) H) as [L U].
  unfold mean.
  assert (P : (0 < inject_Z (Z.of_nat (List.length (a :: l))))%Q).
  { unfold Qlt. simpl. lia. }
  split.
  - apply Qle_shift_div_l; [exact P|]. lra.
  - apply Qle_shift_div_r; [exact P|exact U].
Qed.

Lemma in_ages :
  forall w a, In a (Person.ages w) ->
              exists q, In q (docs w) /\ age q = Some a.
Proof.
  intros w a H. unfold Person.ages in H. apply in_flat_map in H.
  destruct H as (q & I & J). exists q. split; [exact I|].
  destruct (age q); simpl in J; [|destruct J].
  destruct J as [->|[]]. reflexivity.
Qed.

Lemma filter_length_le :
  forall (f : person -> bool) l,
    List.length (filter f l) <= List.length l.
Proof.
  intros f. induction l as [|q l IH]; simpl; [lia|].
  destruct (f q); simpl; lia.
Qed.

Lemma filter_everyone :
  forall l : list person, filter Person.everyone l = l.
Proof. induction l; simpl; congruence. Qed.

End Statistics.

(** X9.  On a collection the operations can reach, [getStats] counts every
    record as [totalPeople], no more of them as [activePeople], and gives
    an [averageAge] from 0 to 120, which is 0 when no record has an age. *)
Theorem getStats_is_within_bounds :
  forall w : world,
    reachable w ->
    personService.totalPeople (personService.getStats w)
    = List.length (docs w)
    /\ personService.activePeople (personService.getStats w)
       <= personService.totalPeople (personService.getStats w)
    /\ (0 <= personService.averageAge (personService.getStats w) <= 120)%Q
    /\ (Person.ages w = [] ->
        personService.averageAge (personService.getStats w) = 0%Q).
Proof.
  intros w R.
  assert (T : personService.totalPeople (personService.getStats w)
              = List.length (docs w)).
  { unfold personService.getStats, Person.countDocuments. simpl.
    now rewrite filter_everyone. }
  split; [exact T|]. split; [|split].
  - rewrite T. unfold personService.getStats, Person.countDocuments. simpl.
    apply filter_length_le.
  - assert (M : (0 <= mean (Person.ages w) <= 120)%Q).
    { apply mean_bounds. intros a I. apply in_ages in I.
      destruct I as (q & I & E).
      destruct (reachable_well_formed w R) as (_ & _ & S).
      destruct (S q I) as [(V & _) _]. apply is_valid_parts in V.
      destruct V as (_ & Va & _). rewrite E in Va. simpl in Va.
      apply andb_true_iff in Va. now rewrite !Qle_bool_iff in Va. }
    pose proof (averageAge_is_mean w) as A.
    destruct M as [L U]. split; rewrite A; assumption.
  - intros E. unfold personService.getStats, Person.aggregate_avgAge.
    simpl. now rewrite E.
Qed.

(** The five people of the driver. *)
Lemma getStats_is_within_bounds_witness :
  let w := snd (personService.createManyPeople [] index.fivePeople empty_world) in
  personService.totalPeople (personService.getStats w) = List.length (docs w)
  /\ (0 <= personService.averageAge (personService.getStats w) <= 120)%Q.
Proof.
  intros w.
  assert (R : reachable w)
    by (apply reachable_step with (w := empty_world);
        [apply reachable_empty|apply step_createManyPeople]).
  destruct (getStats_is_within_bounds w R) as (T & _ & A & _).
  split; [exact T|exact A].
Defined.

(* ------------------------------------------------------------------ *)
(** ** What the writes leave alone *)

Section Frames.
Import personService.

Lemma save_existing_resolved :
  forall p w p' w',
    Person.save false p w = (Resolved p', w') ->
    p' = with_updatedAt (clock w) p
    /\ w' = with_docs (replace_first (has_id (_id p)) p' (docs w)) w
    /\ exists stored, List.find (has_id (_id p)) (docs w) = Some stored.
Proof.
  intros p w p' w'. unfold Person.save.
  destruct (Schema.validate p); [|discriminate].
  destruct (List.find _ _) as [stored|]; [|discriminate].
  destruct (_ && _)%bool; [discriminate|].
  intros H. inversion H; subst. eauto.
Qed.

Lemma filter_filter_negb :
  forall (f : person -> bool) l,
    filter f (filter (fun p => negb (f p)) l) = [].
Proof.
  intros f. induction l as [|q l IH]; simpl; [reflexivity|].
  destruct (f q) eqn:Q; simpl; [exact IH|]. now rewrite Q.
Qed.

Lemma filter_idempotent :
  forall (f : person -> bool) l, filter f (filter f l) = filter f l.
Proof.
  intros f. induction l as [|q l IH]; simpl; [reflexivity|].
  destruct (f q) eqn:Q; simpl; [rewrite Q; f_equal|]; exact IH.
Qed.

Lemma save_each_counts :
  forall l w,
    List.length (fst (Person.save_each l w)) = List.length l
    /\ next_id (snd (Person.save_each l w)) = next_id w
    /\ clock (snd (Person.save_each l w)) = clock w.
Proof.
  induction l as [|[i p] l IH]; intros w; simpl; [repeat split; lia|].
  destruct (save_new_frame p w) as [K1 K2].
  destruct (Person.save true p w) as [r w2].
  destruct (IH w2) as (L & N & C).
  destruct (Person.save_each l w2) as [rs w3]. simpl in *.
  repeat split; congruence.
Qed.

Lemma saved_length :
  forall rs,
    match Person.first_error rs with
    | None => List.length (Person.saved rs) = List.length rs
    | Some _ => List.length (Person.saved rs) < List.length rs
    end.
Proof.
  induction rs as [|[i [p|e]] rs IH]; simpl; [reflexivity| |].
  - destruct (Person.first_error rs); simpl; lia.
  - assert (L : List.length (Person.saved rs) <= List.length rs).
    { clear IH. induction rs as [|[j [q|e']] rs IH]; simpl; lia. }
    lia.
Qed.

(** When no save answered with an error, every document was stored as it
    was built. *)
Lemma save_each_no_error :
  forall l w,
    (forall i p, In (i, p) l -> updatedAt p = clock w) ->
    Person.first_error (fst (Person.save_each l w)) = None ->
    fst (Person.save_each l w)
    = map (fun ip => (fst ip, Resolved (snd ip))) l.
Proof.
  induction l as [|[i p] l IH]; intros w U; simpl; [reflexivity|].
  destruct (save_new_frame p w) as [_ K].
  destruct (Person.save true p w) as [[p'|e] w2] eqn:H; cbn [snd] in K.
  - specialize (IH w2).
    destruct (Person.save_each l w2) as [rs w3]. cbn [fst Person.first_error] in *.
    intros E. rewrite IH; [|intros j q I; rewrite K; apply (U j q); now right
                           |exact E].
    apply save_new_resolved in H. destruct H as (-> & _).
    rewrite <- (U i p (or_introl eq_refl)), with_updatedAt_same. reflexivity.
  - destruct (Person.save_each l w2) as [rs w3]. discriminate.
Qed.

End Frames.

(** X10.  [updatePersonClassic] either rejects and changes nothing, or
    resolves with a record that takes the place of the one stored under
    the id: every other record stays as it is and where it is, and the
    new record keeps the id and the creation time of the old one and is
    stamped with the present time. *)
Theorem updatePersonClassic_changes_one_record :
  forall (i : option ObjectId) (u : personService.Updates)
         (w : world) (r : result person) (w' : world),
    personService.updatePersonClassic i u w = (r, w') ->
    (is_rejected r = true /\ w' = w)
    \/ exists j l1 l2 p p',
        i = Some j /\ r = Resolved p'
        /\ docs w = (l1 ++ p :: l2)%list
        /\ docs w' = (l1 ++ p' :: l2)%list
        /\ (forall q, In q l1 -> _id q <> j)
        /\ _id p = j /\ _id p' = j
        /\ createdAt p' = createdAt p
        /\ updatedAt p' = clock w
        /\ next_id w' = next_id w /\ clock w' = clock w.
Proof.
  intros i u w r w' H. unfold personService.updatePersonClassic in H.
  destruct i as [j|]; [|inversion H; now left].
  destruct (Person.findById j w) as [p|] eqn:F; [|inversion H; now left].
  destruct r as [p'|e];
    [|left; split; [reflexivity|];
      now apply save_rejected_same_world in H].
  right. apply save_existing_resolved in H. destruct H as (P & W & _).
  unfold Person.findById, Person.findOne in F.
  destruct (find_has_id j (docs w) p F) as [Hj _].
  destruct (find_split (has_id j) (docs w) p F) as (l1 & l2 & D & N & _ & Rp).
  rewrite applyUpdates_id, Hj in W.
  exists j, l1, l2, p, p'. split; [reflexivity|]. split; [reflexivity|].
  split; [exact D|]. split; [rewrite W; simpl; apply Rp|].
  split; [intros q I; apply Nat.eqb_neq; now apply N|].
  split; [exact Hj|].
  split; [rewrite P; simpl; now rewrite applyUpdates_id|].
  split; [rewrite P; simpl; apply applyUpdates_createdAt|].
  split; [rewrite P; reflexivity|].
  rewrite W. split; reflexivity.
Qed.

(** Bob Johnson, second of the five people of the driver, is renamed. *)
Lemma updatePersonClassic_changes_one_record_witness :
  let w := snd (personService.createManyPeople [] index.fivePeople empty_world) in
  let u := personService.mkUpdates (Val "Bob Jones") Undefined Undefined
                                   None None in
  exists l1 l2 p p',
    docs w = (l1 ++ p :: l2)%list
    /\ docs (snd (personService.updatePersonClassic (Some 1) u w))
       = (l1 ++ p' :: l2)%list
    /\ name p' = Some "Bob Jones".
Proof.
  intros w u.
  destruct (personService.updatePersonClassic (Some 1) u w) as [r w'] eqn:H.
  assert (E : fst (personService.updatePersonClassic (Some 1) u w)
              = Resolved (mkPerson 1 (Some "Bob Jones") (Some 35%Q)
                                   ["burger"; "fries"; "burrito"]
                                   (Val "bob@example.com") 0 0 true))
    by (vm_compute; reflexivity).
  rewrite H in E. simpl in E. subst r.
  destruct (updatePersonClassic_changes_one_record _ _ _ _ _ H)
    as [[X _]|(j & l1 & l2 & p & p' & _ & P & D & D' & _)];
    [discriminate|].
  exists l1, l2, p, p'. split; [exact D|]. split; [exact D'|].
  inversion P. reflexivity.
Defined.

(** X11.  For a non-empty name, the count [deleteManyByName] resolves with
    is the number of records [findPeopleByName] finds for that name;
    after the delete [findPeopleByName] finds none, and a second delete
    removes nothing. *)
Theorem deleteManyByName_removes_what_findPeopleByName_finds :
  forall (n : string) (w : world),
    n <> "" ->
    exists l k w',
      personService.findPeopleByName n w = Resolved l
      /\ personService.deleteManyByName n w = (Resolved k, w')
      /\ k = List.length l
      /\ personService.findPeopleByName n w' = Resolved []
      /\ personService.deleteManyByName n w' = (Resolved 0, w').
Proof.
  intros n w N. destruct n as [|c n]; [now destruct N|].
  unfold personService.findPeopleByName, personService.deleteManyByName.
  simpl negb. cbv iota. unfold Person.deleteMany, Person.find.
  do 3 eexists. split; [reflexivity|]. split; [reflexivity|].
  split; [reflexivity|]. cbn [docs with_docs].
  rewrite filter_filter_negb, filter_idempotent. split; reflexivity.
Qed.

(** Mary Wilson is one of the five people of the driver. *)
Lemma deleteManyByName_removes_what_findPeopleByName_finds_witness :
  let w := snd (personService.createManyPeople [] index.fivePeople empty_world) in
  exists l k w',
    personService.findPeopleByName "Mary Wilson" w = Resolved l
    /\ personService.deleteManyByName "Mary Wilson" w = (Resolved k, w')
    /\ k = List.length l
    /\ personService.findPeopleByName "Mary Wilson" w' = Resolved [].
Proof.
  intros w.
  destruct (deleteManyByName_removes_what_findPeopleByName_finds
              "Mary Wilson" w)
    as (l & k & w' & F & D & K & E & _); [discriminate|].
  exists l, k, w'. split; [exact F|]. split; [exact D|].
  split; [exact K|exact E].
Defined.

(** X12.  [createManyPeople] rejects an empty array and changes nothing.
    On a non-empty array, and in whatever order the saves arrive, it never
    touches a stored record: it appends the records that were saved, all
    of them valid and among those built for the array, and draws one id
    for each element.  It resolves exactly when every element was saved:
    then its value is the records in the order of the array, and the
    records appended are the same records in the order of their arrival.
    When it rejects, fewer records than elements were appended. *)
Theorem createManyPeople_appends_the_saved_records :
  forall (sched : list nat) (l : list PersonInit) (w : world),
    (l = [] ->
     personService.createManyPeople sched l w
     = (Rejected (Error "arrayOfPeople must be a non-empty array"), w))
    /\ (l <> [] ->
        exists added,
          docs (snd (personService.createManyPeople sched l w))
          = (docs w ++ added)%list
          /\ next_id (snd (personService.createManyPeople sched l w))
             = next_id w + List.length l
          /\ (forall q, In q added ->
                        Schema.is_valid q = true
                        /\ In q (built l (next_id w) (clock w)))
          /\ (forall ps,
                 fst (personService.createManyPeople sched l w) = Resolved ps ->
                 ps = built l (next_id w) (clock w)
                 /\ added = Person.arrival sched ps
                 /\ Permutation ps added
                 /\ List.length ps = List.length l)
          /\ (is_rejected (fst (personService.createManyPeople sched l w))
              = true ->
              List.length added < List.length l)).
Proof.
  intros sched l w. split; [intros ->; reflexivity|].
  intros N. destruct l as [|d l]; [now destruct N|].
  unfold personService.createManyPeople. rewrite create_arrivals. cbv zeta.
  set (a := arrivals sched (d :: l) w).
  set (w1 := mkWorld (docs w) (next_id w + List.length (d :: l)) (clock w)).
  assert (U : forall i p, In (i, p) a -> updatedAt p = clock w1).
  { intros i p I. apply arrivals_in in I. now apply built_updatedAt in I. }
  pose proof (save_each_docs a w1) as D.
  pose proof (save_each_saved_valid a w1) as V.
  pose proof (save_each_saved_from a w1) as F.
  pose proof (save_each_no_error a w1 U) as E.
  destruct (save_each_counts a w1) as (L & I & _).
  assert (La : List.length a = List.length (d :: l)).
  { unfold a, arrivals. rewrite arrival_length, length_combine, length_seq.
    rewrite Nat.min_id. apply built_length. }
  destruct (Person.save_each a w1) as [rs w'].
  subst w1. cbn [fst snd docs next_id clock] in U, D, V, F, E, L, I |- *.
  pose proof (saved_length rs) as S.
  exists (Person.saved rs).
  assert (B : forall q, In q (Person.saved rs) ->
                        Schema.is_valid q = true
                        /\ In q (built (d :: l) (next_id w) (clock w))).
  { intros q Q. split; [now apply (V q)|].
    destruct (F q Q) as (i & p & Ip & ->).
    assert (Ep : with_updatedAt (clock w) p = p)
      by (rewrite <- (U i p Ip); apply with_updatedAt_same).
    rewrite Ep. exact (arrivals_in _ _ _ _ _ Ip). }
  set (res := flat_map (Person.saved_at rs) _).
  destruct (Person.first_error rs); cbn [fst snd is_rejected].
  - split; [exact D|]. split; [exact I|]. split; [exact B|].
    split; [discriminate|]. intros _. rewrite <- La, <- L. exact S.
  - split; [exact D|]. split; [exact I|]. split; [exact B|].
    split; [|discriminate].
    intros ps R. assert (R' : ps = res) by congruence. subst ps.
    unfold res. rewrite (E eq_refl). unfold a.
    rewrite saved_in_order, saved_all_resolved, arrivals_snd.
    split; [reflexivity|]. split; [reflexivity|].
    split; [apply arrival_perm|apply built_length].
Qed.

(* ------------------------------------------------------------------ *)
(** ** The favorites of a record *)

Section Favorites.
Import personService.

Lemma includes_iff :
  forall l x, includes l x = true <-> In x l.
Proof.
  intros l x. unfold includes. rewrite existsb_exists. split.
  - intros (y & I & E). apply String.eqb_eq in E. now subst.
  - intros I. exists x. split; [exact I|apply String.eqb_refl].
Qed.

Lemma likes_iff :
  forall food p, likes food p = true <-> In food (favoriteFoods p).
Proof. intros food p. apply includes_iff. Qed.

(** The loop only ever appends. *)
Lemma addToFavorites_appends :
  forall foods l, exists extra, addToFavorites foods l = (l ++ extra)%list.
Proof.
  induction foods as [|food foods IH]; intros l; simpl.
  - exists []. now rewrite app_nil_r.
  - destruct (negb (includes l food)).
    + destruct (IH (l ++ [Schema.set_food food])%list) as (extra & ->).
      exists (Schema.set_food food :: extra). now rewrite <- app_assoc.
    + apply IH.
Qed.

Lemma addToFavorites_trimmed :
  forall foods l,
    (forall g, In g foods -> trim g = g) ->
    (forall g, In g foods -> In g (addToFavorites foods l))
    /\ (NoDup l -> NoDup (addToFavorites foods l)).
Proof.
  induction foods as [|food foods IH]; intros l T; simpl.
  - split; [intros g []|auto].
  - assert (Tf : trim food = food) by (apply T; now left).
    assert (Tr : forall g, In g foods -> trim g = g)
      by (intros g I; apply T; now right).
    set (l' := if negb (includes l food)
               then (l ++ [Schema.set_food food])%list else l).
    assert (I' : In food l').
    { unfold l'. destruct (includes l food) eqn:E; simpl.
      - now apply includes_iff.
      - unfold Schema.set_food. rewrite Tf. apply in_or_app. right.
        now left. }
    destruct (IH l' Tr) as [M D]. split.
    + intros g [<-|I]; [|now apply M].
      destruct (addToFavorites_appends foods l') as (extra & ->).
      apply in_or_app. now left.
    + intros N. apply D. unfold l'.
      destruct (includes l food) eqn:E; simpl; [exact N|].
      unfold Schema.set_food. rewrite Tf.
      assert (X : ~ In food l).
      { intros J. apply includes_iff in J. congruence. }
      clear - N X. induction l as [|x l IH]; simpl.
      * constructor; [tauto|constructor].
      * inversion N; subst. constructor.
        -- intros J. apply in_app_or in J.
           destruct J as [J|[J|[]]]; [tauto|]. apply X. now left.
        -- apply IH; auto. intros J. apply X. now right.
Qed.

Lemma remove_food_app :
  forall food l, ~ In food l -> Person.remove_food food (l ++ [food]) = l.
Proof.
  intros food. induction l as [|x l IH]; simpl; intros N.
  - now rewrite String.eqb_refl.
  - destruct (String.eqb food x) eqn:E.
    + apply String.eqb_eq in E. subst. tauto.
    + f_equal. apply IH. tauto.
Qed.

Lemma remove_food_length :
  forall food l,
    In food l -> S (List.length (Person.remove_food food l)) = List.length l.
Proof.
  intros food. induction l as [|x l IH]; simpl; intros I; [destruct I|].
  destruct (String.eqb food x) eqn:E; [reflexivity|].
  simpl. f_equal. apply IH. destruct I as [->|I]; [|exact I].
  rewrite String.eqb_refl in E. discriminate.
Qed.

End Favorites.

(** X13.  The loop over [addToFavorites] keeps every favorite the record
    had, in place, and only appends; when the foods to add are trimmed
    already, each of them is among the favorites afterwards, and a list
    without repetition stays without repetition. *)
Theorem addToFavorites_appends_without_repeating :
  forall (foods l : list string),
    (exists extra,
        personService.addToFavorites foods l = (l ++ extra)%list)
    /\ ((forall g, In g foods -> trim g = g) ->
        (forall g, In g foods -> In g (personService.addToFavorites foods l))
        /\ (NoDup l -> NoDup (personService.addToFavorites foods l))).
Proof.
  intros foods l. split.
  - apply addToFavorites_appends.
  - apply addToFavorites_trimmed.
Qed.

(** Hamburger twice and pizza once more, next to pizza and pasta. *)
Lemma addToFavorites_appends_without_repeating_witness :
  In "hamburger"
     (personService.addToFavorites ["hamburger"; "pizza"; "hamburger"]
                                   ["pizza"; "pasta"])
  /\ NoDup (personService.addToFavorites ["hamburger"; "pizza"; "hamburger"]
                                         ["pizza"; "pasta"]).
Proof.
  destruct (addToFavorites_appends_without_repeating
              ["hamburger"; "pizza"; "hamburger"] ["pizza"; "pasta"])
    as [_ T].
  destruct T as [M D].
  - intros g [<-|[<-|[<-|[]]]]; reflexivity.
  - split.
    + apply M. left. reflexivity.
    + apply D. constructor; [|constructor; [|constructor]].
      * intros [E|[]]. discriminate.
      * intros [].
Defined.

(** X14.  [removeFavoriteFood] resolves with the document untouched, and
    saves nothing, when the food is not among the favorites; otherwise
    it takes out one entry.  When [addFavoriteFood] has added a trimmed
    food that was not among the favorites, [removeFavoriteFood] of that
    food on the document it resolved with gives the favorites back as
    they were. *)
Theorem removeFavoriteFood_undoes_addFavoriteFood :
  forall (p : person) (food : string),
    (includes (favoriteFoods p) food = false ->
     forall isNew w,
       Person.removeFavoriteFood isNew p food w = (Resolved p, w))
    /\ (includes (favoriteFoods p) food = true ->
        S (List.length (Person.remove_food food (favoriteFoods p)))
        = List.length (favoriteFoods p))
    /\ (includes (favoriteFoods p) food = false -> trim food = food ->
        forall w p1 w1 p2 w2,
          Person.addFavoriteFood false p food w = (Resolved p1, w1) ->
          Person.removeFavoriteFood false p1 food w1 = (Resolved p2, w2) ->
          favoriteFoods p1 = (favoriteFoods p ++ [food])%list
          /\ favoriteFoods p2 = favoriteFoods p
          /\ _id p2 = _id p).
Proof.
  intros p food. split; [|split].
  - intros E isNew w. unfold Person.removeFavoriteFood. now rewrite E.
  - intros E. apply remove_food_length. now apply includes_iff.
  - intros E T w p1 w1 p2 w2 A R.
    unfold Person.addFavoriteFood in A. rewrite E in A. simpl negb in A.
    cbv iota in A. apply save_existing_resolved in A.
    destruct A as (P1 & _ & _).
    assert (F1 : favoriteFoods p1 = (favoriteFoods p ++ [food])%list).
    { rewrite P1. simpl. unfold Schema.set_food. now rewrite T. }
    unfold Person.removeFavoriteFood in R.
    assert (I1 : includes (favoriteFoods p1) food = true).
    { apply includes_iff. rewrite F1. apply in_or_app. right. now left. }
    rewrite I1 in R. apply save_existing_resolved in R.
    destruct R as (P2 & _ & _).
    split; [exact F1|]. split.
    + rewrite P2. simpl. rewrite F1. apply remove_food_app.
      intros J. apply includes_iff in J. congruence.
    + rewrite P2, P1. reflexivity.
Qed.

(** Salad is added to, and taken from, the favorites of the stored John
    Doe. *)
Lemma removeFavoriteFood_undoes_addFavoriteFood_witness :
  let w := snd (personService.createAndSavePerson index.johnDoe empty_world) in
  let p := mkPerson 0 (Some "John Doe") (Some 30%Q) ["pizza"; "pasta"]
                    (Val "john@example.com") 0 0 true in
  exists p1 w1 p2 w2,
    Person.addFavoriteFood false p "salad" w = (Resolved p1, w1)
    /\ Person.removeFavoriteFood false p1 "salad" w1 = (Resolved p2, w2)
    /\ favoriteFoods p2 = ["pizza"; "pasta"].
Proof.
  intros w p.
  set (p1 := mkPerson 0 (Some "John Doe") (Some 30%Q)
                      ["pizza"; "pasta"; "salad"] (Val "john@example.com")
                      0 0 true).
  assert (A : Person.addFavoriteFood false p "salad" w
              = (Resolved p1, mkWorld [p1] 1 0))
    by (vm_compute; reflexivity).
  assert (R : Person.removeFavoriteFood false p1 "salad" (mkWorld [p1] 1 0)
              = (Resolved p, mkWorld [p] 1 0))
    by (vm_compute; reflexivity).
  destruct (removeFavoriteFood_undoes_addFavoriteFood p "salad")
    as (_ & _ & Undo).
  destruct (Undo eq_refl eq_refl _ _ _ _ _ A R) as (_ & F & _).
  exists p1, (mkWorld [p1] 1 0), p, (mkWorld [p] 1 0).
  split; [exact A|]. split; [exact R|exact F].
Defined.

(** X15.  [findOneByFood] rejects an empty food.  For any other food it
    resolves with [null] exactly when no record has the food, trimmed,
    among its favorites, and otherwise with the first record of the
    collection that has. *)
Theorem findOneByFood_gives_the_first_match :
  forall (food : string) (w : world),
    (food = "" ->
     personService.findOneByFood food w
     = Rejected (Error "Valid food string is required"))
    /\ (food <> "" ->
        (personService.findOneByFood food w = Resolved None
         <-> forall q, In q (docs w) -> ~ In (trim food) (favoriteFoods q))
        /\ forall p,
            personService.findOneByFood food w = Resolved (Some p) ->
            exists l1 l2,
              docs w = (l1 ++ p :: l2)%list
              /\ In (trim food) (favoriteFoods p)
              /\ forall q, In q l1 -> ~ In (trim food) (favoriteFoods q)).
Proof.
  intros food w. split; [intros ->; reflexivity|].
  intros N. destruct food as [|c food]; [now destruct N|].
  unfold personService.findOneByFood. simpl negb. cbv iota.
  unfold Person.findOne, Person.by_food, Schema.set_food.
  set (t := trim (String c food)). split.
  - split.
    + intros H q I J. inversion H as [F].
      apply (find_none _ _ F) in I. apply likes_iff in J. congruence.
    + intros H. rewrite find_none_forall; [reflexivity|].
      intros q I. destruct (likes t q) eqn:L; [|reflexivity].
      apply likes_iff in L. now apply H in I.
  - intros p H. inversion H as [F].
    destruct (find_split (likes t) (docs w) p F) as (l1 & l2 & D & M & L & _).
    exists l1, l2. split; [exact D|]. split; [now apply likes_iff|].
    intros q I J. apply likes_iff in J. rewrite (M q I) in J. discriminate.
Qed.

(** X16.  The name validators accept exactly the strings of two to a
    hundred letters and white spaces; and since a name is trimmed before
    it is validated, [createAndSavePerson] rejects a name made of white
    space only, and persists nothing. *)
Theorem names_the_schema_accepts :
  (forall s,
      Schema.valid_name (Some s) = true
      <-> (2 <= String.length s <= 100)
          /\ all_chars Schema.nameChar s = true)
  /\ (forall pd w s,
         personService.pd_name pd = Val s ->
         all_chars isSpace s = true ->
         is_rejected (fst (personService.createAndSavePerson pd w)) = true
         /\ docs (snd (personService.createAndSavePerson pd w)) = docs w).
Proof.
  split; [exact valid_name_iff|].
  intros pd w s N A. unfold personService.createAndSavePerson.
  destruct (negb _); [split; reflexivity|].
  unfold Person.new. rewrite save_invalid; [split; reflexivity|].
  apply validate_name_fails. simpl. rewrite N.
  unfold Schema.set_name. now rewrite (trim_of_spaces s A).
Qed.

(** Three spaces are no name. *)
Lemma names_the_schema_accepts_witness :
  let pd := personService.mkData (Val "   ") personService.AgeNull None
                                 Undefined None in
  is_rejected (fst (personService.createAndSavePerson pd empty_world)) = true
  /\ docs (snd (personService.createAndSavePerson pd empty_world)) = [].
Proof.
  intros pd.
  destruct names_the_schema_accepts as [_ Blank].
  apply (Blank pd empty_world "   "); reflexivity.
Defined.

(* ------------------------------------------------------------------ *)
(** ** The connection manager and the two scripts *)

Section Connection.
Import connection.

Lemma stripQuotes_no_quote :
  forall uri, some_char isQuote (stripQuotes uri) = false.
Proof.
  induction uri as [|c uri IH]; simpl; [reflexivity|].
  destruct (isQuote c) eqn:Q; simpl; [exact IH|]. now rewrite Q, IH.
Qed.

Lemma stripQuotes_without_quotes :
  forall uri, some_char isQuote uri = false -> stripQuotes uri = uri.
Proof.
  induction uri as [|c uri IH]; simpl; intros H; [reflexivity|].
  apply orb_false_iff in H. destruct H as [Q H]. rewrite Q.
  now rewrite IH.
Qed.

(** The ways [connect] ends. *)
Lemma connect_cases :
  forall env drv this,
    (connect env drv this = Exited 1
     /\ (env = None \/ env = Some ""
         \/ exists uri, env = Some uri /\ drv (stripQuotes uri) = false))
    \/ exists uri,
        env = Some uri /\ uri <> "" /\ drv (stripQuotes uri) = true
        /\ connect env drv this
           = Returned (mkConnection true (Some (stripQuotes uri))).
Proof.
  intros env drv this. unfold connect.
  destruct env as [[|c uri]|]; simpl; auto.
  destruct (drv _) eqn:D.
  - right. exists (String c uri). repeat split; auto. discriminate.
  - left. split; [reflexivity|]. right. right. eauto.
Qed.

(** With a library before 6.1.0 the operations of the driver never all
    succeed: the chained query rejects if nothing did before it. *)
Lemma demonstrateAllOperations_rejects :
  forall sched w,
    is_rejected (fst (index.demonstrateAllOperations Before_6_1 sched w))
    = true.
Proof.
  intros sched w.
  unfold index.demonstrateAllOperations, index.await, index.query.
  destruct (personService.createAndSavePerson index.johnDoe w)
    as [[person1|e] w1]; [|reflexivity].
  destruct (personService.createManyPeople sched index.fivePeople w1)
    as [[people|e] w2]; [|reflexivity].
  destruct (personService.findPeopleByName "John Doe" w2);
    [|reflexivity].
  destruct (personService.findOneByFood "pizza" w2); [|reflexivity].
  destruct (personService.findPersonById (Some (_id person1)) w2);
    [|reflexivity].
  destruct (personService.addHamburgerToFavorites (Some (_id person1)) w2)
    as [[updatedPerson|e] w3]; [|reflexivity].
  destruct (personService.findOneAndUpdateAge "Jane Smith" (Val 26%Q) w3)
    as [[aged|e] w4]; [|reflexivity].
  destruct (personService.createAndSavePerson index.tempPerson w4)
    as [[temp|e] w5]; [|reflexivity].
  destruct (personService.deletePersonById (Some (_id temp)) w5)
    as [[deleted|e] w6]; [|reflexivity].
  destruct (personService.deleteManyByName "Mary" w6)
    as [[deleteResult|e] w7]; [|reflexivity].
  unfold personService.findBurritoLovers, Query.exec.
  rewrite chained_selects_fields by reflexivity.
  rewrite mixed_projection_is_refused. reflexivity.
Qed.

End Connection.

(** X17.  [connect] ends the process with code 1 when the URI is missing
    or empty or the driver refuses it, and in no other case; otherwise it
    leaves the manager connected, holding the connection opened on the URI
    with every quote taken out, a URI without quotes being used as it is.
    After [disconnect] the status is false, the connection is still held,
    and a second [disconnect] changes nothing. *)
Theorem connect_then_disconnect :
  forall (env : option string) (drv : string -> bool)
         (this : connection.DatabaseConnection),
    match connection.connect env drv this with
    | connection.Exited code =>
        code = 1
        /\ (env = None \/ env = Some ""
            \/ exists uri,
                env = Some uri /\ drv (connection.stripQuotes uri) = false)
    | connection.Returned c =>
        connection.getStatus c = true
        /\ (exists uri,
               env = Some uri /\ uri <> ""
               /\ drv (connection.stripQuotes uri) = true
               /\ connection.getConnection c
                  = Some (connection.stripQuotes uri)
               /\ some_char connection.isQuote (connection.stripQuotes uri)
                  = false
               /\ (some_char connection.isQuote uri = false ->
                   connection.stripQuotes uri = uri))
        /\ connection.getStatus (connection.disconnect c) = false
        /\ connection.getConnection (connection.disconnect c)
           = connection.getConnection c
        /\ connection.disconnect (connection.disconnect c)
           = connection.disconnect c
    end.
Proof.
  intros env drv this.
  destruct (connect_cases env drv this) as [[-> H]|(uri & E & N & D & ->)].
  - split; [reflexivity|exact H].
  - split; [reflexivity|]. split; [|repeat split].
    exists uri. repeat split; auto.
    + apply stripQuotes_no_quote.
    + apply stripQuotes_without_quotes.
Qed.

(** X19.  The seed script ends with code 0 exactly when the connection is
    established: the collection then holds the ten sample people and
    nothing else, in the order in which their saves arrived, and the
    manager is disconnected.  Otherwise it ends with code 1 and has
    touched neither the collection nor the manager. *)
Theorem seed_script_outcomes :
  forall (sched : list nat) (env : option string) (drv : string -> bool)
         (database : connection.DatabaseConnection) (w : world),
    (exists uri,
        env = Some uri /\ uri <> ""
        /\ drv (connection.stripQuotes uri) = true
        /\ fst (fst (seed.script sched env drv database w)) = 0
        /\ docs (snd (seed.script sched env drv database w))
           = Person.arrival
               sched (built seed.samplePeople (next_id w) (clock w))
        /\ Permutation
             (built seed.samplePeople (next_id w) (clock w))
             (docs (snd (seed.script sched env drv database w)))
        /\ List.length (docs (snd (seed.script sched env drv database w)))
           = 10
        /\ connection.getStatus
             (snd (fst (seed.script sched env drv database w)))
           = false)
    \/ (seed.script sched env drv database w = (1, database, w)
        /\ (env = None \/ env = Some ""
            \/ exists uri,
                env = Some uri /\ drv (connection.stripQuotes uri) = false)).
Proof.
  intros sched env drv database w. unfold seed.script.
  destruct (connect_cases env drv database) as [[-> H]|(uri & E & N & D & ->)].
  - right. split; [reflexivity|exact H].
  - left. exists uri. rewrite seedDatabase_result.
    cbn [fst snd docs connection.getStatus connection.disconnect
         connection.isConnected].
    split; [exact E|]. split; [exact N|]. split; [exact D|].
    split; [reflexivity|]. split; [reflexivity|].
    split; [apply arrival_perm|]. split; [|reflexivity].
    rewrite arrival_length. apply built_length.
Qed.

(* ------------------------------------------------------------------ *)
(** ** Inserts without an email *)

Section NullEmail.

(** An insert next to a record with the same entry in the email index is
    refused. *)
Lemma save_new_duplicate_key :
  forall p w q,
    In q (docs w) -> same_email_key (email q) (email p) = true ->
    is_rejected (fst (Person.save true p w)) = true
    /\ snd (Person.save true p w) = w.
Proof.
  intros p w q I K. unfold Person.save.
  destruct (Schema.validate p); [|split; reflexivity].
  unfold violated_index.
  destruct (existsb (has_id _) _); [split; reflexivity|].
  assert (X : existsb (fun r => same_email_key
                                  (email r)
                                  (email (with_updatedAt (clock w) p)))
                      (docs w) = true)
    by (apply existsb_exists; exists q; split; [exact I|exact K]).
  rewrite X. split; reflexivity.
Qed.

Lemma createAndSavePerson_null_email :
  forall pd w p w',
    truthy_field truthy_string (personService.pd_email pd) = false ->
    personService.createAndSavePerson pd w = (Resolved p, w') ->
    email p = Null /\ In p (docs w').
Proof.
  intros pd w p w' E H. unfold personService.createAndSavePerson in H.
  destruct (negb _); [discriminate|]. rewrite E in H.
  unfold Person.new in H. apply save_new_resolved in H.
  destruct H as (-> & -> & _). split; [reflexivity|].
  simpl. apply in_or_app. right. now left.
Qed.

Lemma createAndSavePerson_null_email_taken :
  forall pd w q,
    truthy_field truthy_string (personService.pd_email pd) = false ->
    In q (docs w) -> email q = Null ->
    is_rejected (fst (personService.createAndSavePerson pd w)) = true
    /\ docs (snd (personService.createAndSavePerson pd w)) = docs w.
Proof.
  intros pd w q E I Q. unfold personService.createAndSavePerson.
  destruct (negb _); [split; reflexivity|]. rewrite E.
  unfold Person.new.
  match goal with
  | |- context [Person.save true ?p ?w1] =>
      destruct (save_new_duplicate_key p w1 q) as [R S]
  end.
  - exact I.
  - simpl. now rewrite Q.
  - split; [exact R|]. now rewrite S.
Qed.

End NullEmail.

(** X20.  [createAndSavePerson] stores an explicit [null] email when it is
    given none (or an empty one), and the unique index on [email] has an
    entry for it: while a record with a [null] email is stored, an insert
    without email is rejected and persists nothing, so of two such
    inserts in a row the second is rejected. *)
Theorem second_insert_without_email_is_rejected :
  forall (pd : personService.PersonData) (w : world),
    truthy_field truthy_string (personService.pd_email pd) = false ->
    (forall p w',
        personService.createAndSavePerson pd w = (Resolved p, w') ->
        email p = Null)
    /\ (forall q,
           In q (docs w) -> email q = Null ->
           is_rejected (fst (personService.createAndSavePerson pd w)) = true
           /\ docs (snd (personService.createAndSavePerson pd w)) = docs w)
    /\ (forall p w' pd',
           personService.createAndSavePerson pd w = (Resolved p, w') ->
           truthy_field truthy_string (personService.pd_email pd') = false ->
           is_rejected (fst (personService.createAndSavePerson pd' w')) = true
           /\ docs (snd (personService.createAndSavePerson pd' w'))
              = docs w').
Proof.
  intros pd w E. split; [|split].
  - intros p w' H. now destruct (createAndSavePerson_null_email pd w p w' E H).
  - intros q. now apply createAndSavePerson_null_email_taken.
  - intros p w' pd' H E'.
    destruct (createAndSavePerson_null_email pd w p w' E H) as [N I].
    now apply (createAndSavePerson_null_email_taken pd' w' p).
Qed.

(** The temporary person of the driver, inserted twice. *)
Lemma second_insert_without_email_is_rejected_witness :
  let w := snd (personService.createAndSavePerson index.tempPerson
                                                   empty_world) in
  List.length (docs w) = 1
  /\ is_rejected (fst (personService.createAndSavePerson index.tempPerson w))
     = true
  /\ docs (snd (personService.createAndSavePerson index.tempPerson w))
     = docs w.
Proof.
  intros w.
  assert (H : personService.createAndSavePerson index.tempPerson empty_world
              = (Resolved (mkPerson 0 (Some "Temp Person") (Some 99%Q)
                                    ["test food"] Null 0 0 true),
                 mkWorld [mkPerson 0 (Some "Temp Person") (Some 99%Q)
                                   ["test food"] Null 0 0 true] 1 0))
    by (vm_compute; reflexivity).
  destruct (second_insert_without_email_is_rejected
              index.tempPerson empty_world eq_refl) as (_ & _ & Again).
  destruct (Again _ _ index.tempPerson H eq_refl) as [R D].
  split; [unfold w; rewrite H; reflexivity|].
  unfold w. rewrite H. split; [exact R|exact D].
Defined.

(* ------------------------------------------------------------------ *)
(** ** The driver as a whole *)

Section Driver.
Import personService.

Lemma existsb_false_intro :
  forall (g : person -> bool) l,
    (forall q, In q l -> g q = false) -> existsb g l = false.
Proof.
  intros g. induction l as [|p l IH]; simpl; intros H; [reflexivity|].
  rewrite (H p) by now left. apply IH. intros q I. apply H. now right.
Qed.

Lemma same_email_key_Undefined :
  forall a, same_email_key a Undefined = false.
Proof. now intros [| |x]. Qed.

Lemma distinct_emails_app :
  forall l1 l2,
    distinct_emails l1 -> distinct_emails l2 ->
    (forall p q, In p l1 -> In q l2 ->
                 same_email_key (email p) (email q) = false) ->
    distinct_emails (l1 ++ l2).
Proof.
  induction l1 as [|r l1 IH]; simpl; intros l2 D1 D2 H; [exact D2|].
  destruct D1 as [R D1]. split.
  - intros q I. apply in_app_or in I. destruct I as [I|I]; auto.
  - apply IH; auto.
Qed.

Lemma find_app_found :
  forall (f : person -> bool) l r p,
    List.find f l = Some p -> List.find f (l ++ r) = Some p.
Proof.
  intros f. induction l as [|q l IH]; simpl; intros r p F; [discriminate|].
  destruct (f q); [exact F|now apply IH].
Qed.

(** No stored record holds an entry the driver needs. *)
Lemma driver_can_insert_key :
  forall w q e,
    driver_can_insert w = true -> In q (docs w) -> In e driver_emails ->
    same_email_key (email q) e = false.
Proof.
  intros w q e C I E. unfold driver_can_insert in C.
  rewrite forallb_forall in C. specialize (C q I).
  apply negb_true_iff in C.
  destruct (same_email_key (email q) e) eqn:K; [|reflexivity].
  assert (X : existsb (same_email_key (email q)) driver_emails = true)
    by (apply existsb_exists; eauto).
  congruence.
Qed.

(** Step 1 of the driver, when the email of John Doe is free. *)
Lemma driver_inserts_john :
  forall w,
    ids_below w ->
    (forall q, In q (docs w) ->
               same_email_key (email q) (Val "john@example.com") = false) ->
    let john := mkPerson (next_id w) (Some "John Doe") (Some 30%Q)
                         ["pizza"; "pasta"] (Val "john@example.com")
                         (clock w) (clock w) true in
    createAndSavePerson index.johnDoe w
    = (Resolved john, mkWorld (docs w ++ [john]) (S (next_id w)) (clock w)).
Proof.
  intros w B F john.
  change (createAndSavePerson index.johnDoe w)
    with (Person.save true john (mkWorld (docs w) (S (next_id w)) (clock w))).
  rewrite save_new_accepted.
  - reflexivity.
  - vm_compute. reflexivity.
  - subst john. unfold violated_index.
    cbn [docs clock with_updatedAt _id email].
    rewrite (ids_below_fresh w B), existsb_false_intro; [reflexivity|exact F].
Qed.

(** Step 8 of the driver, when no record has an explicit null email. *)
Lemma driver_inserts_temp :
  forall w,
    ids_below w ->
    (forall q, In q (docs w) -> same_email_key (email q) Null = false) ->
    let temp := mkPerson (next_id w) (Some "Temp Person") (Some 99%Q)
                         ["test food"] Null (clock w) (clock w) true in
    createAndSavePerson index.tempPerson w
    = (Resolved temp, mkWorld (docs w ++ [temp]) (S (next_id w)) (clock w)).
Proof.
  intros w B F temp.
  change (createAndSavePerson index.tempPerson w)
    with (Person.save true temp (mkWorld (docs w) (S (next_id w)) (clock w))).
  rewrite save_new_accepted.
  - reflexivity.
  - vm_compute. reflexivity.
  - subst temp. unfold violated_index.
    cbn [docs clock with_updatedAt _id email].
    rewrite (ids_below_fresh w B), existsb_false_intro; [reflexivity|exact F].
Qed.

Lemma findPeopleByName_resolves :
  forall n w,
    truthy_string n = true ->
    findPeopleByName n w = Resolved (Person.find (Person.by_name n) w).
Proof. intros n w T. unfold findPeopleByName. now rewrite T. Qed.

Lemma findOneByFood_resolves :
  forall food w,
    truthy_string food = true ->
    findOneByFood food w = Resolved (Person.findOne (Person.by_food food) w).
Proof. intros food w T. unfold findOneByFood. now rewrite T. Qed.

(** With a valid age and a name, [findOneAndUpdateAge] resolves, and the
    records it leaves have the emails of the records it found. *)
Lemma findOneAndUpdateAge_resolves :
  forall n a w,
    truthy_string n = true ->
    Schema.valid_age (newAge_or_default a) = true ->
    (exists r, fst (findOneAndUpdateAge n a w) = Resolved r)
    /\ forall q, In q (docs (snd (findOneAndUpdateAge n a w))) ->
                 exists q0, In q0 (docs w) /\ email q = email q0.
Proof.
  intros n a w T V. unfold findOneAndUpdateAge, Person.findOneAndUpdate.
  rewrite T, V. cbn [negb].
  destruct (Person.findOne (Person.by_name n) w) as [p|] eqn:F; cbn [fst snd].
  - split; [eauto|]. intros q I. cbn [with_docs docs] in I.
    apply in_replace_first in I. destruct I as [->|I]; [|eauto].
    exists p. split; [|reflexivity].
    apply find_some in F. tauto.
  - split; eauto.
Qed.

Lemma deletePersonById_resolves :
  forall i w, is_rejected (fst (deletePersonById (Some i) w)) = false.
Proof.
  intros i w. unfold deletePersonById.
  now destruct (Person.findByIdAndRemove i w).
Qed.

Lemma deleteManyByName_resolves :
  forall n w,
    truthy_string n = true ->
    is_rejected (fst (deleteManyByName n w)) = false.
Proof.
  intros n w T. unfold deleteManyByName. rewrite T. reflexivity.
Qed.

(** From 6.1.0 on, and when the entries of the email index the driver
    needs are free, every operation of the driver resolves. *)
Lemma demonstrateAllOperations_resolves :
  forall sched w,
    reachable w -> driver_can_insert w = true ->
    is_rejected (fst (index.demonstrateAllOperations From_6_1 sched w))
    = false.
Proof.
  intros sched w R C.
  destruct (reachable_well_formed w R) as (B & _ & _).
  pose proof (reachable_distinct_emails w R) as D.
  assert (K : forall q e, In q (docs w) -> In e driver_emails ->
                          same_email_key (email q) e = false)
    by (intros q e; apply driver_can_insert_key; exact C).
  (* step 1 *)
  pose proof (driver_inserts_john
                w B (fun q I => K q _ I (or_introl eq_refl))) as H1.
  cbv zeta in H1.
  set (john := mkPerson (next_id w) (Some "John Doe") (Some 30%Q)
                        ["pizza"; "pasta"] (Val "john@example.com")
                        (clock w) (clock w) true) in *.
  set (w1 := mkWorld (docs w ++ [john]) (S (next_id w)) (clock w)) in *.
  assert (R1 : reachable w1).
  { replace w1 with (snd (createAndSavePerson index.johnDoe w))
      by (now rewrite H1).
    eapply reachable_step; [exact R|apply step_createAndSavePerson]. }
  (* step 2 *)
  set (five := built index.fivePeople (S (next_id w)) (clock w)).
  assert (Known : forall q, In q (john :: five) ->
                            email q = Undefined \/ In (email q) driver_emails).
  { assert (T : forallb (fun q => match email q with
                                  | Undefined => true
                                  | e => existsb (field_eqb e) driver_emails
                                  end) (john :: five) = true)
      by (vm_compute; reflexivity).
    rewrite forallb_forall in T. intros q I. specialize (T q I).
    destruct (email q) as [| |e] eqn:E; [now left| |]; right;
      apply existsb_exists in T; destruct T as (e' & I' & F');
      apply field_eqb_eq in F'; now rewrite F'. }
  set (w2 := mkWorld (docs w1 ++ Person.arrival sched five)
                     (S (next_id w) + 5) (clock w)).
  assert (H2 : createManyPeople sched index.fivePeople w1
               = (Resolved five, w2)).
  { change (createManyPeople sched index.fivePeople w1)
      with (Person.create sched index.fivePeople w1).
    rewrite create_accepts_all.
    - reflexivity.
    - apply reachable_well_formed in R1. apply R1.
    - vm_compute. reflexivity.
    - unfold w1. cbn [docs next_id clock]. rewrite <- app_assoc.
      cbn [app]. fold five.
      apply distinct_emails_app;
        [exact D|apply distinct_emailsb_sound; vm_compute; reflexivity|].
      intros p q Ip Iq. destruct (Known q Iq) as [->|E].
      + apply same_email_key_Undefined.
      + now apply K. }
  assert (R2 : reachable w2).
  { replace w2 with (snd (createManyPeople sched index.fivePeople w1))
      by (now rewrite H2).
    eapply reachable_step; [exact R1|apply step_createManyPeople]. }
  assert (N2 : forall q, In q (docs w2) ->
                         same_email_key (email q) Null = false).
  { intros q I. unfold w2, w1 in I. cbn [docs] in I.
    rewrite <- app_assoc in I. cbn [app] in I.
    apply in_app_or in I. destruct I as [I|I].
    - apply (K q Null I). unfold driver_emails. simpl. tauto.
    - assert (J : In q (john :: five)).
      { destruct I as [<-|I]; [now left|right]. now apply arrival_in in I. }
      assert (T : forallb (fun q => negb (same_email_key (email q) Null))
                          (john :: five) = true)
        by (vm_compute; reflexivity).
      rewrite forallb_forall in T. apply negb_true_iff. now apply T. }
  (* step 6 *)
  assert (F : Person.findById (_id john) w2 = Some john).
  { unfold Person.findById, Person.findOne, w2, w1. cbn [docs].
    apply find_app_found, find_app_fresh.
    - exact (ids_below_fresh w B).
    - apply Nat.eqb_refl. }
  set (u := mkUpdates Undefined Undefined Undefined None (Some ["hamburger"])).
  set (john' := with_updatedAt (clock w2) (applyUpdates u john)).
  set (w3 := with_docs (replace_first (has_id (_id john)) john' (docs w2)) w2).
  assert (H6 : addHamburgerToFavorites (Some (_id john)) w2
               = (Resolved john', w3)).
  { unfold addHamburgerToFavorites, updatePersonClassic. fold u.
    rewrite F. apply (save_existing_accepted (_id john) john).
    - exact F.
    - reflexivity.
    - vm_compute. reflexivity.
    - reflexivity. }
  assert (R3 : reachable w3).
  { replace w3 with (snd (addHamburgerToFavorites (Some (_id john)) w2))
      by (now rewrite H6).
    eapply reachable_step; [exact R2|apply step_addHamburgerToFavorites]. }
  assert (N3 : forall q, In q (docs w3) ->
                         same_email_key (email q) Null = false).
  { intros q I. unfold w3 in I. cbn [with_docs docs] in I.
    apply in_replace_first in I. destruct I as [->|I]; [reflexivity|].
    now apply N2. }
  (* step 7 *)
  destruct (findOneAndUpdateAge_resolves "Jane Smith" (Val 26%Q) w3)
    as [[aged H7] E7]; [reflexivity|reflexivity|].
  assert (R4 : reachable
                 (snd (findOneAndUpdateAge "Jane Smith" (Val 26%Q) w3)))
    by (eapply reachable_step; [exact R3|apply step_findOneAndUpdateAge]).
  destruct (findOneAndUpdateAge "Jane Smith" (Val 26%Q) w3)
    as [r7 w4] eqn:S7.
  cbn [fst snd] in H7, E7, R4. subst r7.
  assert (N4 : forall q, In q (docs w4) ->
                         same_email_key (email q) Null = false).
  { intros q I. destruct (E7 q I) as (q0 & I0 & ->). now apply N3. }
  (* step 8 *)
  destruct (reachable_well_formed w4 R4) as (B4 & _ & _).
  pose proof (driver_inserts_temp w4 B4 N4) as H8. cbv zeta in H8.
  (* the chain *)
  unfold index.demonstrateAllOperations, index.await, index.query.
  rewrite H1, H2.
  rewrite findPeopleByName_resolves, findOneByFood_resolves by reflexivity.
  cbn [findPersonById]. rewrite H6, S7, H8.
  match goal with
  | |- context [deletePersonById (Some ?i) ?w5] =>
      pose proof (deletePersonById_resolves i w5) as H9;
      destruct (deletePersonById (Some i) w5) as [[deleted|e] w6];
      [clear H9|discriminate H9]
  end.
  pose proof (deleteManyByName_resolves "Mary" w6 eq_refl) as H10.
  destruct (deleteManyByName "Mary" w6) as [[deleteResult|e] w7];
    [clear H10|discriminate H10].
  rewrite findBurritoLovers_drops_inclusion. reflexivity.
Qed.

Lemma forallb_false_exists :
  forall (f : person -> bool) l,
    forallb f l = false -> exists q, In q l /\ f q = false.
Proof.
  intros f. induction l as [|p l IH]; simpl; intros H; [discriminate|].
  destruct (f p) eqn:P.
  - destruct (IH H) as (q & I & Q). exists q. auto.
  - exists p. auto.
Qed.

Lemma same_email_key_eq :
  forall a b, same_email_key a b = true -> a = b.
Proof.
  intros [| |x] [| |y]; simpl; try congruence.
  intros H. apply String.eqb_eq in H. congruence.
Qed.

(** An insert does not touch the stored records, and a record it stores
    has the next id. *)
Lemma createAndSavePerson_frame :
  forall pd w r w',
    createAndSavePerson pd w = (r, w') ->
    (forall q, In q (docs w) -> In q (docs w'))
    /\ forall p, r = Resolved p -> _id p = next_id w.
Proof.
  intros pd w r w'. unfold createAndSavePerson.
  destruct (negb _).
  - intros H. inversion H; subst. split; [auto|discriminate].
  - unfold Person.new. intros H. destruct r as [p|e].
    + apply save_new_resolved in H. destruct H as (-> & -> & _).
      split; [|intros p' E; inversion E; reflexivity].
      intros q I. cbn [with_docs docs]. apply in_or_app. now left.
    + apply save_rejected_same_world in H. subst w'.
      split; [auto|discriminate].
Qed.

Lemma createAndSavePerson_email_taken :
  forall pd w s q,
    pd_email pd = Val s -> s <> "" ->
    In q (docs w) -> email q = Val (Schema.set_email s) ->
    is_rejected (fst (createAndSavePerson pd w)) = true.
Proof.
  intros pd w s q E N I Q. unfold createAndSavePerson.
  destruct (negb _); [reflexivity|].
  unfold Person.new.
  match goal with
  | |- context [Person.save true ?p ?w1] =>
      destruct (save_new_duplicate_email p w1 q (Schema.set_email s))
        as [R _]
  end; auto.
  rewrite E. destruct s; [now destruct N|reflexivity].
Qed.

Lemma createManyPeople_keeps_docs :
  forall sched l w q,
    In q (docs w) -> In q (docs (snd (createManyPeople sched l w))).
Proof.
  intros sched l w q I. unfold createManyPeople.
  destruct l as [|d l]; [exact I|].
  rewrite create_arrivals. cbv zeta.
  match goal with
  | |- context [Person.save_each ?a ?w1] =>
      pose proof (save_each_docs a w1) as D;
      destruct (Person.save_each a w1) as [rs w']
  end.
  cbn [fst snd docs] in *.
  destruct (Person.first_error rs); cbn [snd]; rewrite D;
    apply in_or_app; now left.
Qed.

Lemma createManyPeople_email_taken :
  forall sched l w d s q,
    In d l -> init_email d = Val s ->
    In q (docs w) -> email q = Val (Schema.set_email s) ->
    is_rejected (fst (createManyPeople sched l w)) = true.
Proof.
  intros sched l w d s q I E Q Eq. unfold createManyPeople.
  destruct l as [|d0 l]; [destruct I|].
  rewrite create_arrivals. cbv zeta.
  pose proof (create_duplicate_email sched (d0 :: l) w d s q I E Q Eq
                (next_id w + List.length (d0 :: l))) as F.
  destruct (Person.save_each _ _) as [rs w']. simpl fst in F |- *.
  destruct (Person.first_error rs); [reflexivity|congruence].
Qed.

Lemma in_replace_first_other :
  forall (f : person -> bool) p' q l,
    In q l -> f q = false -> In q (replace_first f p' l).
Proof.
  intros f p' q. induction l as [|r l IH]; simpl; intros I Q; [destruct I|].
  destruct (f r) eqn:Fr.
  - destruct I as [->|I]; [congruence|now right].
  - destruct I as [->|I]; [now left|right; auto].
Qed.

(** The classic update leaves the records of the other ids where they
    are. *)
Lemma updatePersonClassic_keeps_others :
  forall i u w q,
    In q (docs w) -> _id q <> i ->
    In q (docs (snd (updatePersonClassic (Some i) u w))).
Proof.
  intros i u w q I N. unfold updatePersonClassic.
  destruct (Person.findById i w) as [doc|] eqn:F; [|exact I].
  assert (Hi : _id doc = i) by (apply (find_has_id i (docs w)); exact F).
  destruct (Person.save false (applyUpdates u doc) w) as [[p'|e] w'] eqn:H.
  - apply save_existing_resolved in H. destruct H as (_ & -> & _).
    cbn [snd with_docs docs]. apply in_replace_first_other; [exact I|].
    rewrite applyUpdates_id, Hi. unfold has_id.
    now apply Nat.eqb_neq.
  - apply save_rejected_same_world in H. now subst.
Qed.

(** [findOneAndUpdateAge] changes no email. *)
Lemma findOneAndUpdateAge_keeps_emails :
  forall n a w q,
    In q (docs w) ->
    exists q', In q' (docs (snd (findOneAndUpdateAge n a w)))
               /\ email q' = email q.
Proof.
  intros n a w q I. unfold findOneAndUpdateAge, Person.findOneAndUpdate.
  destruct (negb _); [eauto|].
  destruct (Schema.valid_age _); [|eauto].
  destruct (Person.findOne (Person.by_name n) w) as [p|] eqn:F; [|eauto].
  cbn [snd with_docs docs].
  set (p' := with_updatedAt (clock w) (with_age (newAge_or_default a) p)).
  destruct (Person.by_name n q) eqn:Q.
  - unfold Person.findOne in F. clear - I F Q.
    induction (docs w) as [|r l IH]; [destruct I|]. simpl in F |- *.
    destruct (Person.by_name n r) eqn:Fr.
    + inversion F; subst r. destruct I as [->|I].
      * exists p'. split; [now left|reflexivity].
      * exists q. split; [now right|reflexivity].
    + destruct I as [->|I]; [congruence|].
      destruct (IH I F) as (q' & I' & E'). exists q'. split; [now right|exact E'].
  - exists q. split; [|reflexivity]. now apply in_replace_first_other.
Qed.

(** When an entry of the email index the driver needs is taken, one of
    its inserts is refused. *)
Lemma demonstrateAllOperations_blocked :
  forall lib sched w,
    ids_below w -> driver_can_insert w = false ->
    is_rejected (fst (index.demonstrateAllOperations lib sched w)) = true.
Proof.
  intros lib sched w B C. unfold driver_can_insert in C.
  apply forallb_false_exists in C. destruct C as (q & I & X).
  apply negb_false_iff, existsb_exists in X. destruct X as (e & Ie & K).
  apply same_email_key_eq in K.
  unfold index.demonstrateAllOperations, index.await, index.query.
  pose proof (createAndSavePerson_frame index.johnDoe w) as F1.
  destruct (createAndSavePerson index.johnDoe w)
    as [[person1|e1] w1] eqn:H1; [|reflexivity].
  destruct (F1 _ _ eq_refl) as [Keep1 Id1]. specialize (Id1 _ eq_refl).
  pose proof (Keep1 q I) as I1.
  assert (Five : forall d s,
             In d index.fivePeople -> init_email d = Val s ->
             e = Val (Schema.set_email s) ->
             is_rejected (fst (createManyPeople sched index.fivePeople w1))
             = true).
  { intros d s Id Ed Ee.
    apply (createManyPeople_email_taken
             sched index.fivePeople w1 d s q Id Ed I1).
    now rewrite K, Ee. }
  unfold driver_emails in Ie. simpl in Ie.
  destruct Ie as [<-|[<-|[<-|[<-|[<-|[<-|[]]]]]]].
  - pose proof (createAndSavePerson_email_taken
                  index.johnDoe w "john@example.com" q eq_refl) as T.
    rewrite H1 in T. discriminate T; [discriminate|exact I|exact K].
  - pose proof (Five _ "jane@example.com" (or_introl eq_refl)
                     eq_refl eq_refl) as T.
    destruct (createManyPeople sched index.fivePeople w1)
      as [[people|e2] w2]; [discriminate T|reflexivity].
  - pose proof (Five _ "bob@example.com" (or_intror (or_introl eq_refl))
                     eq_refl eq_refl) as T.
    destruct (createManyPeople sched index.fivePeople w1)
      as [[people|e2] w2]; [discriminate T|reflexivity].
  - pose proof (Five _ "alice@example.com"
                     (or_intror (or_intror (or_introl eq_refl)))
                     eq_refl eq_refl) as T.
    destruct (createManyPeople sched index.fivePeople w1)
      as [[people|e2] w2]; [discriminate T|reflexivity].
  - pose proof (Five _ "mary@example.com"
                     (or_intror (or_intror (or_intror (or_introl eq_refl))))
                     eq_refl eq_refl) as T.
    destruct (createManyPeople sched index.fivePeople w1)
      as [[people|e2] w2]; [discriminate T|reflexivity].
  - clear Five.
    pose proof (createManyPeople_keeps_docs sched index.fivePeople w1 q I1)
      as I2.
    destruct (createManyPeople sched index.fivePeople w1)
      as [[people|e2] w2]; [|reflexivity].
    cbn [snd] in I2.
    rewrite findPeopleByName_resolves, findOneByFood_resolves by reflexivity.
    cbn [findPersonById].
    assert (I3 : In q (docs (snd (addHamburgerToFavorites
                                    (Some (_id person1)) w2)))).
    { apply updatePersonClassic_keeps_others; [exact I2|].
      rewrite Id1. apply B in I. lia. }
    destruct (addHamburgerToFavorites (Some (_id person1)) w2)
      as [[updated|e6] w3]; [|reflexivity].
    cbn [snd] in I3.
    destruct (findOneAndUpdateAge_keeps_emails
                "Jane Smith" (Val 26%Q) w3 q I3) as (q4 & I4 & E4).
    destruct (findOneAndUpdateAge "Jane Smith" (Val 26%Q) w3)
      as [[aged|e7] w4]; [|reflexivity].
    cbn [snd] in I4. rewrite K in E4.
    destruct (createAndSavePerson_null_email_taken
                index.tempPerson w4 q4 eq_refl I4 E4) as [T _].
    destruct (createAndSavePerson index.tempPerson w4)
      as [[temp|e8] w5]; [discriminate T|reflexivity].
Qed.

End Driver.

(** X18.  How [main] ends.  It either returns or ends the process with
    code 1.  With a library before 6.1.0 it always ends with code 1,
    because the chained query rejects if nothing did before it, and so
    it does when the connection fails.  On a collection the operations
    can reach it returns, whatever the order in which the saves of its
    batch arrive, exactly when the library is 6.1.0 or later, the
    connection is established, and no stored record holds one of the
    entries of the email index the driver needs: the five emails it
    inserts and the null email of its temporary record. *)
Theorem main_exit_code :
  forall (lib : release) (sched : list nat)
         (env : option string) (drv : string -> bool)
         (database : connection.DatabaseConnection) (w : world),
    (fst (index.main lib sched env drv database w) = None
     \/ fst (index.main lib sched env drv database w) = Some 1)
    /\ (lib = Before_6_1 ->
        fst (index.main lib sched env drv database w) = Some 1)
    /\ (forall code,
           connection.connect env drv database = connection.Exited code ->
           index.main lib sched env drv database w = (Some 1, w))
    /\ (reachable w ->
        (fst (index.main lib sched env drv database w) = None
         <-> lib = From_6_1
             /\ (exists c, connection.connect env drv database
                           = connection.Returned c)
             /\ driver_can_insert w = true)).
Proof.
  intros lib sched env drv database w. unfold index.main.
  destruct (connect_cases env drv database)
    as [[-> _]|(uri & _ & _ & _ & ->)].
  - split; [now right|]. split; [reflexivity|].
    split; [reflexivity|]. intros _. split; [discriminate|].
    intros (_ & (c & E) & _). discriminate.
  - assert (Old : lib = Before_6_1 ->
                  is_rejected
                    (fst (index.demonstrateAllOperations lib sched w)) = true)
      by (intros ->; apply demonstrateAllOperations_rejects).
    assert (New : reachable w -> lib = From_6_1 ->
                  driver_can_insert w = true ->
                  is_rejected
                    (fst (index.demonstrateAllOperations lib sched w)) = false)
      by (intros R -> C; now apply demonstrateAllOperations_resolves).
    assert (Taken : reachable w -> driver_can_insert w = false ->
                    is_rejected
                      (fst (index.demonstrateAllOperations lib sched w))
                    = true).
    { intros R C. apply demonstrateAllOperations_blocked; [|exact C].
      apply (reachable_well_formed w R). }
    destruct (index.demonstrateAllOperations lib sched w) as [[v|e] w'];
      cbn [fst is_rejected] in *.
    + split; [now left|]. split; [intros L; discriminate (Old L)|].
      split; [discriminate|]. intros R. split; [|reflexivity].
      intros _. destruct lib; [discriminate (Old eq_refl)|].
      split; [reflexivity|]. split; [eauto|].
      destruct (driver_can_insert w); [reflexivity|].
      discriminate (Taken R eq_refl).
    + split; [now right|]. split; [reflexivity|].
      split; [discriminate|]. intros R. split; [discriminate|].
      intros (L & _ & C). discriminate (New R L C).
Qed.

(** On a new database: with a library from 6.1.0 on [main] returns, the
    saves of the batch arriving in some other order than that of the
    array; with an earlier library it ends the process with code 1. *)
Lemma main_exit_code_witness :
  let uri := Some "mongodb://localhost:27017/people" in
  let drv := fun _ : string => true in
  fst (index.main From_6_1 [1; 0; 2] uri drv connection.constructor
                  empty_world) = None
  /\ fst (index.main Before_6_1 [1; 0; 2] uri drv connection.constructor
                     empty_world) = Some 1.
Proof.
  intros uri drv. split.
  - destruct (main_exit_code From_6_1 [1; 0; 2] uri drv
                             connection.constructor empty_world)
      as (_ & _ & _ & Returns).
    apply (Returns reachable_empty).
    split; [reflexivity|]. split; [eexists; reflexivity|reflexivity].
  - destruct (main_exit_code Before_6_1 [1; 0; 2] uri drv
                             connection.constructor empty_world)
      as (_ & Old & _).
    exact (Old eq_refl).
Defined.
